(** * pixf: image extraction, deduplication and concurrent re-encoding

    A shallow embedding of package [imageHandling] (the Go source of the
    extraction pipeline) and the properties of its deduplication stage,
    output naming, worker pool, buffer pool and error paths.

    Layout: the Go runtime pieces the package relies on (strings, paths,
    formatting, errors), the environment of library calls, the package's
    functions in source order, the worker pool as a small-step machine,
    the command ([ExtractImagesUnique] and [main]), and then the theorems. *)

From Stdlib Require Import String Ascii List ZArith Lia DecimalString DecimalNat
  DecimalFacts Permutation Sorted.
From stdpp Require Import gmap strings list relations.

Open Scope string_scope.

(** ** Go runtime: byte strings, case folding, paths, formatting *)

(** [[]byte] *)
Definition bytes := list Byte.byte.

(** A Go string is a sequence of bytes, here a [string] of 8-bit characters;
    text in it is UTF-8. *)

(** The ASCII path of [strings.ToLower]: the bytes A-Z are mapped to a-z and
    every other byte is left as it is. *)
Definition lower_ascii (c : ascii) : ascii :=
  let n := nat_of_ascii c in
  if (65 <=? n)%nat && (n <=? 90)%nat then ascii_of_nat (n + 32) else c.

Fixpoint lower_bytes (s : string) : string :=
  match s with
  | EmptyString => EmptyString
  | String c s' => String (lower_ascii c) (lower_bytes s')
  end.

(** The test [strings.ToLower] starts with: no byte of [s] is
    [utf8.RuneSelf] (0x80) or above. *)
Fixpoint isASCII (s : string) : bool :=
  match s with
  | EmptyString => true
  | String c s' => (nat_of_ascii c <? 128)%nat && isASCII s'
  end.

(** [os.IsPathSeparator] on a Unix system. *)
Definition IsPathSeparator (c : ascii) : bool := Ascii.eqb c "/"%char.

(** [filepath.Ext]: the loop
    [for i := len(path)-1; i >= 0 && !os.IsPathSeparator(path[i]); i--]
    returning [path[i:]] at the first dot met.  The argument [n] of the
    loop function is [i+1]. *)
Fixpoint Ext_loop (path : string) (n : nat) : string :=
  match n with
  | O => ""
  | S i =>
    match String.get i path with
    | None => ""
    | Some c =>
      if IsPathSeparator c then ""
      else if Ascii.eqb c "."%char then substring i (String.length path - i) path
      else Ext_loop path i
    end
  end.

Definition Ext (path : string) : string := Ext_loop path (String.length path).

(** [%d] of a non-negative [int]. *)
Definition itoa (n : nat) : string := NilZero.string_of_uint (Nat.to_uint n).

Fixpoint zeros (k : nat) : string :=
  match k with
  | O => ""
  | S k' => String "0"%char (zeros k')
  end.

(** [%04d]: decimal digits, left-padded with zeros to width four; wider
    numbers are printed in full. *)
Definition pad04 (n : nat) : string :=
  let d := itoa n in zeros (4 - String.length d) ++ d.

(** [fmt.Sprintf("image_%04d%s", n, ext)].  The indices of the package range
    over slice positions and counters bounded by a slice length, so they are
    natural numbers and [n+1] cannot overflow. *)
Definition Sprintf_image (n : nat) (ext : string) : string :=
  "image_" ++ pad04 n ++ ext.

(** [fmt.Sprintf("%x", data)]: two lower-case hexadecimal digits per byte. *)
Definition hex_digit (n : N) : ascii :=
  nth (N.to_nat n) (list_ascii_of_string "0123456789abcdef") "0"%char.

Definition hex_byte (b : Byte.byte) : string :=
  let n := Byte.to_N b in
  String (hex_digit (n / 16)) (String (hex_digit (n mod 16)) "").

Fixpoint Sprintf_x (data : bytes) : string :=
  match data with
  | [] => ""
  | b :: rest => hex_byte b ++ Sprintf_x rest
  end.

Definition newline : string := String (ascii_of_nat 10) "".

(** [fmt.Sprintf("skipped %d duplicate image(s)\n", dupCount)] *)
Definition Sprintf_skipped (dupCount : nat) : string :=
  "skipped " ++ itoa dupCount ++ " duplicate image(s)" ++ newline.

(** ** Go runtime: errors *)

Inductive Errno := EEXIST | ENOTEMPTY | ENOENT | EACCES | ENOSPC | EISDIR | EIO.

(** Error values: the [*fs.PathError] of package [os], a plain message
    ([errors.New], [fmt.Errorf] without [%w], library errors) and an error
    wrapped by [fmt.Errorf("...: %w", err)]. *)
Inductive error :=
| PathError (Op Path : string) (Err : Errno)
| ErrorString (msg : string)
| WrapError (msg : string) (err : error).

(** [os.IsExist]: looks through a [PathError] only (not through [%w]) and
    accepts [EEXIST] and [ENOTEMPTY]. *)
Definition os_IsExist (err : error) : bool :=
  match err with
  | PathError _ _ EEXIST | PathError _ _ ENOTEMPTY => true
  | _ => false
  end.

(** A Go result [(value, error)]; a function returning only [error] returns
    [result unit], [Ok tt] being [nil]. *)
Inductive result (A : Type) :=
| Ok (a : A)
| Err (e : error).
Arguments Ok {A} a.
Arguments Err {A} e.

(** ** Images *)

Record Rectangle := { MinX : Z; MinY : Z; MaxX : Z; MaxY : Z }.

(** [image.RGBA] *)
Record RGBA := { Pix : bytes; Stride : Z; Rect : Rectangle }.

(** A decoded image of another concrete type (paletted, gray, YCbCr, ...). *)
Record OtherImage := { ColorModel : string; Bounds : Rectangle; Data : bytes }.

(** [image.Image]: either already an [*image.RGBA] or something else. *)
Inductive Image :=
| ImgRGBA (rgba : RGBA)
| ImgOther (img : OtherImage).

(** [os.DirEntry] *)
Record DirEntry := { Name : string; IsDir : bool }.

(** ** Environment: the outcomes of the library and system calls *)

Record Env := {
  os_Mkdir : string -> option error;
  os_MkdirTemp : string -> string -> result string;
  api_ExtractImagesFile : string -> string -> option error;
  os_ReadDir : string -> result (list DirEntry);
  os_ReadFile : string -> result bytes;
  os_WriteFile : string -> bytes -> option error;
  os_Getenv : string -> string;
  strconv_Atoi : string -> result Z;
  filepath_Join : string -> string -> string;
  sha256_Sum : bytes -> bytes;
  image_Decode : bytes -> result Image;
  (** [image.NewRGBA(b)] followed by [draw.Draw(rgba, b, img, b.Min, draw.Src)] *)
  draw_Src : OtherImage -> RGBA;
  (** [png.Encoder{CompressionLevel: png.NoCompression}.Encode]: the bytes
      written to the writer and the error returned *)
  png_Encode_NoCompression : RGBA -> bytes * option error;
  (** [webp.Encode] with [Lossless: true, Quality: 100] *)
  webp_Encode_Lossless100 : RGBA -> bytes * option error;
  (** [strings.Map(unicode.ToLower, s)], the path [strings.ToLower] takes
      for a string that is not ASCII: the runes of [s], each lower-cased by
      the Unicode tables and encoded again *)
  strings_Map_unicode_ToLower : string -> string
}.

(** [strings.ToLower]: byte by byte on an ASCII string, by the Unicode
    tables otherwise. *)
Definition ToLower (env : Env) (s : string) : string :=
  if isASCII s then lower_bytes s else strings_Map_unicode_ToLower env s.

(** ** Observable effects *)

Inductive Event :=
| EvMkdir (path : string)
| EvMkdirTemp (dir pattern : string)
| EvExtractImagesFile (filename dir : string)
| EvReadDir (dir : string)
| EvReadFile (path : string)
| EvWriteFile (path : string) (data : bytes) (err : option error)
| EvPrintf (text : string)
| EvRemoveAll (dir : string).

(** [bytes.Buffer]: its contents. *)
Definition Buffer := bytes.

(** The state the package acts on: the effects so far, oldest first, and the
    package-level [bufferPool]. *)
Record World := { trace : list Event; bufferPool : list Buffer }.

Definition log (w : World) (ev : Event) : World :=
  {| trace := trace w ++ [ev]; bufferPool := bufferPool w |}.

(** A small state-and-error monad for the sequential code. *)
Definition M (A : Type) : Type := World -> result A * World.

#[global] Instance M_ret : MRet M := fun A (a : A) w => (Ok a, w).

#[global] Instance M_bind : MBind M := fun A B (k : A -> M B) (m : M A) w =>
  match m w with
  | (Ok a, w') => k a w'
  | (Err e, w') => (Err e, w')
  end.

Definition fail {A} (e : error) : M A := fun w => (Err e, w).

Definition emit (ev : Event) : M unit := fun w => (Ok tt, log w ev).

(** A call returning [(value, err)] followed by
    [if err != nil { return fmt.Errorf(ctx+"%w", err) }]. *)
Definition call {A} (ev : Event) (r : result A) (ctx : string) : M A :=
  emit ev ;;
  match r with
  | Ok a => mret a
  | Err e => fail (WrapError ctx e)
  end.

Definition of_error (r : option error) : result unit :=
  match r with
  | None => Ok tt
  | Some e => Err e
  end.

(** [defer cleanup]: runs on every exit path and leaves the result alone. *)
Definition defer {A} (cleanup : M unit) (body : M A) : M A :=
  fun w => let (r, w') := body w in (r, snd (cleanup w')).

Definition lift {A} (r : result A) : M A := fun w => (r, w).

(** ** Package imageHandling *)

(** *** Buffer pool

    [sync.Pool] hands out any pooled buffer or a new one; [pick] is that
    choice: the position of a pooled buffer, or a position outside the pool
    for [New]. *)
Definition getBuffer (pick : nat) : M Buffer := fun w =>
  match bufferPool w !! pick with
  | Some buf =>
    (Ok buf, {| trace := trace w; bufferPool := delete pick (bufferPool w) |})
  | None => (Ok [], w)
  end.

(** [bytes.Buffer.Reset] *)
Definition Buffer_Reset (buf : Buffer) : Buffer := [].

Definition putBuffer (buf : Buffer) : M unit := fun w =>
  (Ok tt, {| trace := trace w; bufferPool := bufferPool w ++ [Buffer_Reset buf] |}).

(** *** Encoders *)

(** Interface [ImageEncoder].  [Encode] gives the bytes written to the
    writer and the error returned. *)
Record ImageEncoder := {
  Encode : RGBA -> bytes * option error;
  Extension : string
}.

Definition PNGEncoder (env : Env) : ImageEncoder :=
  {| Encode := png_Encode_NoCompression env; Extension := ".png" |}.

Definition WebPEncoder (env : Env) : ImageEncoder :=
  {| Encode := webp_Encode_Lossless100 env; Extension := ".webp" |}.

Definition encoderRegistry (env : Env) : gmap string ImageEncoder :=
  <["png" := PNGEncoder env]> (<["webp" := WebPEncoder env]> ∅).

Definition GetEncoder (env : Env) (format : string) : result ImageEncoder :=
  let format := ToLower env format in
  match encoderRegistry env !! format with
  | None => Err (ErrorString ("unsupported format: " ++ format))
  | Some encoder => Ok encoder
  end.

Definition toRGBA (env : Env) (img : Image) : RGBA :=
  match img with
  | ImgRGBA rgba => rgba
  | ImgOther o => draw_Src env o
  end.

Record LoadedImage := { Img : RGBA; FileHash : string }.

(** *** Helpers at the end of the source file *)

Definition isImageFile (env : Env) (filename : string) : bool :=
  let ext := ToLower env (Ext filename) in
  String.eqb ext ".png" || String.eqb ext ".jpg" || String.eqb ext ".jpeg"
  || String.eqb ext ".gif" || String.eqb ext ".bmp" || String.eqb ext ".tiff"
  || String.eqb ext ".webp".

Definition hashBytes (env : Env) (data : bytes) : string :=
  Sprintf_x (sha256_Sum env data).

(** [writeImageFile].  [buf] is a pointer in the source, so the deferred
    [putBuffer] sees the buffer as [Encode] left it. *)
Definition writeImageFile (env : Env) (pick : nat) (img : RGBA)
    (encoder : ImageEncoder) (imgDir : string) (index : nat) : M unit :=
  buf ← getBuffer pick;
  let (written, err) := Encode encoder img in
  let buf := (buf ++ written)%list in
  defer (putBuffer buf)
    match err with
    | Some e => fail (WrapError "encode: " e)
    | None =>
      let ext := Extension encoder in
      let outName := Sprintf_image (index + 1) ext in
      let outPath := filepath_Join env imgDir outName in
      let r := os_WriteFile env outPath buf in
      emit (EvWriteFile outPath buf r) ;; lift (of_error r)
    end.

Definition getWorkerCount (env : Env) : nat :=
  let val := os_Getenv env "PIXF_WORKERS" in
  if negb (String.eqb val "") then
    match strconv_Atoi env val with
    | Ok n => if (n >? 0)%Z then Z.to_nat n else 4
    | Err _ => 4
    end
  else 4.

(** *** Worker pool ([processImagesConcurrently])

    The goroutines of one batch as a small-step machine.  A step is one
    atomic action of one goroutine: a channel send or receive, a load or
    store of the [failed] flag, or one call of [writeImageFile].  The call
    is taken as a single action: between its [getBuffer] and its
    [putBuffer] the buffer is out of the pool and held by this worker alone,
    and its one visible effect is the [os.WriteFile] of its own file. *)

Record WriteTask := { Index : nat; TaskImg : RGBA }.

(** Where a worker goroutine stands in its loop. *)
Inductive wstate :=
| WRecv                        (* at [for task := range taskChan] *)
| WLoad (task : WriteTask)     (* task received, before [failed.Load()] *)
| WWrite (task : WriteTask)    (* flag seen clear, [writeImageFile] in flight *)
| WStore (err : error)         (* write failed, before [failed.Store(true)] *)
| WSend (r : option error)     (* before the send on [resultChan] *)
| WDone.                       (* returned; [wg.Done()] has run *)

Record Pool := {
  pending : list WriteTask;            (* tasks main has still to send *)
  taskChan : list WriteTask;           (* queued tasks, oldest first *)
  closed : bool;                       (* [close(taskChan)] has run *)
  workers : list wstate;
  failed : bool;                       (* [atomic.Bool] *)
  resultChan : list (option error);    (* every value sent, in arrival order *)
  world : World
}.

Inductive thread :=
| Main
| Worker (i : nat).

Definition set_worker (i : nat) (ws : wstate) (s : Pool) : Pool :=
  {| pending := pending s; taskChan := taskChan s; closed := closed s;
     workers := <[i := ws]> (workers s); failed := failed s;
     resultChan := resultChan s; world := world s |}.

Definition set_world (w : World) (s : Pool) : Pool :=
  {| pending := pending s; taskChan := taskChan s; closed := closed s;
     workers := workers s; failed := failed s;
     resultChan := resultChan s; world := w |}.

(** Main goroutine: [for _, task := range tasks { taskChan <- task }] and
    then [close(taskChan)].  The channel has room for every task, so a send
    never blocks. *)
Definition main_step (s : Pool) : option Pool :=
  match pending s with
  | task :: rest =>
    Some {| pending := rest; taskChan := taskChan s ++ [task];
            closed := closed s; workers := workers s; failed := failed s;
            resultChan := resultChan s; world := world s |}
  | [] =>
    if closed s then None
    else Some {| pending := []; taskChan := taskChan s; closed := true;
                 workers := workers s; failed := failed s;
                 resultChan := resultChan s; world := world s |}
  end.

(** One action of worker [i]; [None] when it is blocked or has returned. *)
Definition worker_step (env : Env) (encoder : ImageEncoder) (imgDir : string)
    (pick : nat) (i : nat) (s : Pool) : option Pool :=
  match workers s !! i with
  | None => None
  | Some WRecv =>
    match taskChan s with
    | task :: rest =>
      Some (set_worker i (WLoad task)
              {| pending := pending s; taskChan := rest; closed := closed s;
                 workers := workers s; failed := failed s;
                 resultChan := resultChan s; world := world s |})
    | [] => if closed s then Some (set_worker i WDone s) else None
    end
  | Some (WLoad task) =>
    if failed s then Some (set_worker i WDone s)
    else Some (set_worker i (WWrite task) s)
  | Some (WWrite task) =>
    match writeImageFile env pick (TaskImg task) encoder imgDir (Index task)
            (world s) with
    | (Err err, w') => Some (set_worker i (WStore err) (set_world w' s))
    | (Ok _, w') => Some (set_worker i (WSend None) (set_world w' s))
    end
  | Some (WStore err) =>
    Some (set_worker i (WSend (Some err))
            {| pending := pending s; taskChan := taskChan s;
               closed := closed s; workers := workers s; failed := true;
               resultChan := resultChan s; world := world s |})
  | Some (WSend r) =>
    Some (set_worker i WRecv
            {| pending := pending s; taskChan := taskChan s;
               closed := closed s; workers := workers s; failed := failed s;
               resultChan := resultChan s ++ [r]; world := world s |})
  | Some WDone => None
  end.

Definition step_thread (env : Env) (encoder : ImageEncoder) (imgDir : string)
    (c : thread * nat) (s : Pool) : option Pool :=
  match fst c with
  | Main => main_step s
  | Worker i => worker_step env encoder imgDir (snd c) i s
  end.

(** A schedule names, action by action, the goroutine that moves and the
    buffer its [getBuffer] receives.  An entry naming a goroutine that
    cannot move is passed over. *)
Definition schedule := list (thread * nat).

Fixpoint run (env : Env) (encoder : ImageEncoder) (imgDir : string)
    (sched : schedule) (s : Pool) : Pool :=
  match sched with
  | [] => s
  | c :: rest =>
    match step_thread env encoder imgDir c s with
    | Some s' => run env encoder imgDir rest s'
    | None => run env encoder imgDir rest s
    end
  end.

(** Once the schedule is used up the remaining actions are taken in a fixed
    order: main first, then the workers by number. *)
Fixpoint try_workers (env : Env) (encoder : ImageEncoder) (imgDir : string)
    (ids : list nat) (s : Pool) : option Pool :=
  match ids with
  | [] => None
  | i :: rest =>
    match worker_step env encoder imgDir 0 i s with
    | Some s' => Some s'
    | None => try_workers env encoder imgDir rest s
    end
  end.

Definition next_step (env : Env) (encoder : ImageEncoder) (imgDir : string)
    (s : Pool) : option Pool :=
  match main_step s with
  | Some s' => Some s'
  | None => try_workers env encoder imgDir (seq 0 (length (workers s))) s
  end.

Definition rank (ws : wstate) : nat :=
  match ws with
  | WDone => 0
  | WRecv => 1
  | WSend _ => 2
  | WStore _ => 3
  | WWrite _ => 4
  | WLoad _ => 5
  end.

(** An upper bound on the number of actions left. *)
Definition measure (s : Pool) : nat :=
  7 * length (pending s) + 6 * length (taskChan s)
  + (if closed s then 0 else 1) + sum_list (rank <$> workers s).

Fixpoint finish_fuel (env : Env) (encoder : ImageEncoder) (imgDir : string)
    (fuel : nat) (s : Pool) : Pool :=
  match fuel with
  | O => s
  | S fuel' =>
    match next_step env encoder imgDir s with
    | Some s' => finish_fuel env encoder imgDir fuel' s'
    | None => s
    end
  end.

Definition finish (env : Env) (encoder : ImageEncoder) (imgDir : string)
    (s : Pool) : Pool :=
  finish_fuel env encoder imgDir (measure s) s.

(** All goroutines have returned: [wg.Wait()] is over and [resultChan] is
    closed. *)
Definition terminal (s : Pool) : Prop :=
  pending s = [] /\ closed s = true /\ Forall (fun ws => ws = WDone) (workers s).

(** [for err := range resultChan { if err != nil && sendErr == nil
    { sendErr = err } }] *)
Fixpoint collect (sendErr : option error) (results : list (option error))
    : option error :=
  match results with
  | [] => sendErr
  | err :: rest =>
    match err, sendErr with
    | Some _, None => collect err rest
    | _, _ => collect sendErr rest
    end
  end.

(** [tasks = append(tasks, WriteTask{Index: i, Img: li.Img})] *)
Definition make_tasks (loadedImages : list LoadedImage) : list WriteTask :=
  imap (fun i li => {| Index := i; TaskImg := Img li |}) loadedImages.

Definition init_pool (tasks : list WriteTask) (numWorkers : nat) (w : World)
    : Pool :=
  {| pending := tasks; taskChan := []; closed := false;
     workers := replicate numWorkers WRecv; failed := false;
     resultChan := []; world := w |}.

(** The pool when every goroutine has returned. *)
Definition pool_final (env : Env) (sched : schedule)
    (loadedImages : list LoadedImage) (imgDir : string)
    (encoder : ImageEncoder) (w : World) : Pool :=
  let tasks := make_tasks loadedImages in
  let numWorkers := getWorkerCount env in
  finish env encoder imgDir
    (run env encoder imgDir sched (init_pool tasks numWorkers w)).

Definition processImagesConcurrently (env : Env) (sched : schedule)
    (loadedImages : list LoadedImage) (imgDir : string)
    (encoder : ImageEncoder) : M unit := fun w =>
  let s := pool_final env sched loadedImages imgDir encoder w in
  (of_error (collect None (resultChan s)), world s).

(** *** Load-then-dedup strategy ([extractImagesConcurrent]) *)

(** The loop over [files] that fills [loadedImages]. *)
Fixpoint load_loop (env : Env) (tempDir : string) (files : list DirEntry)
    (loadedImages : list LoadedImage) : M (list LoadedImage) :=
  match files with
  | [] => mret loadedImages
  | f :: rest =>
    if negb (isImageFile env (Name f)) then load_loop env tempDir rest loadedImages
    else
      let imgPath := filepath_Join env tempDir (Name f) in
      fileData ← call (EvReadFile imgPath) (os_ReadFile env imgPath)
                   "read file data: ";
      rawImg ← lift match image_Decode env fileData with
                    | Ok img => Ok img
                    | Err e => Err (WrapError "decode image: " e)
                    end;
      let rgba := toRGBA env rawImg in
      let hash := hashBytes env fileData in
      load_loop env tempDir rest
        (loadedImages ++ [{| Img := rgba; FileHash := hash |}])
  end.

(** [seen[h]] on a [map[string]bool]: [false] for a missing key. *)
Definition seen_get (seen : gmap string bool) (h : string) : bool :=
  default false (seen !! h).

(** The deduplication loop; returns [(seen, dupCount, uniqueImages)]. *)
Fixpoint dedup_loop (loadedImages : list LoadedImage)
    (seen : gmap string bool) (dupCount : nat)
    (uniqueImages : list LoadedImage)
    : gmap string bool * nat * list LoadedImage :=
  match loadedImages with
  | [] => (seen, dupCount, uniqueImages)
  | li :: rest =>
    if seen_get seen (FileHash li) then
      dedup_loop rest seen (dupCount + 1) uniqueImages
    else
      dedup_loop rest (<[FileHash li := true]> seen) dupCount
        (uniqueImages ++ [li])
  end.

Definition extractImagesConcurrent (env : Env) (sched : schedule)
    (filename imgDir : string) (encoder : ImageEncoder) : M unit :=
  tempDir ← call (EvMkdirTemp "" "pdfimg") (os_MkdirTemp env "" "pdfimg")
              "create temp dir: ";
  defer (emit (EvRemoveAll tempDir))
    (call (EvExtractImagesFile filename tempDir)
       (of_error (api_ExtractImagesFile env filename tempDir))
       "api.ExtractImagesFile: " ;;
     files ← call (EvReadDir tempDir) (os_ReadDir env tempDir)
               "read temp dir: ";
     loadedImages ← load_loop env tempDir files [];
     if (length loadedImages =? 0)%nat then mret tt
     else
       let '(seen, dupCount, uniqueImages) :=
         dedup_loop loadedImages ∅ 0 [] in
       (if (0 <? dupCount)%nat then emit (EvPrintf (Sprintf_skipped dupCount))
        else mret tt) ;;
       processImagesConcurrently env sched uniqueImages imgDir encoder).

(** *** Sequential byte-dedup strategy ([extractImagesOriginal]) *)

(** The loop of [processExtractedFilesSequential]; returns [dupCount]. *)
Fixpoint sequential_loop (env : Env) (tempDir imgDir : string)
    (files : list DirEntry) (seen : gmap string bool)
    (dupCount uniqueCount : nat) : M nat :=
  match files with
  | [] => mret dupCount
  | f :: rest =>
    if IsDir f || negb (isImageFile env (Name f)) then
      sequential_loop env tempDir imgDir rest seen dupCount uniqueCount
    else
      let imgPath := filepath_Join env tempDir (Name f) in
      fileData ← call (EvReadFile imgPath) (os_ReadFile env imgPath)
                   "read image: ";
      let hash := hashBytes env fileData in
      if seen_get seen hash then
        sequential_loop env tempDir imgDir rest seen (dupCount + 1) uniqueCount
      else
        let seen := <[hash := true]> seen in
        let origExt := ToLower env (Ext (Name f)) in
        let origExt := if String.eqb origExt "" then ".png" else origExt in
        let dstPath :=
          filepath_Join env imgDir (Sprintf_image uniqueCount origExt) in
        let r := os_WriteFile env dstPath fileData in
        call (EvWriteFile dstPath fileData r) (of_error r) "write image: " ;;
        sequential_loop env tempDir imgDir rest seen dupCount (uniqueCount + 1)
  end.

Definition processExtractedFilesSequential (env : Env)
    (files : list DirEntry) (tempDir imgDir : string) : M unit :=
  dupCount ← sequential_loop env tempDir imgDir files ∅ 0 0;
  (if (0 <? dupCount)%nat then emit (EvPrintf (Sprintf_skipped dupCount))
   else mret tt) ;;
  mret tt.

Definition extractImagesOriginal (env : Env) (filename imgDir : string)
    : M unit :=
  tempDir ← call (EvMkdirTemp "" "pdfimg") (os_MkdirTemp env "" "pdfimg")
              "create temp dir: ";
  defer (emit (EvRemoveAll tempDir))
    (call (EvExtractImagesFile filename tempDir)
       (of_error (api_ExtractImagesFile env filename tempDir))
       "api.ExtractImagesFile: " ;;
     files ← call (EvReadDir tempDir) (os_ReadDir env tempDir)
               "read temp dir: ";
     processExtractedFilesSequential env files tempDir imgDir).

(** *** Entry point *)

(** What [ExtractImagesFromFile] does once the output directory is there:
    the choice of strategy by [format]. *)
Definition extract_by_format (env : Env) (sched : schedule)
    (filename imgDir format : string) : M unit :=
  if String.eqb format "original" || String.eqb format "" then
    extractImagesOriginal env filename imgDir
  else
    encoder ← lift (GetEncoder env format);
    extractImagesConcurrent env sched filename imgDir encoder.

Definition ExtractImagesFromFile (env : Env) (sched : schedule)
    (filename imgDir format : string) : M unit :=
  emit (EvMkdir imgDir) ;;
  match os_Mkdir env imgDir with
  | Some err => if negb (os_IsExist err) then fail err else mret tt
  | None => mret tt
  end ;;
  extract_by_format env sched filename imgDir format.

(** ** A concrete environment for running the model

    [sample_env files mkdir workers bad]: the extractor leaves [files]
    (name and contents) in the temporary directory, [os.Mkdir] answers
    [mkdir], [PIXF_WORKERS] is [workers], decoding yields an RGBA image whose
    pixels are the file's bytes, both encoders emit the pixels unchanged
    except for images accepted by [bad], on which they write one byte and
    fail, the digest is the identity and every write succeeds. *)

Definition sample_tmp : string := "/tmp/pdfimg1".

Definition sample_join (dir name : string) : string := dir ++ "/" ++ name.

Fixpoint sample_lookup (files : list (string * bytes)) (path : string)
    : result bytes :=
  match files with
  | [] => Err (PathError "open" path ENOENT)
  | (n, data) :: rest =>
    if String.eqb path (sample_join sample_tmp n) then Ok data
    else sample_lookup rest path
  end.

Definition sample_rgba (data : bytes) : RGBA :=
  {| Pix := data; Stride := 4;
     Rect := {| MinX := 0; MinY := 0; MaxX := 1; MaxY := 1 |} |}.

Definition sample_encode (bad : bytes -> bool) (img : RGBA)
    : bytes * option error :=
  if bad (Pix img) then
    ([Byte.xff], Some (ErrorString ("cannot encode " ++ Sprintf_x (Pix img))))
  else (Pix img, None).

Definition sample_atoi (s : string) : result Z :=
  if String.eqb s "1" then Ok 1%Z
  else if String.eqb s "2" then Ok 2%Z
  else if String.eqb s "3" then Ok 3%Z
  else Err (ErrorString "strconv.Atoi: invalid syntax").

(** A sample of the Unicode path: the letter U+0130 (the bytes C4 B0) becomes
    [i], as the tables have it; the bytes A-Z are lower-cased and every
    other byte is kept. *)
Fixpoint sample_unicode_lower (s : string) : string :=
  match s with
  | EmptyString => EmptyString
  | String a rest =>
    match rest with
    | String b rest' =>
      if ((nat_of_ascii a =? 196) && (nat_of_ascii b =? 176))%nat
      then String "i" (sample_unicode_lower rest')
      else String (lower_ascii a) (sample_unicode_lower rest)
    | EmptyString => String (lower_ascii a) EmptyString
    end
  end.

Definition sample_env (files : list (string * bytes)) (mkdir : option error)
    (workers : string) (bad : bytes -> bool) : Env :=
  {| os_Mkdir := fun _ => mkdir;
     os_MkdirTemp := fun _ _ => Ok sample_tmp;
     api_ExtractImagesFile := fun _ _ => None;
     os_ReadDir := fun _ =>
       Ok (map (fun f => {| Name := fst f; IsDir := false |}) files);
     os_ReadFile := sample_lookup files;
     os_WriteFile := fun _ _ => None;
     os_Getenv := fun k => if String.eqb k "PIXF_WORKERS" then workers else "";
     strconv_Atoi := sample_atoi;
     filepath_Join := sample_join;
     sha256_Sum := fun data => data;
     image_Decode := fun data => Ok (ImgRGBA (sample_rgba data));
     draw_Src := fun o => sample_rgba (Data o);
     png_Encode_NoCompression := sample_encode bad;
     webp_Encode_Lossless100 := sample_encode bad;
     strings_Map_unicode_ToLower := sample_unicode_lower |}.

Definition no_bad (data : bytes) : bool := false.

Definition world0 : World := {| trace := []; bufferPool := [] |}.

(** ** Vocabulary of the statements *)

(** *** Reading a trace *)

Definition reads (tr : list Event) : list string :=
  omap (fun ev => match ev with EvReadFile p => Some p | _ => None end) tr.

(** The files produced: the [os.WriteFile] calls that succeeded. *)
Definition files_written (tr : list Event) : list (string * bytes) :=
  omap (fun ev =>
          match ev with EvWriteFile p d None => Some (p, d) | _ => None end) tr.

Definition failed_writes (tr : list Event) : list string :=
  omap (fun ev =>
          match ev with EvWriteFile p _ (Some _) => Some p | _ => None end) tr.

Definition prints (tr : list Event) : list string :=
  omap (fun ev => match ev with EvPrintf s => Some s | _ => None end) tr.

(** *** Input files *)

Definition image_extensions : list string :=
  [".png"; ".jpg"; ".jpeg"; ".gif"; ".bmp"; ".tiff"; ".webp"].

(** Case-insensitive comparison as the specification has it, for ASCII
    text: two bytes are the same letter when they are equal or when one is
    an upper-case letter A-Z and the other one the byte 32 above it. *)
Definition same_letter (a b : ascii) : bool :=
  let x := nat_of_ascii a in
  let y := nat_of_ascii b in
  ((x =? y) || ((65 <=? x) && (x <=? 90) && (y =? x + 32))
   || ((65 <=? y) && (y <=? 90) && (x =? y + 32)))%nat.

Fixpoint equal_fold (s t : string) : bool :=
  match s, t with
  | EmptyString, EmptyString => true
  | String a s', String b t' => same_letter a b && equal_fold s' t'
  | _, _ => false
  end.

(** The six formats named for recognition, as extensions. *)
Definition named_formats : list string :=
  [".png"; ".jpeg"; ".gif"; ".bmp"; ".tiff"; ".webp"].

(** All bytes, for statements checked byte by byte. *)
Definition all_ascii : list ascii := map ascii_of_nat (seq 0 256).

(** The entries the load-then-dedup strategy reads. *)
Definition recognized (env : Env) (files : list DirEntry) : list DirEntry :=
  filter (fun f => isImageFile env (Name f) = true) files.

(** The entries the sequential strategy reads. *)
Definition recognized_files (env : Env) (files : list DirEntry) : list DirEntry :=
  filter (fun f => IsDir f = false /\ isImageFile env (Name f) = true) files.

(** The extension [processExtractedFilesSequential] gives a kept file. *)
Definition kept_ext (env : Env) (name : string) : string :=
  let origExt := ToLower env (Ext name) in
  if String.eqb origExt "" then ".png" else origExt.

(** The [LoadedImage] of a file, from its bytes and its decoded image. *)
Definition loaded_of (env : Env) (it : DirEntry * bytes * Image)
    : LoadedImage :=
  {| Img := toRGBA env it.2; FileHash := hashBytes env it.1.2 |}.

(** Deduplication as the specification words it: an item is kept exactly
    when its key is not among the [earlier] keys and did not occur before
    it in the list. *)
Fixpoint first_occurrences {A} (key : A -> string) (earlier : list string)
    (l : list A) : list A :=
  match l with
  | [] => []
  | x :: rest =>
    if bool_decide (key x ∈ earlier) then first_occurrences key earlier rest
    else x :: first_occurrences key (key x :: earlier) rest
  end.

(** *** Buffer pool *)

Definition pool_clean (w : World) : Prop :=
  Forall (fun b => b = []) (bufferPool w).

(** The buffer [getBuffer pick] hands out and the pool after the matching
    [putBuffer]. *)
Definition picked (pick : nat) (pool : list Buffer) : Buffer :=
  default [] (pool !! pick).

Definition pool_after (pick : nat) (pool : list Buffer) : list Buffer :=
  (match pool !! pick with Some _ => delete pick pool | None => pool end
   ++ [[]])%list.

(** *** Worker pool *)

Definition out_path (env : Env) (imgDir : string) (encoder : ImageEncoder)
    (index : nat) : string :=
  filepath_Join env imgDir (Sprintf_image (index + 1) (Extension encoder)).

Definition pool_step (env : Env) (encoder : ImageEncoder) (imgDir : string)
    (s s' : Pool) : Prop :=
  exists c, step_thread env encoder imgDir c s = Some s'.

(** The task a worker has in hand. *)
Definition held (ws : wstate) : list WriteTask :=
  match ws with
  | WLoad task | WWrite task => [task]
  | _ => []
  end.

Definition holding (s : Pool) : list WriteTask := workers s ≫= held.

(** Encoding and writing the task succeed. *)
Definition task_ok (env : Env) (encoder : ImageEncoder) (imgDir : string)
    (task : WriteTask) : Prop :=
  snd (Encode encoder (TaskImg task)) = None
  /\ os_WriteFile env (out_path env imgDir encoder (Index task))
       (fst (Encode encoder (TaskImg task))) = None.

Definition write_event (env : Env) (encoder : ImageEncoder) (imgDir : string)
    (task : WriteTask) : Event :=
  EvWriteFile (out_path env imgDir encoder (Index task))
    (fst (Encode encoder (TaskImg task))) None.

(** The write of one of the tasks: its name from its index, its bytes the
    encoder's output for its image. *)
Definition from_task (env : Env) (encoder : ImageEncoder) (imgDir : string)
    (tasks : list WriteTask) (ev : Event) : Prop :=
  exists task,
    task ∈ tasks
    /\ ev = EvWriteFile (out_path env imgDir encoder (Index task))
              (fst (Encode encoder (TaskImg task)))
              (os_WriteFile env (out_path env imgDir encoder (Index task))
                 (fst (Encode encoder (TaskImg task)))).

(** A failure has been sent on [resultChan] or is about to be. *)
Definition reported (s : Pool) : Prop :=
  (exists e, Some e ∈ resultChan s) \/ (exists e, WSend (Some e) ∈ workers s).

Definition calm (ws : wstate) : Prop :=
  match ws with
  | WStore _ | WSend (Some _) => False
  | _ => True
  end.

(** Invariant of a batch in which no task can fail. *)
Record good (env : Env) (encoder : ImageEncoder) (imgDir : string)
    (tasks : list WriteTask) (w0 : World) (n : nat) (s : Pool) : Prop := {
  good_failed : failed s = false;
  good_calm : Forall calm (workers s);
  good_results : Forall (fun r => r = None) (resultChan s);
  good_clean : pool_clean (world s);
  good_workers : length (workers s) = n;
  good_closed : closed s = true -> pending s = [];
  good_done : WDone ∈ workers s -> closed s = true /\ taskChan s = [];
  good_tasks : exists done,
    trace (world s) = (trace w0 ++ (write_event env encoder imgDir <$> done))%list
    /\ tasks ≡ₚ (pending s ++ taskChan s ++ holding s ++ done)%list
}.

(** Invariant of every batch. *)
Record sound (env : Env) (encoder : ImageEncoder) (imgDir : string)
    (tasks : list WriteTask) (w0 : World) (s : Pool) : Prop := {
  sound_clean : pool_clean (world s);
  sound_tasks : forall task,
    task ∈ (pending s ++ taskChan s ++ holding s)%list -> task ∈ tasks;
  sound_trace : exists evs,
    trace (world s) = (trace w0 ++ evs)%list
    /\ Forall (from_task env encoder imgDir tasks) evs;
  sound_flag : reported s -> failed s = true
}.

(** *** Statements about runs *)

Definition output_dir_ready (env : Env) (imgDir : string) : Prop :=
  match os_Mkdir env imgDir with
  | Some err => os_IsExist err = true
  | None => True
  end.

(** The write of the [i]-th unique image. *)
Definition image_write (env : Env) (encoder : ImageEncoder) (imgDir : string)
    (i : nat) (li : LoadedImage) : Event :=
  EvWriteFile
    (filepath_Join env imgDir (Sprintf_image (i + 1) (Extension encoder)))
    (fst (Encode encoder (Img li))) None.

(** A write whose name and bytes are those of the unique image at some
    position [i]: [image_%04d<ext>] of [i+1], and the encoder's output. *)
Definition named_by_index (env : Env) (encoder : ImageEncoder) (imgDir : string)
    (loadedImages : list LoadedImage) (ev : Event) : Prop :=
  exists i li r,
    loadedImages !! i = Some li
    /\ ev = EvWriteFile
              (filepath_Join env imgDir (Sprintf_image (i + 1) (Extension encoder)))
              (fst (Encode encoder (Img li))) r.

Definition flag_inv (s : Pool) : Prop := reported s -> failed s = true.

(** A worker that has taken a task and not yet sent its result. *)
Definition busy (ws : wstate) : nat :=
  match ws with
  | WLoad _ | WWrite _ | WStore _ | WSend _ => 1
  | _ => 0
  end.

(** Tasks not yet queued, queued or in hand, and results sent. *)
Definition accounted (s : Pool) : nat :=
  length (pending s) + length (taskChan s) + sum_list (busy <$> workers s)
  + length (resultChan s).

(** A computation that leaves a pool of empty buffers as such. *)
Definition keeps_clean {A} (m : M A) : Prop :=
  forall w, pool_clean w -> pool_clean (m w).2.

Definition unsupported (env : Env) (format : string) : error :=
  ErrorString ("unsupported format: " ++ ToLower env format).

Definition encode_error (hex : string) : error :=
  WrapError "encode: " (ErrorString ("cannot encode " ++ hex)).

(** ** Sample runs

    Concrete directories, environments and schedules on which the model is
    run in the examples below. *)

(** [a.png], its byte-identical copy [b.png] and a different [c.jpg]. *)
Definition demo_files : list (string * bytes) :=
  [("a.png", [Byte.x01; Byte.x02]); ("b.png", [Byte.x01; Byte.x02]);
   ("c.jpg", [Byte.x03])].

Definition demo_env : Env := sample_env demo_files None "2" no_bad.

Definition demo_loaded : list LoadedImage :=
  [ {| Img := sample_rgba [Byte.x01; Byte.x02]; FileHash := "0102" |};
    {| Img := sample_rgba [Byte.x01; Byte.x02]; FileHash := "0102" |};
    {| Img := sample_rgba [Byte.x03]; FileHash := "03" |} ].

Definition demo_entries : list DirEntry :=
  map (fun f => {| Name := fst f; IsDir := false |}) demo_files.

Definition demo_unique : list LoadedImage :=
  [ {| Img := sample_rgba [Byte.x01; Byte.x02]; FileHash := "0102" |};
    {| Img := sample_rgba [Byte.x03]; FileHash := "03" |} ].

(** Worker 1 moves before anything is queued, then takes the first task. *)
Definition demo_schedule : schedule :=
  [ (Worker 1, 0); (Main, 0); (Main, 0); (Worker 1, 0); (Worker 0, 0);
    (Worker 0, 0); (Worker 0, 0); (Worker 1, 0); (Worker 1, 0) ].

Definition single_files : list (string * bytes) := [("a.png", [Byte.x01; Byte.x02])].

Definition single_env : Env := sample_env single_files None "2" no_bad.

Definition upper_env : Env := sample_env [("A.PNG", [Byte.x01])] None "2" no_bad.

Definition xyz_env : Env := sample_env [("notes.xyz", [Byte.x01])] None "2" no_bad.

(** A directory with one file, which has no extension. *)
Definition noext_env : Env := sample_env [("noext", [Byte.x01])] None "2" no_bad.

(** The letter U+0130 in UTF-8. *)
Definition capital_I_with_dot : string :=
  String (ascii_of_nat 196) (String (ascii_of_nat 176) EmptyString).

Definition denied_env : Env :=
  sample_env demo_files (Some (PathError "mkdir" "out" EACCES)) "2" no_bad.

Definition existing_env : Env :=
  sample_env demo_files (Some (PathError "mkdir" "out" EEXIST)) "2" no_bad.

(** Two images that cannot be encoded, for two workers. *)
Definition failing_env : Env :=
  sample_env [("x.png", [Byte.x01]); ("y.png", [Byte.x02])] None "2" (fun _ => true).

Definition failing_images : list LoadedImage :=
  [ {| Img := sample_rgba [Byte.x01]; FileHash := "01" |};
    {| Img := sample_rgba [Byte.x02]; FileHash := "02" |} ].

(** Both workers take a task and see the flag clear; then worker 0 finishes
    first, or worker 1 does. *)
Definition both_in_flight : schedule :=
  [ (Main, 0); (Main, 0); (Main, 0);
    (Worker 0, 0); (Worker 1, 0); (Worker 0, 0); (Worker 1, 0) ].

Definition zero_first : schedule :=
  (both_in_flight
   ++ [ (Worker 0, 0); (Worker 0, 0); (Worker 0, 0);
        (Worker 1, 0); (Worker 1, 0); (Worker 1, 0) ])%list.

Definition one_first : schedule :=
  (both_in_flight
   ++ [ (Worker 1, 0); (Worker 1, 0); (Worker 1, 0);
        (Worker 0, 0); (Worker 0, 0); (Worker 0, 0) ])%list.

(** Four tasks of which the first and the third cannot be encoded, for three
    workers. *)
Definition only_02_04 (data : bytes) : bool :=
  match data with
  | [Byte.x02] | [Byte.x04] => false
  | _ => true
  end.

Definition mixed_env : Env :=
  sample_env [] None "3" only_02_04.

Definition mixed_tasks : list WriteTask :=
  [ {| Index := 0; TaskImg := sample_rgba [Byte.x01] |};
    {| Index := 1; TaskImg := sample_rgba [Byte.x02] |};
    {| Index := 2; TaskImg := sample_rgba [Byte.x03] |};
    {| Index := 3; TaskImg := sample_rgba [Byte.x04] |} ].

(** All tasks are queued, workers 0, 1 and 2 each take one and see the flag
    clear; worker 0 then fails, sets the flag and reports. *)
Definition until_first_failure : schedule :=
  [ (Main, 0); (Main, 0); (Main, 0); (Main, 0); (Main, 0);
    (Worker 0, 0); (Worker 1, 0); (Worker 2, 0);
    (Worker 0, 0); (Worker 1, 0); (Worker 2, 0);
    (Worker 0, 0); (Worker 0, 0); (Worker 0, 0) ].

(** Worker 0 takes the fourth task and sees the flag; workers 1 and 2
    finish the tasks they had in flight. *)
Definition after_first_failure : schedule :=
  [ (Worker 0, 0); (Worker 0, 0);
    (Worker 1, 0); (Worker 1, 0);
    (Worker 2, 0); (Worker 2, 0); (Worker 2, 0) ].

Definition used_pool : World := {| trace := []; bufferPool := [[]; []] |}.

(** ** Further vocabulary *)

(** *** Accounting for the tasks of a batch *)

(** What [writeImageFile] returns for a task when it is handed an empty
    buffer, and the [os.WriteFile] call it makes. *)
Definition task_result (env : Env) (encoder : ImageEncoder) (imgDir : string)
    (task : WriteTask) : option error :=
  match snd (Encode encoder (TaskImg task)) with
  | Some e => Some (WrapError "encode: " e)
  | None =>
    os_WriteFile env (out_path env imgDir encoder (Index task))
      (fst (Encode encoder (TaskImg task)))
  end.

Definition task_events (env : Env) (encoder : ImageEncoder) (imgDir : string)
    (task : WriteTask) : list Event :=
  match snd (Encode encoder (TaskImg task)) with
  | Some _ => []
  | None =>
    [EvWriteFile (out_path env imgDir encoder (Index task))
       (fst (Encode encoder (TaskImg task)))
       (os_WriteFile env (out_path env imgDir encoder (Index task))
          (fst (Encode encoder (TaskImg task))))]
  end.

(** The result a worker has in hand and has not sent yet. *)
Definition carried (ws : wstate) : list (option error) :=
  match ws with
  | WStore err => [Some err]
  | WSend r => [r]
  | _ => []
  end.

(** Invariant of every batch: where each task is, and where the result of
    each processed task is.  [processed] lists the tasks whose
    [writeImageFile] has returned, in that order; [dropped] the tasks given
    up by workers that saw the flag. *)
Record ledger (env : Env) (encoder : ImageEncoder) (imgDir : string)
    (tasks : list WriteTask) (w0 : World) (n : nat) (s : Pool) : Prop := {
  ledger_sound : sound env encoder imgDir tasks w0 s;
  ledger_workers : length (workers s) = n;
  ledger_closed : closed s = true -> pending s = [];
  ledger_set : failed s = true -> reported s;
  ledger_done :
    failed s = false -> WDone ∈ workers s -> closed s = true /\ taskChan s = [];
  ledger_tasks : exists processed dropped,
    trace (world s)
      = (trace w0 ++ (processed ≫= task_events env encoder imgDir))%list
    /\ tasks ≡ₚ (pending s ++ taskChan s ++ holding s ++ processed ++ dropped)%list
    /\ (task_result env encoder imgDir <$> processed)
         ≡ₚ (resultChan s ++ (workers s ≫= carried))%list
    /\ (failed s = false -> dropped = [])
}.

(** The number of entries of a schedule that name a goroutine able to
    move, i.e. the number of actions taken. *)
Fixpoint actions (env : Env) (encoder : ImageEncoder) (imgDir : string)
    (sched : schedule) (s : Pool) : nat :=
  match sched with
  | [] => 0
  | c :: rest =>
    match step_thread env encoder imgDir c s with
    | Some s' => S (actions env encoder imgDir rest s')
    | None => actions env encoder imgDir rest s
    end
  end.

(** The four images of [mixed_tasks], as the deduplication stage hands them
    over. *)
Definition mixed_images : list LoadedImage :=
  [ {| Img := sample_rgba [Byte.x01]; FileHash := "01" |};
    {| Img := sample_rgba [Byte.x02]; FileHash := "02" |};
    {| Img := sample_rgba [Byte.x03]; FileHash := "03" |};
    {| Img := sample_rgba [Byte.x04]; FileHash := "04" |} ].

Definition mixed_schedule : schedule :=
  (until_first_failure ++ after_first_failure)%list.

(** *** Reading names and fingerprints back *)

(** The value of a hexadecimal digit as [%x] prints it. *)
Definition hex_value (c : ascii) : option N :=
  let n := N_of_ascii c in
  if (48 <=? n)%N && (n <=? 57)%N then Some (n - 48)%N
  else if (97 <=? n)%N && (n <=? 102)%N then Some (n - 87)%N
  else None.

(** The bytes a [%x] string stands for. *)
Fixpoint unhex (s : string) : option bytes :=
  match s with
  | EmptyString => Some []
  | String a (String b rest) =>
    match hex_value a, hex_value b, unhex rest with
    | Some x, Some y, Some data =>
      match Byte.of_N (16 * x + y) with
      | Some byte => Some (byte :: data)
      | None => None
      end
    | _, _, _ => None
    end
  | String _ EmptyString => None
  end.

(** The number a string of decimal digits stands for. *)
Definition decimal_value (s : string) : option nat :=
  match NilEmpty.uint_of_string s with
  | Some d => Some (Nat.of_uint d)
  | None => None
  end.

(** No dot and no path separator. *)
Fixpoint plain (s : string) : bool :=
  match s with
  | EmptyString => true
  | String c rest =>
    negb (IsPathSeparator c) && negb (Ascii.eqb c "."%char) && plain rest
  end.

(** No dot. *)
Fixpoint dotless (s : string) : bool :=
  match s with
  | EmptyString => true
  | String c rest => negb (Ascii.eqb c "."%char) && dotless rest
  end.

Definition is_digit (c : ascii) : bool :=
  ((48 <=? N_of_ascii c) && (N_of_ascii c <=? 57))%N.

Fixpoint all_digits (s : string) : bool :=
  match s with
  | EmptyString => true
  | String c rest => is_digit c && all_digits rest
  end.

(** An extension as [filepath.Ext] and the encoders give it: a dot first. *)
Definition dotted (e : string) : bool :=
  match e with
  | String c _ => Ascii.eqb c "."%char
  | EmptyString => false
  end.

(** *** Effects and errors of a computation *)

(** [yields P Q m]: started with a pool of empty buffers, [m] leaves such a
    pool, adds only events satisfying [P] to the trace, and fails only with
    errors satisfying [Q]. *)
Definition yields {A} (P : Event -> Prop) (Q : error -> Prop) (m : M A)
    : Prop :=
  forall w, pool_clean w ->
    pool_clean (m w).2
    /\ (exists evs, trace (m w).2 = (trace w ++ evs)%list /\ Forall P evs)
    /\ (forall e, (m w).1 = Err e -> Q e).

(** What a strategy may do between creating and removing its temporary
    directory [tempDir]: extract into it, list it, read listed entries with
    an image extension from it, write [image_<digits><ext>] files into
    [imgDir], and report the number of duplicates. *)
Definition staged (env : Env) (exts : list string)
    (filename imgDir tempDir : string) (ev : Event) : Prop :=
  match ev with
  | EvExtractImagesFile f dir => f = filename /\ dir = tempDir
  | EvReadDir dir => dir = tempDir
  | EvReadFile path =>
    exists files f,
      os_ReadDir env tempDir = Ok files /\ f ∈ files
      /\ isImageFile env (Name f) = true
      /\ path = filepath_Join env tempDir (Name f)
  | EvWriteFile path data r =>
    exists k ext,
      ext ∈ exts
      /\ path = filepath_Join env imgDir (Sprintf_image k ext)
      /\ r = os_WriteFile env path data
  | EvPrintf text => exists n, (0 < n)%nat /\ text = Sprintf_skipped n
  | _ => False
  end.

(** The trace of a strategy: the temporary directory is created, used as
    [staged] allows, and removed last; nothing happens if it cannot be
    created. *)
Definition bracketed (env : Env) (exts : list string)
    (filename imgDir : string) (evs : list Event) : Prop :=
  match os_MkdirTemp env "" "pdfimg" with
  | Ok tempDir =>
    exists body,
      evs = (EvMkdirTemp "" "pdfimg" :: body ++ [EvRemoveAll tempDir])%list
      /\ Forall (staged env exts filename imgDir tempDir) body
  | Err _ => evs = [EvMkdirTemp "" "pdfimg"]
  end.

(** Where the errors of the strategies come from: a failed call, wrapped
    with the name of the step.  Only the error of [os.WriteFile] in
    [writeImageFile] is passed on as it is. *)
Inductive setup_error (env : Env) (filename : string) : error -> Prop :=
| from_MkdirTemp e :
    os_MkdirTemp env "" "pdfimg" = Err e ->
    setup_error env filename (WrapError "create temp dir: " e)
| from_ExtractImagesFile dir e :
    os_MkdirTemp env "" "pdfimg" = Ok dir ->
    api_ExtractImagesFile env filename dir = Some e ->
    setup_error env filename (WrapError "api.ExtractImagesFile: " e)
| from_ReadDir dir e :
    os_MkdirTemp env "" "pdfimg" = Ok dir ->
    os_ReadDir env dir = Err e ->
    setup_error env filename (WrapError "read temp dir: " e).

Inductive sequential_error (env : Env) (filename : string) : error -> Prop :=
| sequential_setup e :
    setup_error env filename e -> sequential_error env filename e
| from_ReadFile_image path e :
    os_ReadFile env path = Err e ->
    sequential_error env filename (WrapError "read image: " e)
| from_WriteFile_image path data e :
    os_WriteFile env path data = Some e ->
    sequential_error env filename (WrapError "write image: " e).

Inductive concurrent_error (env : Env) (encoder : ImageEncoder)
    (filename : string) : error -> Prop :=
| concurrent_setup e :
    setup_error env filename e -> concurrent_error env encoder filename e
| from_ReadFile_data path e :
    os_ReadFile env path = Err e ->
    concurrent_error env encoder filename (WrapError "read file data: " e)
| from_Decode data e :
    image_Decode env data = Err e ->
    concurrent_error env encoder filename (WrapError "decode image: " e)
| from_Encode img e :
    snd (Encode encoder img) = Some e ->
    concurrent_error env encoder filename (WrapError "encode: " e)
| from_WriteFile path data e :
    os_WriteFile env path data = Some e ->
    concurrent_error env encoder filename e.

(** A listed entry the load-then-dedup strategy cannot load. *)
Definition unusable (env : Env) (tempDir : string) (f : DirEntry) : Prop :=
  match os_ReadFile env (filepath_Join env tempDir (Name f)) with
  | Err _ => True
  | Ok fileData =>
    match image_Decode env fileData with
    | Err _ => True
    | Ok _ => False
    end
  end.

(** [env] with another decoder. *)
Definition with_decode (env : Env) (decode : bytes -> result Image) : Env :=
  {| os_Mkdir := os_Mkdir env;
     os_MkdirTemp := os_MkdirTemp env;
     api_ExtractImagesFile := api_ExtractImagesFile env;
     os_ReadDir := os_ReadDir env;
     os_ReadFile := os_ReadFile env;
     os_WriteFile := os_WriteFile env;
     os_Getenv := os_Getenv env;
     strconv_Atoi := strconv_Atoi env;
     filepath_Join := filepath_Join env;
     sha256_Sum := sha256_Sum env;
     image_Decode := decode;
     draw_Src := draw_Src env;
     png_Encode_NoCompression := png_Encode_NoCompression env;
     webp_Encode_Lossless100 := webp_Encode_Lossless100 env;
     strings_Map_unicode_ToLower := strings_Map_unicode_ToLower env |}.

(** The three files of [demo_env], the last of which cannot be decoded. *)
Definition corrupt_env : Env :=
  with_decode demo_env
    (fun data =>
       match data with
       | [Byte.x03] => Err (ErrorString "image: unknown format")
       | _ => Ok (ImgRGBA (sample_rgba data))
       end).

(** ** Command pixf: [ExtractImagesUnique] and [main] *)

(** [strings.HasSuffix] and [strings.TrimSuffix] *)
Definition HasSuffix (s suffix : string) : bool :=
  (String.length suffix <=? String.length s)%nat
  && String.eqb
       (substring (String.length s - String.length suffix)
          (String.length suffix) s)
       suffix.

Definition TrimSuffix (s suffix : string) : string :=
  if HasSuffix s suffix
  then substring 0 (String.length s - String.length suffix) s
  else s.

(** [*os.File] *)
Record File := { file_name : string; file_fd : Z }.

(** The calls of the command beside those of [Env].  [io_Copy] answers for
    [io.Copy(hash, file)] with the bytes copied into the hash and the error;
    it is given [None] for the nil [*os.File] of a failed [os.Open], whose
    error the source drops.  [api_DecryptFile] stands for the call with the
    default configuration. *)
Record CmdEnv := {
  lib : Env;
  os_Open : string -> result File;
  io_Copy : option File -> bytes * option error;
  os_Remove : string -> option error;
  api_DecryptFile : string -> string -> option error
}.

(** An argument of [fmt.Println]. *)
Inductive Arg :=
| ArgString (s : string)
| ArgError (e : error).

Inductive Action :=
| Lib (ev : Event)
| ActOpen (path : string)
| ActCopy (file : option File)
| ActClose (file : option File)
| ActRemove (path : string)
| ActDecryptFile (inFile outFile : string)
| ActPrintln (args : list Arg).

(** State-and-error monad of the command: the actions so far. *)
Definition Cmd (A : Type) : Type := list Action -> result A * list Action.

#[global] Instance Cmd_ret : MRet Cmd := fun A (a : A) tr => (Ok a, tr).

#[global] Instance Cmd_bind : MBind Cmd := fun A B (k : A -> Cmd B) (m : Cmd A) tr =>
  match m tr with
  | (Ok a, tr') => k a tr'
  | (Err e, tr') => (Err e, tr')
  end.

Definition act (a : Action) : Cmd unit := fun tr => (Ok tt, (tr ++ [a])%list).

Definition raise {A} (e : error) : Cmd A := fun tr => (Err e, tr).

(** A call followed by [if err != nil { return err }]. *)
Definition attempt {A} (a : Action) (r : result A) : Cmd A :=
  act a ;;
  match r with
  | Ok x => mret x
  | Err e => raise e
  end.

(** The loop of [ExtractImagesUnique]; returns [countDuplicates]. *)
Fixpoint unique_loop (env : CmdEnv) (imgDir : string) (files : list DirEntry)
    (imgHashes : gmap string bool) (countDuplicates : nat) : Cmd nat :=
  match files with
  | [] => mret countDuplicates
  | f :: rest =>
    let path := filepath_Join (lib env) imgDir (Name f) in
    act (ActOpen path) ;;
    let file := match os_Open env path with
                | Ok fl => Some fl
                | Err _ => None
                end in
    act (ActCopy file) ;;
    act (ActClose file) ;;
    let (copied, err) := io_Copy env file in
    match err with
    | Some e => raise e
    | None =>
      let fileHash := Sprintf_x (sha256_Sum (lib env) copied) in
      if negb (seen_get imgHashes fileHash) then
        unique_loop env imgDir rest (<[fileHash := true]> imgHashes)
          countDuplicates
      else
        attempt (ActRemove path) (of_error (os_Remove env path)) ;;
        unique_loop env imgDir rest imgHashes (countDuplicates + 1)
    end
  end.

Definition ExtractImagesUnique (env : CmdEnv) (filename imgDir : string)
    : Cmd unit :=
  attempt (Lib (EvMkdir imgDir)) (of_error (os_Mkdir (lib env) imgDir)) ;;
  attempt (Lib (EvExtractImagesFile filename imgDir))
    (of_error (api_ExtractImagesFile (lib env) filename imgDir)) ;;
  files ← attempt (Lib (EvReadDir imgDir)) (os_ReadDir (lib env) imgDir);
  unique_loop env imgDir files ∅ 0 ;;
  mret tt.

(** [main]: [args] is [os.Args]; the result is the exit status, [0] when
    [main] returns, and the actions of the run. *)
Definition main (env : CmdEnv) (args : list string) : Z * list Action :=
  let tr := [ActPrintln [ArgString "Loading PDF"]] in
  match args with
  | _ :: filename :: _ =>
    let filenameUnlocked := "unlocked_" ++ filename in
    let nameOnly := TrimSuffix filename ".pdf" in
    let imgDir := "images_" ++ nameOnly in
    let tr :=
      (tr ++ [ ActPrintln [ArgString "Processing file:"; ArgString filename];
               ActDecryptFile filename filenameUnlocked ])%list in
    match api_DecryptFile env filename filenameUnlocked with
    | Some err =>
      (1%Z, (tr ++ [ActPrintln [ArgString "Error decrypting PDF:"; ArgError err]])%list)
    | None =>
      let tr :=
        (tr ++ [ActPrintln [ArgString "PDF successfully unlocked and saved as";
                            ArgString filenameUnlocked]])%list in
      match ExtractImagesUnique env filenameUnlocked imgDir tr with
      | (Err err, tr) =>
        (1%Z, (tr ++ [ActPrintln [ArgString "Error extracting images:"; ArgError err]])%list)
      | (Ok _, tr) => (0%Z, tr)
      end
    end
  | _ => (1%Z, (tr ++ [ActPrintln [ArgString "No PDF file specified"]])%list)
  end.

(** The duplicates, as [first_occurrences] gives the items kept: an item
    whose key is among the [earlier] keys or occurred before it. *)
Fixpoint later_occurrences {A} (key : A -> string) (earlier : list string)
    (l : list A) : list A :=
  match l with
  | [] => []
  | x :: rest =>
    if bool_decide (key x ∈ earlier) then x :: later_occurrences key earlier rest
    else later_occurrences key (key x :: earlier) rest
  end.

Definition removes (tr : list Action) : list string :=
  omap (fun a => match a with ActRemove p => Some p | _ => None end) tr.

(** What [io.Copy] is given for [path]. *)
Definition opened (env : CmdEnv) (path : string) : option File :=
  match os_Open env path with
  | Ok fl => Some fl
  | Err _ => None
  end.

(** Where an error of [ExtractImagesUnique] comes from; it is passed on as
    it is. *)
Inductive unique_error (env : CmdEnv) (filename imgDir : string)
    : error -> Prop :=
| unique_Mkdir e :
    os_Mkdir (lib env) imgDir = Some e -> unique_error env filename imgDir e
| unique_ExtractImagesFile e :
    api_ExtractImagesFile (lib env) filename imgDir = Some e ->
    unique_error env filename imgDir e
| unique_ReadDir e :
    os_ReadDir (lib env) imgDir = Err e -> unique_error env filename imgDir e
| unique_Copy file e :
    snd (io_Copy env file) = Some e -> unique_error env filename imgDir e
| unique_Remove path e :
    os_Remove env path = Some e -> unique_error env filename imgDir e.

(** A sample environment of the command: [files] are in [dir] after the
    extraction, an open file is copied in full and a nil file is an invalid
    argument. *)
Fixpoint lookup_in (dir : string) (files : list (string * bytes))
    (path : string) : bytes * option error :=
  match files with
  | [] => ([], Some (PathError "read" path ENOENT))
  | (n, data) :: rest =>
    if String.eqb path (sample_join dir n) then (data, None)
    else lookup_in dir rest path
  end.

Definition cmd_env (dir : string) (files : list (string * bytes))
    (mkdir : option error) : CmdEnv :=
  {| lib := sample_env files mkdir "" no_bad;
     os_Open := fun path => Ok {| file_name := path; file_fd := 3 |};
     io_Copy := fun file =>
       match file with
       | Some fl => lookup_in dir files (file_name fl)
       | None => ([], Some (ErrorString "invalid argument"))
       end;
     os_Remove := fun _ => None;
     api_DecryptFile := fun _ _ => None |}.

(** What the loop of [ExtractImagesUnique] may do with the listed [files]
    of [imgDir]: open, copy, close and remove them. *)
Definition on_listed (env : CmdEnv) (imgDir : string) (files : list DirEntry)
    (a : Action) : Prop :=
  match a with
  | ActOpen path | ActRemove path =>
    exists f, f ∈ files /\ path = filepath_Join (lib env) imgDir (Name f)
  | ActCopy file | ActClose file =>
    exists f,
      f ∈ files /\ file = opened env (filepath_Join (lib env) imgDir (Name f))
  | _ => False
  end.

Definition error_messages : list string :=
  ["No PDF file specified"; "Error decrypting PDF:"; "Error extracting images:"].

(** The message a [fmt.Println] action starts with. *)
Definition message (a : Action) : option string :=
  match a with
  | ActPrintln (ArgString msg :: _) => Some msg
  | _ => None
  end.

(** What [ExtractImagesUnique] may do: create, fill and list [imgDir], and
    handle the files listed there. *)
Definition in_output_dir (env : CmdEnv) (filename imgDir : string)
    (a : Action) : Prop :=
  match a with
  | Lib (EvMkdir path) => path = imgDir
  | Lib (EvExtractImagesFile f dir) => f = filename /\ dir = imgDir
  | Lib (EvReadDir dir) => dir = imgDir
  | Lib _ | ActDecryptFile _ _ | ActPrintln _ => False
  | _ =>
    exists files,
      os_ReadDir (lib env) imgDir = Ok files /\ on_listed env imgDir files a
  end.

(** The files handed out by [os.Open] and the files closed, in order. *)
Definition handles_opened (env : CmdEnv) (tr : list Action)
    : list (option File) :=
  omap (fun a => match a with ActOpen path => Some (opened env path) | _ => None end)
    tr.

Definition handles_closed (tr : list Action) : list (option File) :=
  omap (fun a => match a with ActClose file => Some file | _ => None end) tr.

(** * Lemmas *)

(** ** Strings and extensions *)

Lemma lower_ascii_sep c : IsPathSeparator (lower_ascii c) = IsPathSeparator c.
Proof. destruct c as [[] [] [] [] [] [] [] []]; reflexivity. Qed.

Lemma lower_ascii_dot c : Ascii.eqb (lower_ascii c) "."%char = Ascii.eqb c "."%char.
Proof. destruct c as [[] [] [] [] [] [] [] []]; reflexivity. Qed.

Lemma lower_ascii_idemp c : lower_ascii (lower_ascii c) = lower_ascii c.
Proof. destruct c as [[] [] [] [] [] [] [] []]; reflexivity. Qed.

Lemma lower_bytes_length s : String.length (lower_bytes s) = String.length s.
Proof. induction s; simpl; congruence. Qed.

Lemma lower_bytes_get s : forall i, String.get i (lower_bytes s) = lower_ascii <$> String.get i s.
Proof. induction s as [|c s IH]; intros [|i]; simpl; auto. Qed.

Lemma lower_bytes_substring s : forall i n,
  substring i n (lower_bytes s) = lower_bytes (substring i n s).
Proof.
  induction s as [|c s IH]; intros [|i] [|n]; simpl; auto.
  by rewrite IH.
Qed.

Lemma lower_bytes_idemp s : lower_bytes (lower_bytes s) = lower_bytes s.
Proof. induction s; simpl; [done|]. by rewrite lower_ascii_idemp, IHs. Qed.

Lemma Ext_loop_lower_bytes path n :
  Ext_loop (lower_bytes path) n = lower_bytes (Ext_loop path n).
Proof.
  induction n as [|i IH]; simpl; [done|].
  rewrite lower_bytes_get. destruct (String.get i path) as [c|]; simpl; [|done].
  rewrite lower_ascii_sep, lower_ascii_dot, lower_bytes_length, lower_bytes_substring.
  destruct (IsPathSeparator c); [done|]. destruct (Ascii.eqb c "."); done.
Qed.

Lemma Ext_lower_bytes path : Ext (lower_bytes path) = lower_bytes (Ext path).
Proof. unfold Ext. rewrite lower_bytes_length. apply Ext_loop_lower_bytes. Qed.

Lemma ToLower_ascii env s : isASCII s = true -> ToLower env s = lower_bytes s.
Proof. intros H. unfold ToLower. by rewrite H. Qed.

Lemma isASCII_substring s : forall i n, isASCII s = true -> isASCII (substring i n s) = true.
Proof.
  induction s as [|c s IH]; intros [|i] [|n] H; simpl in *; try done.
  - apply andb_prop in H as [Hc H]. by rewrite Hc, IH.
  - apply andb_prop in H as [_ H]. by apply IH.
  - apply andb_prop in H as [_ H]. by apply IH.
Qed.

Lemma isASCII_Ext name : isASCII name = true -> isASCII (Ext name) = true.
Proof.
  intros H. unfold Ext. generalize (String.length name) at 1.
  induction n as [|i IH]; simpl; [done|].
  destruct (String.get i name) as [c|]; [|done].
  destruct (IsPathSeparator c); [done|].
  destruct (Ascii.eqb c "."); [by apply isASCII_substring | exact IH].
Qed.

Lemma in_all_ascii a : In a all_ascii.
Proof.
  rewrite <- (ascii_nat_embedding a). apply in_map, in_seq.
  pose proof (nat_ascii_bounded a). lia.
Qed.

Lemma all_bytes (P : ascii -> ascii -> bool) :
  forallb (fun a => forallb (P a) all_ascii) all_ascii = true ->
  forall a b, P a b = true.
Proof.
  intros H a b. rewrite forallb_forall in H.
  pose proof (H a (in_all_ascii a)) as Ha. rewrite forallb_forall in Ha.
  apply Ha, in_all_ascii.
Qed.

Lemma same_letter_lower a b :
  same_letter a b = Ascii.eqb (lower_ascii a) (lower_ascii b).
Proof.
  apply Bool.eqb_prop.
  apply (all_bytes (fun a b => Bool.eqb (same_letter a b)
                                 (Ascii.eqb (lower_ascii a) (lower_ascii b)))).
  vm_compute. reflexivity.
Qed.

Lemma same_letter_ascii a b :
  same_letter a b = true ->
  (nat_of_ascii a <? 128)%nat = (nat_of_ascii b <? 128)%nat.
Proof.
  intros H.
  pose proof (all_bytes (fun a b =>
    implb (same_letter a b)
      (Bool.eqb (nat_of_ascii a <? 128)%nat (nat_of_ascii b <? 128)%nat))) as Hall.
  cbv beta in Hall. specialize (Hall ltac:(vm_compute; reflexivity) a b).
  rewrite H in Hall. by apply Bool.eqb_prop.
Qed.

Lemma equal_fold_lower s : forall t,
  equal_fold s t = true <-> lower_bytes s = lower_bytes t.
Proof.
  induction s as [|a s IH]; intros [|b t]; simpl; try done.
  rewrite andb_true_iff, same_letter_lower, Ascii.eqb_eq, IH.
  split; [by intros [-> ->] | by intros [= -> ->]].
Qed.

Lemma equal_fold_ascii s : forall t,
  equal_fold s t = true -> isASCII s = isASCII t.
Proof.
  induction s as [|a s IH]; intros [|b t] H; simpl in *; try done.
  apply andb_prop in H as [Hab H]. by rewrite (same_letter_ascii _ _ Hab), (IH _ H).
Qed.

Lemma isImageFile_extensions env name :
  isImageFile env name = true <-> ToLower env (Ext name) ∈ image_extensions.
Proof.
  unfold isImageFile, image_extensions. cbv zeta.
  rewrite !orb_true_iff, !String.eqb_eq, !elem_of_cons, elem_of_nil. tauto.
Qed.

Lemma isImageFile_ascii env name :
  isASCII name = true ->
  isImageFile env name = true <-> Ext (lower_bytes name) ∈ image_extensions.
Proof.
  intros H. rewrite isImageFile_extensions, ToLower_ascii by (by apply isASCII_Ext).
  by rewrite Ext_lower_bytes.
Qed.

Lemma isImageFile_case env name1 name2 :
  isASCII name1 = true -> equal_fold name1 name2 = true ->
  isImageFile env name1 = isImageFile env name2.
Proof.
  intros H1 Heq. assert (H2 : isASCII name2 = true) by (by rewrite <- (equal_fold_ascii _ _ Heq)).
  apply equal_fold_lower in Heq.
  apply eq_true_iff_eq. rewrite !isImageFile_ascii by done. by rewrite Heq.
Qed.

Lemma lower_bytes_extensions x : x ∈ image_extensions -> lower_bytes x = x.
Proof.
  unfold image_extensions. rewrite !elem_of_cons, elem_of_nil.
  intros [->|[->|[->|[->|[->|[->|[->|[]]]]]]]]; reflexivity.
Qed.

Lemma lower_bytes_fold s (exts : list string) :
  (forall x, x ∈ exts -> lower_bytes x = x) ->
  lower_bytes s ∈ exts <-> exists x, x ∈ exts /\ equal_fold s x = true.
Proof.
  intros Hlow. split.
  - intros Hin. exists (lower_bytes s). split; [done|].
    apply equal_fold_lower. by rewrite lower_bytes_idemp.
  - intros (x & Hx & Hf). apply equal_fold_lower in Hf. rewrite Hf, Hlow; done.
Qed.

Lemma isImageFile_fold env name :
  isASCII name = true ->
  isImageFile env name = true
  <-> exists x, x ∈ image_extensions /\ equal_fold (Ext name) x = true.
Proof.
  intros H. rewrite isImageFile_extensions, ToLower_ascii by (by apply isASCII_Ext).
  apply lower_bytes_fold, lower_bytes_extensions.
Qed.


(** ** Deduplication *)

Lemma seen_get_insert seen h h' :
  seen_get (<[h := true]> seen) h' = true <-> h = h' \/ seen_get seen h' = true.
Proof.
  unfold seen_get. destruct (decide (h = h')) as [->|Hne].
  - rewrite lookup_insert_eq. simpl. tauto.
  - rewrite lookup_insert_ne by done. split; [by right|]. by intros [?|?].
Qed.

Lemma seen_get_empty h : seen_get ∅ h = false.
Proof. unfold seen_get. by rewrite lookup_empty. Qed.

Section first_occurrences.
Context {A : Type} (key : A -> string).

Lemma first_occurrences_sublist earlier l :
  sublist (first_occurrences key earlier l) l.
Proof.
  revert earlier. induction l as [|x l IH]; intros earlier; simpl; [constructor|].
  case_bool_decide; [by apply sublist_cons | by apply sublist_skip].
Qed.

Lemma first_occurrences_fresh earlier l x :
  x ∈ first_occurrences key earlier l -> key x ∉ earlier.
Proof.
  revert earlier. induction l as [|y l IH]; intros earlier; simpl; [by inversion 1|].
  case_bool_decide as Hy; [by apply IH|].
  intros [->|Hin]%elem_of_cons; [done|].
  apply IH in Hin. intros Hx. apply Hin. by right.
Qed.

Lemma first_occurrences_NoDup earlier l :
  NoDup (key <$> first_occurrences key earlier l).
Proof.
  revert earlier. induction l as [|x l IH]; intros earlier; simpl; [constructor|].
  case_bool_decide as Hx; [by apply IH|].
  rewrite fmap_cons. constructor; [|by apply IH].
  intros (y & Hk & Hy)%list_elem_of_fmap. apply first_occurrences_fresh in Hy.
  apply Hy. rewrite Hk. by left.
Qed.

Lemma first_occurrences_cover earlier l x :
  x ∈ l -> key x ∈ earlier \/ key x ∈ key <$> first_occurrences key earlier l.
Proof.
  revert earlier. induction l as [|y l IH]; intros earlier; simpl; [by inversion 1|].
  intros [->|Hin]%elem_of_cons.
  - case_bool_decide; [by left|]. right. rewrite fmap_cons. by left.
  - case_bool_decide as Hy.
    + by apply IH.
    + destruct (IH (key y :: earlier) Hin) as [[->|H]%elem_of_cons|H].
      * right. rewrite fmap_cons. by left.
      * by left.
      * right. rewrite fmap_cons. by right.
Qed.

Lemma first_occurrences_first earlier l x :
  x ∈ first_occurrences key earlier l ->
  exists l1 l2, l = (l1 ++ x :: l2)%list /\ key x ∉ key <$> l1.
Proof.
  revert earlier. induction l as [|y l IH]; intros earlier; simpl; [by inversion 1|].
  case_bool_decide as Hy.
  - intros Hin. pose proof (first_occurrences_fresh _ _ _ Hin) as Hf.
    destruct (IH _ Hin) as (l1 & l2 & -> & Hn).
    exists (y :: l1), l2. split; [done|]. rewrite fmap_cons.
    intros [Hk|Hk]%elem_of_cons; [|done]. apply Hf. by rewrite Hk.
  - intros [->|Hin]%elem_of_cons.
    + exists [], l. split; [done|]. by inversion 1.
    + pose proof (first_occurrences_fresh _ _ _ Hin) as Hf.
      destruct (IH _ Hin) as (l1 & l2 & -> & Hn).
      exists (y :: l1), l2. split; [done|]. rewrite fmap_cons.
      intros [Hk|Hk]%elem_of_cons; [|done]. apply Hf. rewrite Hk. by left.
Qed.

(** One kept item per distinct key. *)
Lemma first_occurrences_size l :
  length (first_occurrences key [] l) = size (list_to_set (key <$> l) : gset string).
Proof.
  rewrite <- (length_fmap key).
  rewrite <- (size_list_to_set (C := gset string) (key <$> first_occurrences key [] l))
    by apply first_occurrences_NoDup.
  f_equal. apply set_eq. intros h. rewrite !elem_of_list_to_set. split.
  - intros (x & -> & Hx)%list_elem_of_fmap. apply list_elem_of_fmap. exists x.
    split; [done|]. eapply elem_of_sublist; [exact Hx|]. apply first_occurrences_sublist.
  - intros (x & -> & Hx)%list_elem_of_fmap.
    destruct (first_occurrences_cover [] l x Hx) as [H|H]; [by inversion H|done].
Qed.
End first_occurrences.

Lemma StronglySorted_fmap_S (l : list nat) :
  StronglySorted lt l -> StronglySorted lt (S <$> l).
Proof.
  induction 1 as [|i l Hs IH Hall]; [constructor|].
  rewrite fmap_cons. constructor; [done|].
  apply Forall_fmap. eapply Forall_impl; [exact Hall|]. intros j Hj. simpl. lia.
Qed.

(** The items kept are those at the positions of first occurrence, in
    increasing order of position. *)
Lemma first_occurrences_positions {A} (key : A -> string) (l : list A) :
  forall earlier,
    exists positions,
      StronglySorted lt positions
      /\ Forall2 (fun i x =>
           l !! i = Some x /\ key x ∉ earlier
           /\ forall j y, (j < i)%nat -> l !! j = Some y -> key y <> key x)
           positions (first_occurrences key earlier l)
      /\ (forall i x,
            l !! i = Some x -> key x ∉ earlier ->
            (forall j y, (j < i)%nat -> l !! j = Some y -> key y <> key x) ->
            i ∈ positions).
Proof.
  induction l as [|x0 l IH]; intros earlier.
  { exists []. split_and!; [constructor|constructor|]. by intros i x [=]. }
  cbn [first_occurrences]. case_bool_decide as Hx0.
  - destruct (IH earlier) as (P & Hs & Hf & Hc). exists (S <$> P). split_and!.
    + by apply StronglySorted_fmap_S.
    + apply Forall2_fmap_l. eapply Forall2_impl; [exact Hf|].
      intros i x (Hi & Hx & Hfirst). split_and!; [done|done|].
      intros [|j] y Hj Hy.
      * injection Hy as <-. intros Heq. apply Hx. by rewrite <- Heq.
      * apply (Hfirst j); [lia|done].
    + intros [|i] x Hi Hx Hfirst.
      * injection Hi as <-. done.
      * apply list_elem_of_fmap. exists i. split; [done|].
        apply (Hc i x Hi Hx). intros j y Hj Hy. apply (Hfirst (S j)); [lia|done].
  - destruct (IH (key x0 :: earlier)) as (P & Hs & Hf & Hc). exists (0%nat :: (S <$> P)).
    split_and!.
    + constructor; [by apply StronglySorted_fmap_S|].
      apply Forall_fmap, Forall_forall. intros j _. simpl. lia.
    + constructor.
      * split_and!; [done|done|]. intros j y Hj. lia.
      * apply Forall2_fmap_l. eapply Forall2_impl; [exact Hf|].
        intros i x (Hi & Hx & Hfirst). apply not_elem_of_cons in Hx as [Hne Hx].
        split_and!; [done|done|].
        intros [|j] y Hj Hy.
        -- injection Hy as <-. done.
        -- apply (Hfirst j); [lia|done].
    + intros [|i] x Hi Hx Hfirst; [by left|]. right.
      apply list_elem_of_fmap. exists i. split; [done|].
      apply (Hc i x Hi).
      * apply not_elem_of_cons. split; [|done].
        intros Heq. apply (Hfirst 0%nat x0); [lia|done|done].
      * intros j y Hj Hy. apply (Hfirst (S j)); [lia|done].
Qed.

Lemma first_occurrences_fmap {A B} (g : A -> B) (key : B -> string) (l : list A) :
  forall earlier,
    first_occurrences key earlier (g <$> l)
    = g <$> first_occurrences (fun x => key (g x)) earlier l.
Proof.
  induction l as [|x l IH]; intros earlier; [done|].
  rewrite fmap_cons. cbn [first_occurrences].
  destruct (bool_decide (key (g x) ∈ earlier)); [apply IH|].
  rewrite fmap_cons. f_equal. apply IH.
Qed.

Lemma dedup_loop_eq (l : list LoadedImage) seen dup u earlier :
  (forall h, seen_get seen h = true <-> h ∈ earlier) ->
  let kept := first_occurrences FileHash earlier l in
  exists seen',
    dedup_loop l seen dup u = (seen', dup + (length l - length kept), (u ++ kept)%list)
    /\ (length kept <= length l)%nat.
Proof.
  revert seen dup u earlier. induction l as [|li l IH]; intros seen dup u earlier Hseen; simpl.
  - exists seen. rewrite app_nil_r, Nat.add_0_r. done.
  - destruct (seen_get seen (FileHash li)) eqn:Hg.
    + apply Hseen in Hg. rewrite bool_decide_eq_true_2 by done.
      destruct (IH seen (dup + 1) u earlier Hseen) as (seen' & -> & Hle).
      exists seen'. split; [|lia]. do 2 f_equal. lia.
    + assert (FileHash li ∉ earlier) as Hn.
      { intros Hin. apply Hseen in Hin. congruence. }
      rewrite bool_decide_eq_false_2 by done.
      destruct (IH (<[FileHash li := true]> seen) dup (u ++ [li])%list (FileHash li :: earlier))
        as (seen' & -> & Hle).
      { intros h. rewrite seen_get_insert, elem_of_cons, Hseen. 
        split; (intros [?|?]; [left|right]); done. }
      exists seen'. simpl. split; [|lia]. rewrite <- app_assoc. simpl. do 2 f_equal.
  Qed.

(** ** Sequential code *)

Lemma bind_eq {A B} (m : M A) (k : A -> M B) w :
  (m ≫= k) w = match m w with (Ok a, w') => k a w' | (Err e, w') => (Err e, w') end.
Proof. reflexivity. Qed.

Lemma call_Ok {A} ev (a : A) ctx w : call ev (Ok a) ctx w = (Ok a, log w ev).
Proof. reflexivity. Qed.

Lemma call_Err {A} ev e ctx w :
  call (A := A) ev (Err e) ctx w = (Err (WrapError ctx e), log w ev).
Proof. reflexivity. Qed.

Lemma sequential_loop_ok env tempDir imgDir files :
  forall seen dup uc w dup' w' earlier,
    (forall h, seen_get seen h = true <-> h ∈ earlier) ->
    sequential_loop env tempDir imgDir files seen dup uc w = (Ok dup', w') ->
    exists (items : list (DirEntry * bytes)) evs,
      fst <$> items = recognized_files env files
      /\ Forall (fun it => os_ReadFile env (filepath_Join env tempDir (Name it.1)) = Ok it.2) items
      /\ (let kept := first_occurrences (fun it => hashBytes env it.2) earlier items in
          dup' = (dup + (length items - length kept))%nat
          /\ files_written evs =
               imap (fun k it => (filepath_Join env imgDir
                                    (Sprintf_image (uc + k) (kept_ext env (Name it.1))), it.2)) kept)
      /\ trace w' = (trace w ++ evs)%list /\ bufferPool w' = bufferPool w
      /\ reads evs = (fun it => filepath_Join env tempDir (Name it.1)) <$> items
      /\ failed_writes evs = [] /\ prints evs = [].
Proof.
  induction files as [|f files IH]; intros seen dup uc w dup' w' earlier Hseen Hrun.
  - simpl in Hrun. injection Hrun as <- <-. exists [], []. simpl.
    rewrite app_nil_r, Nat.add_0_r. split_and!; done.
  - simpl in Hrun. unfold recognized_files. rewrite filter_cons.
    destruct (IsDir f) eqn:Hd; simpl in Hrun.
    { rewrite decide_False by (intros [? _]; done). by eapply IH. }
    destruct (isImageFile env (Name f)) eqn:Hi; simpl in Hrun.
    2:{ rewrite decide_False by (intros [_ ?]; done). by eapply IH. }
    rewrite decide_True by done.
    rewrite bind_eq in Hrun.
    destruct (os_ReadFile env (filepath_Join env tempDir (Name f))) as [data|e] eqn:Hr;
      [rewrite call_Ok in Hrun | rewrite call_Err in Hrun; discriminate].
    destruct (seen_get seen (hashBytes env data)) eqn:Hg.
    + apply Hseen in Hg.
      destruct (IH _ _ _ _ _ _ _ Hseen Hrun)
        as (items & evs & Hit & Hrd & [-> Hw] & Htr & Hbp & Hreads & Hfw & Hpr).
      exists ((f, data) :: items), (EvReadFile (filepath_Join env tempDir (Name f)) :: evs).
      simpl. rewrite bool_decide_eq_true_2 by done.
      pose proof (sublist_length _ _
        (first_occurrences_sublist (fun it : DirEntry * bytes => hashBytes env it.2) earlier items)) as Hle.
      split_and!;
        [ by f_equal | by constructor | lia | done
        | rewrite Htr; simpl; by rewrite <- app_assoc
        | done | by f_equal | done | done ].
    + assert (hashBytes env data ∉ earlier) as Hn.
      { intros Hin. apply Hseen in Hin. congruence. }
      rewrite bind_eq in Hrun.
      destruct (os_WriteFile env _ data) as [e|] eqn:Hwf; cbn [of_error] in Hrun;
        [rewrite call_Err in Hrun; discriminate | rewrite call_Ok in Hrun].
      assert (Hseen' : forall h, seen_get (<[hashBytes env data := true]> seen) h = true
                                 <-> h ∈ hashBytes env data :: earlier).
      { intros h. rewrite seen_get_insert, elem_of_cons, Hseen.
        split; (intros [?|?]; [left|right]); done. }
      destruct (IH _ _ _ _ _ _ _ Hseen' Hrun)
        as (items & evs & Hit & Hrd & [-> Hw] & Htr & Hbp & Hreads & Hfw & Hpr).
      exists ((f, data) :: items),
        (EvReadFile (filepath_Join env tempDir (Name f))
         :: EvWriteFile (filepath_Join env imgDir (Sprintf_image uc (kept_ext env (Name f)))) data None
         :: evs).
      simpl. rewrite bool_decide_eq_false_2 by done.
      split_and!;
        [ by f_equal | by constructor | simpl; lia | 
        | rewrite Htr; simpl; by rewrite <- !app_assoc
        | done | by f_equal | done | done ].
      simpl. rewrite Nat.add_0_r. f_equal. rewrite Hw. apply imap_ext.
      intros k it _. simpl. do 3 f_equal. lia.
Qed.

Lemma load_loop_ok env tempDir files :
  forall acc w loaded w',
    load_loop env tempDir files acc w = (Ok loaded, w') ->
    exists items : list (DirEntry * bytes * Image),
      (fun it => it.1.1) <$> items = recognized env files
      /\ Forall (fun it =>
           os_ReadFile env (filepath_Join env tempDir (Name it.1.1)) = Ok it.1.2
           /\ image_Decode env it.1.2 = Ok it.2) items
      /\ loaded = (acc ++ (loaded_of env <$> items))%list
      /\ trace w' = (trace w ++ ((fun it => EvReadFile (filepath_Join env tempDir (Name it.1.1))) <$> items))%list
      /\ bufferPool w' = bufferPool w.
Proof.
  induction files as [|f files IH]; intros acc w loaded w' Hrun.
  - simpl in Hrun. injection Hrun as <- <-. exists []. simpl.
    rewrite !app_nil_r. done.
  - simpl in Hrun. unfold recognized. rewrite filter_cons.
    destruct (isImageFile env (Name f)) eqn:Hi; simpl in Hrun.
    2:{ rewrite decide_False by done. by eapply IH. }
    rewrite decide_True by done.
    rewrite bind_eq in Hrun.
    destruct (os_ReadFile env (filepath_Join env tempDir (Name f))) as [data|e] eqn:Hr;
      [rewrite call_Ok in Hrun | rewrite call_Err in Hrun; discriminate].
    rewrite bind_eq in Hrun. unfold lift in Hrun.
    destruct (image_Decode env data) as [img|e] eqn:Hdec; [|discriminate].
    destruct (IH _ _ _ _ Hrun) as (items & Hit & Hall & -> & Htr & Hbp).
    exists ((f, data, img) :: items). simpl.
    split_and!;
      [ by f_equal | by constructor | by rewrite <- app_assoc
      | rewrite Htr; simpl; by rewrite <- app_assoc | done ].
Qed.

(** Entries that are not recognized leave no mark on either loop. *)
Lemma load_loop_skip env tempDir files :
  forall acc w,
    load_loop env tempDir files acc w = load_loop env tempDir (recognized env files) acc w.
Proof.
  induction files as [|f files IH]; intros acc w; [done|].
  unfold recognized. rewrite filter_cons.
  destruct (decide (isImageFile env (Name f) = true)) as [Hi|Hi].
  - cbn [load_loop]. rewrite Hi. cbn [negb]. rewrite !bind_eq.
    destruct (call _ _ _ w) as [[data|e] w1]; [|done].
    rewrite !bind_eq. destruct (lift _ w1) as [[img|e] w2]; [|done].
    apply IH.
  - cbn [load_loop]. apply not_true_is_false in Hi. rewrite Hi. cbn [negb]. apply IH.
Qed.

Lemma sequential_loop_skip env tempDir imgDir files :
  forall seen dup uc w,
    sequential_loop env tempDir imgDir files seen dup uc w
    = sequential_loop env tempDir imgDir (recognized_files env files) seen dup uc w.
Proof.
  induction files as [|f files IH]; intros seen dup uc w; [done|].
  unfold recognized_files. rewrite filter_cons.
  destruct (decide (IsDir f = false /\ isImageFile env (Name f) = true)) as [[Hd Hi]|Hn].
  - cbn [sequential_loop]. rewrite Hd, Hi. cbn [negb orb]. rewrite !bind_eq.
    destruct (call _ _ _ w) as [[data|e] w1]; [|done].
    destruct (seen_get seen (hashBytes env data)); [apply IH|].
    rewrite !bind_eq. destruct (call _ _ _ w1) as [[[]|e] w2]; [|done].
    apply IH.
  - cbn [sequential_loop].
    assert (IsDir f || negb (isImageFile env (Name f)) = true) as ->; [|apply IH].
    destruct (IsDir f), (isImageFile env (Name f)); try done. destruct Hn. done.
Qed.

(** ** Worker pool *)

Lemma writeImageFile_eq env pick img enc dir idx w :
  writeImageFile env pick img enc dir idx w =
  let buf := (picked pick (bufferPool w) ++ fst (Encode enc img))%list in
  let pool' := pool_after pick (bufferPool w) in
  match snd (Encode enc img) with
  | Some e => (Err (WrapError "encode: " e), {| trace := trace w; bufferPool := pool' |})
  | None =>
    let r := os_WriteFile env (out_path env dir enc idx) buf in
    (of_error r, {| trace := trace w ++ [EvWriteFile (out_path env dir enc idx) buf r];
                    bufferPool := pool' |})
  end.
Proof.
  unfold writeImageFile, picked, pool_after, out_path. rewrite bind_eq. unfold getBuffer.
  destruct (bufferPool w !! pick) eqn:Hp; destruct (Encode enc img) as [written [e|]]; simpl;
    unfold defer, putBuffer, fail, lift, emit, log; simpl; try reflexivity.
  all: rewrite bind_eq; simpl; reflexivity.
Qed.

Lemma pool_clean_picked pick w : pool_clean w -> picked pick (bufferPool w) = [].
Proof.
  unfold pool_clean, picked. intros H. destruct (bufferPool w !! pick) eqn:E; [|done].
  simpl. eapply Forall_lookup_1 in H; eauto.
Qed.

Lemma pool_clean_after pick w tr :
  pool_clean w -> pool_clean {| trace := tr; bufferPool := pool_after pick (bufferPool w) |}.
Proof.
  unfold pool_clean, pool_after. simpl. intros H. apply Forall_app. split; [|by repeat constructor].
  destruct (bufferPool w !! pick); [|done]. by apply Forall_delete.
Qed.

Lemma sum_rank_insert (l : list wstate) i x y :
  l !! i = Some x ->
  (sum_list (rank <$> <[i := y]> l) + rank x = sum_list (rank <$> l) + rank y)%nat.
Proof.
  revert i. induction l as [|a l IH]; intros [|i] H; simpl in *.
  - discriminate.
  - discriminate.
  - inversion H; subst. lia.
  - specialize (IH _ H). unfold fmap in *. lia.
Qed.

Ltac worker_cases H :=
  unfold worker_step in H;
  match type of H with
  | context [workers ?s !! ?i] =>
    destruct (workers s !! i) as [[ | ?task | ?task | ?err | ?r | ]|] eqn:Hw;
    [ destruct (taskChan s) as [|?task ?rest] eqn:Hq; [destruct (closed s) eqn:Hc|]
    | destruct (failed s) eqn:Hf
    | match type of H with
      | context [writeImageFile ?a ?b ?c ?d ?e ?f ?g] =>
        destruct (writeImageFile a b c d e f g) as [[[]|?err] ?w'] eqn:Hwr
      end
    | | | | ];
    simplify_eq
  end.

Lemma main_step_measure s s' : main_step s = Some s' -> (measure s' < measure s)%nat.
Proof.
  unfold main_step. intros H. destruct (pending s) as [|task rest] eqn:Hp.
  - destruct (closed s) eqn:Hc; [done|]. injection H as <-.
    unfold measure. simpl. rewrite Hp, Hc. simpl. lia.
  - injection H as <-. unfold measure. simpl. rewrite Hp, length_app. simpl. lia.
Qed.

Lemma worker_step_measure env enc dir pick i s s' :
  worker_step env enc dir pick i s = Some s' -> (measure s' < measure s)%nat.
Proof.
  intros H. worker_cases H; unfold measure; simpl;
    try rewrite Hq; try rewrite Hc; simpl;
    match goal with
    | |- context [<[i := ?y]> _] => pose proof (sum_rank_insert _ _ _ y Hw) as Hs; simpl in Hs; lia
    end.
Qed.

Lemma step_thread_measure env enc dir c s s' :
  step_thread env enc dir c s = Some s' -> (measure s' < measure s)%nat.
Proof.
  destruct c as [[|i] pick]; unfold step_thread; simpl; intros H;
    [eapply main_step_measure | eapply worker_step_measure]; eauto.
Qed.

Lemma try_workers_some env enc dir ids s s' :
  try_workers env enc dir ids s = Some s' ->
  exists i, worker_step env enc dir 0 i s = Some s'.
Proof.
  induction ids as [|i ids IH]; simpl; [done|].
  destruct (worker_step env enc dir 0 i s) eqn:E; [|exact IH].
  intros [= <-]. eauto.
Qed.

Lemma try_workers_none env enc dir ids s :
  try_workers env enc dir ids s = None ->
  forall i, i ∈ ids -> worker_step env enc dir 0 i s = None.
Proof.
  induction ids as [|j ids IH]; simpl; intros H i Hi; [by inversion Hi|].
  destruct (worker_step env enc dir 0 j s) eqn:E; [done|].
  apply elem_of_cons in Hi as [->|Hi]; auto.
Qed.

Lemma next_step_some env enc dir s s' :
  next_step env enc dir s = Some s' -> pool_step env enc dir s s'.
Proof.
  unfold next_step, pool_step. destruct (main_step s) eqn:E.
  - intros [= <-]. by exists (Main, 0).
  - intros H. apply try_workers_some in H as [i H]. by exists (Worker i, 0).
Qed.

Lemma next_step_none env enc dir s :
  next_step env enc dir s = None -> terminal s.
Proof.
  unfold next_step. destruct (main_step s) eqn:E; [done|]. intros H.
  unfold main_step in E. destruct (pending s) eqn:Hp; [|done].
  destruct (closed s) eqn:Hc; [|done].
  split_and!; [done..|].
  apply Forall_lookup. intros i ws Hi.
  pose proof (try_workers_none _ _ _ _ _ H i) as Hn.
  assert (Hin : i ∈ seq 0 (length (workers s))).
  { apply elem_of_seq. apply lookup_lt_Some in Hi. lia. }
  specialize (Hn Hin). unfold worker_step in Hn. rewrite Hi, Hc in Hn.
  destruct ws; try done.
  - destruct (taskChan s); done.
  - destruct (failed s); done.
  - destruct (writeImageFile _ _ _ _ _ _ _) as [[] ?]; done.
Qed.

Lemma finish_fuel_terminal env enc dir fuel s :
  (measure s <= fuel)%nat -> terminal (finish_fuel env enc dir fuel s).
Proof.
  revert s. induction fuel as [|fuel IH]; intros s Hm; simpl.
  - destruct (next_step env enc dir s) eqn:E.
    + apply next_step_some in E as [c E]. apply step_thread_measure in E. lia.
    + by eapply next_step_none.
  - destruct (next_step env enc dir s) eqn:E.
    + apply IH. apply next_step_some in E as [c E]. apply step_thread_measure in E. lia.
    + by eapply next_step_none.
Qed.

Lemma finish_terminal env enc dir s : terminal (finish env enc dir s).
Proof. apply finish_fuel_terminal. done. Qed.

Lemma run_reachable env enc dir sched s :
  rtc (pool_step env enc dir) s (run env enc dir sched s).
Proof.
  revert s. induction sched as [|c sched IH]; intros s; simpl; [done|].
  destruct (step_thread env enc dir c s) eqn:E; [|done].
  eapply rtc_l; [by exists c | done].
Qed.

Lemma finish_fuel_reachable env enc dir fuel s :
  rtc (pool_step env enc dir) s (finish_fuel env enc dir fuel s).
Proof.
  revert s. induction fuel as [|fuel IH]; intros s; simpl; [done|].
  destruct (next_step env enc dir s) eqn:E; [|done].
  eapply rtc_l; [by apply next_step_some | done].
Qed.

Lemma final_reachable env enc dir sched s :
  rtc (pool_step env enc dir) s (finish env enc dir (run env enc dir sched s)).
Proof.
  etrans; [apply run_reachable | apply finish_fuel_reachable].
Qed.

(** Invariants are proved once, over all reachable states. *)
Lemma reachable_invariant env enc dir (P : Pool -> Prop) s s' :
  rtc (pool_step env enc dir) s s' ->
  P s ->
  (forall a b c, P a -> step_thread env enc dir c a = Some b -> P b) ->
  P s'.
Proof.
  intros Hr H0 Hstep. induction Hr as [|a b c [ch Hab] _ IH]; [done|].
  apply IH. eauto.
Qed.

Lemma holding_insert (l : list wstate) i x y :
  l !! i = Some x ->
  (held x ++ (<[i := y]> l ≫= held) ≡ₚ held y ++ (l ≫= held))%list.
Proof.
  revert i. induction l as [|a l IH]; intros [|i] H; simpl in *; try discriminate.
  - inversion H; subst. rewrite !app_assoc. f_equiv. apply Permutation_app_comm.
  - specialize (IH _ H). unfold mbind in IH.
    rewrite !app_assoc.
    rewrite (Permutation_app_comm (held x) (held a)).
    rewrite (Permutation_app_comm (held y) (held a)).
    rewrite <- !app_assoc. by f_equiv.
Qed.

Lemma elem_of_insert_other (l : list wstate) i y z :
  z ∈ <[i := y]> l -> z = y \/ z ∈ l.
Proof.
  intros H. apply list_elem_of_lookup in H as [j Hj].
  destruct (decide (i = j)) as [->|Hne].
  - destruct (decide (j < length l)%nat).
    + rewrite list_lookup_insert_eq in Hj by done. left. congruence.
    + rewrite list_insert_ge in Hj by lia. right. eapply list_elem_of_lookup_2; eauto.
  - rewrite list_lookup_insert_ne in Hj by done. right. eapply list_elem_of_lookup_2; eauto.
Qed.

Lemma good_init env enc dir tasks w0 n :
  pool_clean w0 -> good env enc dir tasks w0 n (init_pool tasks n w0).
Proof.
  intros Hc. constructor; simpl; try done.
  - apply Forall_replicate. done.
  - apply length_replicate.
  - intros Hd. apply elem_of_replicate in Hd as [Hd _]. discriminate.
  - exists []. simpl. rewrite !app_nil_r. split; [done|].
    unfold holding. simpl.
    assert (replicate n WRecv ≫= held = []) as ->; [|by rewrite app_nil_r].
    induction n; simpl; [done|]. done.
Qed.

Lemma good_step env enc dir tasks w0 n a b c :
  Forall (task_ok env enc dir) tasks ->
  good env enc dir tasks w0 n a ->
  step_thread env enc dir c a = Some b ->
  good env enc dir tasks w0 n b.
Proof.
  intros Hok [Gf Gcalm Gres Gclean Glen Gcl Gdone (done & Htr & Hperm)] Hstep.
  destruct c as [[|i] pick]; unfold step_thread in Hstep; simpl in Hstep.
  - (* main *)
    unfold main_step in Hstep. destruct (pending a) as [|task rest] eqn:Hp.
    + destruct (closed a) eqn:Hc; [done|]. injection Hstep as <-.
      constructor; simpl; [done..| |].
      * intros Hd. destruct (Gdone Hd). congruence.
      * exists done. done.
    + injection Hstep as <-.
      assert (closed a = false) as Hc.
      { destruct (closed a); [|done]. by specialize (Gcl eq_refl). }
      constructor; simpl; [done..| | |].
      * intros Hd. congruence.
      * intros Hd. destruct (Gdone Hd). congruence.
      * exists done. split; [done|]. rewrite Hperm. unfold holding. simpl.
        solve_Permutation.
  - (* worker i *)
    worker_cases Hstep.
    + (* receive on the closed, drained channel *)
      pose proof (holding_insert _ _ _ WDone Hw) as Hh. simpl in Hh.
      constructor; simpl;
        [done | by apply Forall_insert | done | done | by rewrite length_insert
        | by rewrite Hc | by rewrite Hc, Hq | ].
      exists done. split; [done|]. unfold holding in *. simpl. by rewrite Hh, Hq.
    + (* receive a task *)
      pose proof (holding_insert _ _ _ (WLoad task) Hw) as Hh. simpl in Hh.
      constructor; simpl;
        [done | by apply Forall_insert | done | done | by rewrite length_insert
        | done | | ].
      * intros Hd. apply elem_of_insert_other in Hd as [Hd|Hd]; [done|].
        destruct (Gdone Hd) as [_ Hq']. congruence.
      * exists done. split; [done|]. unfold holding in *. simpl. rewrite Hh, Hperm.
        solve_Permutation.
    + (* flag observed clear *)
      pose proof (holding_insert _ _ _ (WWrite task) Hw) as Hh. simpl in Hh.
      apply Permutation_cons_inv in Hh.
      constructor; simpl;
        [done | by apply Forall_insert | done | done | by rewrite length_insert
        | done | | ].
      * intros Hd. apply elem_of_insert_other in Hd as [Hd|Hd]; [done|]. auto.
      * exists done. split; [done|]. unfold holding in *. simpl. by rewrite Hh.
    + (* writeImageFile returned nil *)
      pose proof (holding_insert _ _ _ (WSend None) Hw) as Hh. simpl in Hh.
      assert (Htask : task ∈ tasks).
      { rewrite Hperm. rewrite !elem_of_app. right. right. left.
        unfold holding. apply list_elem_of_bind. exists (WWrite task).
        split; [simpl; by left|]. eapply list_elem_of_lookup_2; eauto. }
      eapply Forall_forall in Hok as [Hok1 Hok2]; [|exact Htask].
      rewrite writeImageFile_eq in Hwr. simpl in Hwr. rewrite Hok1 in Hwr.
      rewrite (pool_clean_picked _ _ Gclean) in Hwr. simpl in Hwr. rewrite Hok2 in Hwr.
      injection Hwr as <-.
      constructor; simpl;
        [done | by apply Forall_insert | done | by apply pool_clean_after
        | by rewrite length_insert | done | | ].
      * intros Hd. apply elem_of_insert_other in Hd as [Hd|Hd]; [done|]. auto.
      * exists (done ++ [task])%list. split.
        -- rewrite Htr, fmap_app, <- app_assoc. done.
        -- unfold holding in *. simpl. rewrite Hperm, <- Hh.
           solve_Permutation.
    + (* writeImageFile returned an error: excluded *)
      assert (Htask : task ∈ tasks).
      { rewrite Hperm. rewrite !elem_of_app. right. right. left.
        unfold holding. apply list_elem_of_bind. exists (WWrite task).
        split; [simpl; by left|]. eapply list_elem_of_lookup_2; eauto. }
      eapply Forall_forall in Hok as [Hok1 Hok2]; [|exact Htask].
      rewrite writeImageFile_eq in Hwr. simpl in Hwr. rewrite Hok1 in Hwr.
      rewrite (pool_clean_picked _ _ Gclean) in Hwr. simpl in Hwr. rewrite Hok2 in Hwr.
      discriminate.
    + (* store: excluded *)
      eapply Forall_lookup_1 in Gcalm; eauto. done.
    + (* send *)
      pose proof (holding_insert _ _ _ WRecv Hw) as Hh. simpl in Hh.
      assert (r = None) as ->.
      { eapply Forall_lookup_1 in Gcalm; eauto. destruct r; done. }
      constructor; simpl;
        [done | by apply Forall_insert
        | apply Forall_app; split; [done | by repeat constructor]
        | done | by rewrite length_insert | done | | ].
      * intros Hd. apply elem_of_insert_other in Hd as [Hd|Hd]; [done|]. auto.
      * exists done. split; [done|]. unfold holding in *. simpl. by rewrite Hh.
Qed.

Lemma getWorkerCount_pos env : (1 <= getWorkerCount env)%nat.
Proof.
  unfold getWorkerCount. destruct (negb _); [|lia].
  destruct (strconv_Atoi env _) as [n|]; [|lia].
  destruct (n >? 0)%Z eqn:E; lia.
Qed.

Lemma collect_no_error results :
  Forall (fun r => r = None) results -> collect None results = None.
Proof. induction 1 as [|r rs -> _ IH]; simpl; done. Qed.

Lemma collect_Some e results : collect (Some e) results = Some e.
Proof. induction results as [|[r|] rs IH]; simpl; done. Qed.

(** The value returned is the first error in arrival order. *)
Lemma collect_first_error results :
  collect None results = head (omap id results).
Proof.
  induction results as [|[e|] rs IH]; simpl; [done| |done].
  apply collect_Some.
Qed.

Lemma holding_done (l : list wstate) :
  Forall (fun ws => ws = WDone) l -> l ≫= held = [].
Proof. induction 1 as [|ws l -> _ IH]; simpl; done. Qed.

Lemma pool_success env enc dir sched tasks w0 n :
  (1 <= n)%nat -> pool_clean w0 -> Forall (task_ok env enc dir) tasks ->
  let s := finish env enc dir (run env enc dir sched (init_pool tasks n w0)) in
  collect None (resultChan s) = None
  /\ pool_clean (world s)
  /\ exists done,
       trace (world s) = (trace w0 ++ (write_event env enc dir <$> done))%list
       /\ done ≡ₚ tasks.
Proof.
  intros Hn Hclean Hok s.
  assert (Hgood : good env enc dir tasks w0 n s).
  { eapply reachable_invariant; [apply final_reachable | by apply good_init |].
    intros a b c Ha Hab. by eapply good_step. }
  destruct (finish_terminal env enc dir (run env enc dir sched (init_pool tasks n w0)))
    as (Hp & Hc & Hall). fold s in Hp, Hc, Hall.
  destruct Hgood as [Gf Gcalm Gres Gclean Glen Gcl Gdone (done & Htr & Hperm)].
  split_and!; [by apply collect_no_error | done |].
  exists done. split; [done|].
  assert (Hd : WDone ∈ workers s).
  { destruct (workers s) as [|ws l] eqn:E; [simpl in Glen; lia|].
    inversion Hall; subst. by left. }
  destruct (Gdone Hd) as [_ Hq].
  unfold holding in Hperm. rewrite Hp, Hq, (holding_done _ Hall) in Hperm. by simpl in Hperm.
Qed.

Lemma holding_insert_elem (l : list wstate) i x y task :
  l !! i = Some x ->
  task ∈ <[i := y]> l ≫= held -> task ∈ held y \/ task ∈ l ≫= held.
Proof.
  intros Hl Hin. pose proof (holding_insert l i x y Hl) as Hp.
  assert (task ∈ (held x ++ (<[i := y]> l ≫= held))%list) as H.
  { apply elem_of_app. by right. }
  rewrite Hp in H. by apply elem_of_app in H.
Qed.

Lemma sound_init env enc dir tasks w0 n :
  pool_clean w0 -> sound env enc dir tasks w0 (init_pool tasks n w0).
Proof.
  intros Hc. constructor; simpl; [done | | |].
  - intros task. unfold holding. simpl.
    assert (replicate n WRecv ≫= held = []) as ->.
    { induction n; simpl; done. }
    rewrite app_nil_r. done.
  - exists []. by rewrite app_nil_r.
  - intros [[e He]|[e He]].
    + inversion He.
    + apply elem_of_replicate in He as [He _]. discriminate.
Qed.

Lemma held_lookup (l : list wstate) i ws task :
  l !! i = Some ws -> task ∈ held ws -> task ∈ l ≫= held.
Proof.
  intros Hl Ht. apply list_elem_of_bind. exists ws. split; [done|].
  by eapply list_elem_of_lookup_2.
Qed.

(** Membership of a task after a step, traced back to where it was before. *)
Ltac trace_task Hw :=
  unfold holding in *; simpl in *;
  rewrite ?elem_of_app, ?elem_of_cons in *;
  repeat match goal with
  | H : _ \/ _ |- _ => destruct H
  | H : _ ∈ <[_ := _]> _ ≫= held |- _ =>
    eapply holding_insert_elem in H; [|exact Hw]; simpl in H
  | H : _ ∈ [] |- _ => by inversion H
  | H : _ ∈ [_] |- _ => apply list_elem_of_singleton in H; subst
  | H : _ ∈ _ ++ _ |- _ => apply elem_of_app in H
  | H : _ ∈ _ :: _ |- _ => apply elem_of_cons in H
  end;
  rewrite ?elem_of_app, ?elem_of_cons;
  first [ by auto 6
        | right; right; eapply held_lookup; [exact Hw | by left] ].

Ltac trace_flag Gflag :=
  let e := fresh "e" in
  let He := fresh "He" in
  intros [He|[e He]];
  [ try done; apply Gflag; by left
  | apply elem_of_insert_other in He as [He|He]; [done|];
    first [ apply Gflag; right; by exists e
          | exfalso; assert (false = true); [apply Gflag; right; by exists e | done] ] ].

Lemma sound_step env enc dir tasks w0 a b c :
  sound env enc dir tasks w0 a ->
  step_thread env enc dir c a = Some b ->
  sound env enc dir tasks w0 b.
Proof.
  intros G Hstep.
  destruct c as [[|i] pick]; unfold step_thread in Hstep; simpl in Hstep.
  - unfold main_step in Hstep. destruct (pending a) as [|task rest] eqn:Hp.
    + destruct (closed a) eqn:Hc; [done|]. injection Hstep as <-.
      destruct G as [Gclean Gtasks (evs & Htr & Hevs) Gflag].
      constructor; simpl; [done | | by exists evs | done].
      intros t Ht. apply Gtasks. by rewrite Hp.
    + injection Hstep as <-.
      destruct G as [Gclean Gtasks (evs & Htr & Hevs) Gflag].
      constructor; simpl; [done | | by exists evs | done].
      intros t Ht. apply Gtasks. rewrite Hp. clear Gtasks. 
      unfold holding in *. simpl in *.
      rewrite !elem_of_app in Ht. rewrite elem_of_cons, !elem_of_app.
      rewrite list_elem_of_singleton in Ht. clear -Ht. intuition auto.
  - worker_cases Hstep;
      destruct G as [Gclean Gtasks (evs & Htr & Hevs) Gflag]; unfold reported in *.
    + (* receive on the closed, drained channel *)
      constructor; simpl; [done | | by exists evs | by trace_flag Gflag].
      intros t Ht. apply Gtasks. clear Gtasks. trace_task Hw.
    + (* receive a task *)
      constructor; simpl; [done | | by exists evs | by trace_flag Gflag].
      intros t Ht. apply Gtasks. clear Gtasks. rewrite Hq. trace_task Hw.
    + (* flag observed set *)
      constructor; simpl; [done | | by exists evs | by trace_flag Gflag].
      intros t Ht. apply Gtasks. clear Gtasks. trace_task Hw.
    + (* flag observed clear *)
      constructor; simpl; [done | | by exists evs | by trace_flag Gflag].
      intros t Ht. apply Gtasks. clear Gtasks. trace_task Hw.
    + (* writeImageFile returned nil *)
      rewrite writeImageFile_eq in Hwr. simpl in Hwr.
      rewrite (pool_clean_picked _ _ Gclean) in Hwr. simpl in Hwr.
      assert (Htask : task ∈ tasks).
      { apply Gtasks. rewrite !elem_of_app. right. right.
        eapply held_lookup; [exact Hw | by left]. }
      constructor; simpl.
      * destruct (snd (Encode enc (TaskImg task))); injection Hwr as _ <-;
          by apply pool_clean_after.
      * intros t Ht. apply Gtasks. clear Gtasks. trace_task Hw.
      * destruct (snd (Encode enc (TaskImg task))); injection Hwr as _ <-; simpl.
        -- by exists evs.
        -- eexists (evs ++ [_])%list. rewrite Htr, <- app_assoc. split; [done|].
           apply Forall_app. split; [done|]. constructor; [|done]. by exists task.
      * by trace_flag Gflag.
    + (* writeImageFile returned an error *)
      rewrite writeImageFile_eq in Hwr. simpl in Hwr.
      rewrite (pool_clean_picked _ _ Gclean) in Hwr. simpl in Hwr.
      assert (Htask : task ∈ tasks).
      { apply Gtasks. rewrite !elem_of_app. right. right.
        eapply held_lookup; [exact Hw | by left]. }
      constructor; simpl.
      * destruct (snd (Encode enc (TaskImg task))); injection Hwr as _ <-;
          by apply pool_clean_after.
      * intros t Ht. apply Gtasks. clear Gtasks. trace_task Hw.
      * destruct (snd (Encode enc (TaskImg task))); injection Hwr as _ <-; simpl.
        -- by exists evs.
        -- eexists (evs ++ [_])%list. rewrite Htr, <- app_assoc. split; [done|].
           apply Forall_app. split; [done|]. constructor; [|done]. by exists task.
      * by trace_flag Gflag.
    + (* store *)
      constructor; simpl; [done | | by exists evs | done].
      intros t Ht. apply Gtasks. clear Gtasks. trace_task Hw.
    + (* send *)
      constructor; simpl; [done | | by exists evs | ].
      * intros t Ht. apply Gtasks. clear Gtasks. trace_task Hw.
      * intros [[e He]|[e He]]; apply Gflag.
        -- apply elem_of_app in He as [He|He]; [left; eauto|].
           apply list_elem_of_singleton in He. subst. right. exists e.
           eapply list_elem_of_lookup_2; eauto.
        -- apply elem_of_insert_other in He as [He|He]; [done|]. right. eauto.
Qed.

(** ** Runs of the pool and of the strategies *)

Lemma sum_busy_insert (l : list wstate) i x y :
  l !! i = Some x ->
  (sum_list (busy <$> <[i := y]> l) + busy x = sum_list (busy <$> l) + busy y)%nat.
Proof.
  revert i. induction l as [|a l IH]; intros [|i] H; simpl in *.
  - discriminate.
  - discriminate.
  - inversion H; subst. lia.
  - specialize (IH _ H). unfold fmap in *. lia.
Qed.

Lemma sum_busy_lookup (l : list wstate) i x :
  l !! i = Some x -> (busy x <= sum_list (busy <$> l))%nat.
Proof.
  revert i. induction l as [|a l IH]; intros [|i] H; simpl in *; try discriminate.
  - inversion H; subst. lia.
  - specialize (IH _ H). unfold fmap in *. lia.
Qed.

Lemma accounted_step env enc dir c s s' :
  step_thread env enc dir c s = Some s' -> (accounted s' <= accounted s)%nat.
Proof.
  intros Hstep. destruct c as [[|i] pick]; unfold step_thread in Hstep; simpl in Hstep.
  - unfold main_step in Hstep. destruct (pending s) as [|task rest] eqn:Hp.
    + destruct (closed s); [done|]. injection Hstep as <-.
      unfold accounted. simpl. rewrite Hp. done.
    + injection Hstep as <-. unfold accounted. simpl. rewrite Hp, length_app. simpl. lia.
  - worker_cases Hstep; unfold accounted; simpl; try rewrite Hq; simpl;
      try rewrite length_app; simpl;
      match goal with
      | |- context [<[i := ?y]> _] =>
        pose proof (sum_busy_insert _ _ _ y Hw) as Hs; simpl in Hs; lia
      end.
Qed.

Lemma accounted_init tasks n w : accounted (init_pool tasks n w) = length tasks.
Proof.
  unfold accounted. simpl.
  assert (sum_list (busy <$> replicate n WRecv) = 0%nat) as ->; [|lia].
  induction n; simpl; done.
Qed.

(** The channels are made with room for [len(tasks)] values, and that is
    enough: the queue never holds more, and whenever a worker is about to
    send a result the result channel holds fewer.  No send ever blocks. *)
Lemma channels_have_room env enc dir sched tasks n w :
  let s := run env enc dir sched (init_pool tasks n w) in
  (length (taskChan s) <= length tasks)%nat
  /\ forall i r, workers s !! i = Some (WSend r) ->
       (length (resultChan s) < length tasks)%nat.
Proof.
  intros s.
  assert (Hacc : (accounted s <= length tasks)%nat).
  { subst s. rewrite <- (accounted_init tasks n w).
    generalize (init_pool tasks n w). induction sched as [|c sched IH]; intros s0; simpl; [done|].
    destruct (step_thread env enc dir c s0) eqn:E; [|apply IH].
    etrans; [apply IH|]. by eapply accounted_step. }
  unfold accounted in Hacc. split; [lia|].
  intros i r Hw. pose proof (sum_busy_lookup _ _ _ Hw) as Hb. simpl in Hb. lia.
Qed.

(** Schedules cover every interleaving: a state reached by any sequence of
    actions is reached by running some schedule. *)
Lemma reachable_run env enc dir s s' :
  rtc (pool_step env enc dir) s s' -> exists sched, run env enc dir sched s = s'.
Proof.
  induction 1 as [s|s s1 s' [c Hc] _ [sched IH]].
  - by exists [].
  - exists (c :: sched). simpl. by rewrite Hc.
Qed.

Lemma try_workers_done env enc dir ids s :
  Forall (fun ws => ws = WDone) (workers s) ->
  try_workers env enc dir ids s = None.
Proof.
  intros Hall. induction ids as [|i ids IH]; simpl; [done|].
  unfold worker_step. destruct (workers s !! i) as [ws|] eqn:Hw; [|done].
  eapply Forall_lookup_1 in Hall; [|exact Hw]. by subst.
Qed.

(** A batch whose goroutines have all returned is left as it is. *)
Lemma terminal_finish env enc dir s : terminal s -> finish env enc dir s = s.
Proof.
  intros (Hp & Hc & Hall). unfold finish.
  assert (Hn : next_step env enc dir s = None).
  { unfold next_step, main_step. rewrite Hp, Hc. by apply try_workers_done. }
  destruct (measure s); simpl; by rewrite ?Hn.
Qed.

(** Every complete execution ends in the final state of some schedule. *)
Lemma complete_run_is_scheduled env enc dir s s' :
  rtc (pool_step env enc dir) s s' -> terminal s' ->
  exists sched, finish env enc dir (run env enc dir sched s) = s'.
Proof.
  intros Hr Ht. destruct (reachable_run _ _ _ _ _ Hr) as [sched <-].
  exists sched. by apply terminal_finish.
Qed.

Lemma write_event_make_tasks env enc dir loaded :
  write_event env enc dir <$> make_tasks loaded = imap (image_write env enc dir) loaded.
Proof. unfold make_tasks. rewrite fmap_imap. apply imap_ext. done. Qed.

(** A batch in which no task can fail: whatever the schedule, the result is
    [nil] and the pool has written every unique image once, under the name
    its index gives. *)
Lemma processImagesConcurrently_success env sched loaded dir enc w :
  pool_clean w ->
  Forall (task_ok env enc dir) (make_tasks loaded) ->
  exists evs w',
    processImagesConcurrently env sched loaded dir enc w = (Ok tt, w')
    /\ trace w' = (trace w ++ evs)%list
    /\ evs ≡ₚ imap (image_write env enc dir) loaded
    /\ pool_clean w'.
Proof.
  intros Hclean Hok. unfold processImagesConcurrently, pool_final.
  destruct (pool_success env enc dir sched (make_tasks loaded) w (getWorkerCount env)
              (getWorkerCount_pos env) Hclean Hok)
    as (Hres & Hclean' & done & Htr & Hperm).
  cbv zeta in *. rewrite Hres. eexists _, _. split; [reflexivity|].
  split; [exact Htr|]. split; [|done].
  rewrite Hperm. by rewrite write_event_make_tasks.
Qed.

Lemma pool_final_sound env sched loaded dir enc w :
  pool_clean w ->
  sound env enc dir (make_tasks loaded) w (pool_final env sched loaded dir enc w).
Proof.
  intros Hclean. unfold pool_final.
  eapply reachable_invariant; [apply final_reachable | by apply sound_init |].
  intros a b c Ha Hab. by eapply sound_step.
Qed.

Lemma from_task_named env enc dir loaded ev :
  from_task env enc dir (make_tasks loaded) ev -> named_by_index env enc dir loaded ev.
Proof.
  intros (task & Hin & ->). unfold make_tasks in Hin.
  apply elem_of_lookup_imap in Hin as (i & li & -> & Hli).
  eexists i, li, _. split; [done|]. reflexivity.
Qed.

Lemma processImagesConcurrently_writes env sched loaded dir enc w :
  pool_clean w ->
  exists evs,
    trace (processImagesConcurrently env sched loaded dir enc w).2 = (trace w ++ evs)%list
    /\ Forall (named_by_index env enc dir loaded) evs
    /\ pool_clean (processImagesConcurrently env sched loaded dir enc w).2.
Proof.
  intros Hclean.
  destruct (pool_final_sound env sched loaded dir enc w Hclean)
    as [Gclean _ (evs & Htr & Hevs) _].
  exists evs. unfold processImagesConcurrently. cbn [snd]. split; [done|]. split; [|done].
  eapply Forall_impl; [exact Hevs|]. intros ev. apply from_task_named.
Qed.

Lemma emit_bind {B} ev (k : unit -> M B) w : (emit ev ≫= k) w = k tt (log w ev).
Proof. reflexivity. Qed.

Lemma ret_bind {A B} (a : A) (k : A -> M B) w : (mret a ≫= k) w = k a w.
Proof. reflexivity. Qed.

Lemma extractImagesConcurrent_run env sched filename imgDir enc w tempDir files loaded w4 :
  os_MkdirTemp env "" "pdfimg" = Ok tempDir ->
  api_ExtractImagesFile env filename tempDir = None ->
  os_ReadDir env tempDir = Ok files ->
  load_loop env tempDir files []
    (log (log (log w (EvMkdirTemp "" "pdfimg")) (EvExtractImagesFile filename tempDir))
       (EvReadDir tempDir)) = (Ok loaded, w4) ->
  extractImagesConcurrent env sched filename imgDir enc w =
    if (length loaded =? 0)%nat then (Ok tt, log w4 (EvRemoveAll tempDir))
    else
      let dupCount := (dedup_loop loaded ∅ 0 []).1.2 in
      let uniqueImages := (dedup_loop loaded ∅ 0 []).2 in
      let w5 := if (0 <? dupCount)%nat
                then log w4 (EvPrintf (Sprintf_skipped dupCount)) else w4 in
      let r := processImagesConcurrently env sched uniqueImages imgDir enc w5 in
      (r.1, log r.2 (EvRemoveAll tempDir)).
Proof.
  intros Htmp Hext Hdir Hload. unfold extractImagesConcurrent.
  rewrite bind_eq, Htmp, call_Ok. unfold defer.
  rewrite bind_eq, Hext. cbn [of_error]. rewrite call_Ok.
  rewrite bind_eq, Hdir, call_Ok. rewrite bind_eq, Hload.
  destruct (length loaded =? 0)%nat; [done|].
  destruct (dedup_loop loaded ∅ 0 []) as [[seen dupCount] uniqueImages]. cbn [fst snd].
  destruct (0 <? dupCount)%nat; [rewrite emit_bind | rewrite ret_bind];
    cbv zeta; by destruct (processImagesConcurrently _ _ _ _ _ _) as [r w6].
Qed.

Lemma ExtractImagesFromFile_eq env sched filename imgDir format w :
  ExtractImagesFromFile env sched filename imgDir format w =
    match os_Mkdir env imgDir with
    | Some err =>
      if os_IsExist err
      then extract_by_format env sched filename imgDir format (log w (EvMkdir imgDir))
      else (Err err, log w (EvMkdir imgDir))
    | None => extract_by_format env sched filename imgDir format (log w (EvMkdir imgDir))
    end.
Proof.
  unfold ExtractImagesFromFile. rewrite emit_bind.
  destruct (os_Mkdir env imgDir) as [err|]; [|by rewrite ret_bind].
  destruct (os_IsExist err); cbn [negb]; [by rewrite ret_bind | reflexivity].
Qed.

Lemma ExtractImagesFromFile_ready env sched filename imgDir format w :
  output_dir_ready env imgDir ->
  ExtractImagesFromFile env sched filename imgDir format w =
  extract_by_format env sched filename imgDir format (log w (EvMkdir imgDir)).
Proof.
  unfold output_dir_ready. rewrite ExtractImagesFromFile_eq.
  destruct (os_Mkdir env imgDir) as [err|]; [|done]. by intros ->.
Qed.

Lemma GetEncoder_webp env : GetEncoder env "webp" = Ok (WebPEncoder env).
Proof.
  unfold GetEncoder, encoderRegistry. cbn [ToLower].
  change (String (lower_ascii "w") (String (lower_ascii "e")
           (String (lower_ascii "b") (String (lower_ascii "p") "")))) with "webp".
  rewrite lookup_insert_ne by done. by rewrite lookup_insert_eq.
Qed.

Lemma GetEncoder_png env : GetEncoder env "png" = Ok (PNGEncoder env).
Proof.
  unfold GetEncoder, encoderRegistry. cbn [ToLower].
  change (String (lower_ascii "p") (String (lower_ascii "n")
           (String (lower_ascii "g") ""))) with "png".
  by rewrite lookup_insert_eq.
Qed.

Lemma three_files_scenario env sched filename imgDir tempDir da dc ia ic w :
  output_dir_ready env imgDir ->
  os_MkdirTemp env "" "pdfimg" = Ok tempDir ->
  api_ExtractImagesFile env filename tempDir = None ->
  os_ReadDir env tempDir =
    Ok [ {| Name := "a.png"; IsDir := false |}; {| Name := "b.png"; IsDir := false |};
         {| Name := "c.jpg"; IsDir := false |} ] ->
  os_ReadFile env (filepath_Join env tempDir "a.png") = Ok da ->
  os_ReadFile env (filepath_Join env tempDir "b.png") = Ok da ->
  os_ReadFile env (filepath_Join env tempDir "c.jpg") = Ok dc ->
  hashBytes env da <> hashBytes env dc ->
  image_Decode env da = Ok ia ->
  image_Decode env dc = Ok ic ->
  snd (webp_Encode_Lossless100 env (toRGBA env ia)) = None ->
  snd (webp_Encode_Lossless100 env (toRGBA env ic)) = None ->
  os_WriteFile env (filepath_Join env imgDir "image_0001.webp")
    (fst (webp_Encode_Lossless100 env (toRGBA env ia))) = None ->
  os_WriteFile env (filepath_Join env imgDir "image_0002.webp")
    (fst (webp_Encode_Lossless100 env (toRGBA env ic))) = None ->
  pool_clean w ->
  exists wevs w',
    ExtractImagesFromFile env sched filename imgDir "webp" w = (Ok tt, w')
    /\ trace w' =
       (trace w
        ++ [ EvMkdir imgDir; EvMkdirTemp "" "pdfimg";
             EvExtractImagesFile filename tempDir; EvReadDir tempDir;
             EvReadFile (filepath_Join env tempDir "a.png");
             EvReadFile (filepath_Join env tempDir "b.png");
             EvReadFile (filepath_Join env tempDir "c.jpg");
             EvPrintf ("skipped 1 duplicate image(s)" ++ newline) ]
        ++ wevs ++ [EvRemoveAll tempDir])%list
    /\ wevs ≡ₚ
       [ EvWriteFile (filepath_Join env imgDir "image_0001.webp")
           (fst (webp_Encode_Lossless100 env (toRGBA env ia))) None;
         EvWriteFile (filepath_Join env imgDir "image_0002.webp")
           (fst (webp_Encode_Lossless100 env (toRGBA env ic))) None ].
Proof.
  intros Hready Htmp Hext Hdir Hra Hrb Hrc Hhash Hda Hdc Hea Hec Hwa Hwc Hclean.
  rewrite ExtractImagesFromFile_ready by done.
  unfold extract_by_format. change (String.eqb "webp" "original" || String.eqb "webp" "") with false.
  cbv iota. rewrite bind_eq. unfold lift at 1. rewrite GetEncoder_webp.
  set (la := {| Img := toRGBA env ia; FileHash := hashBytes env da |}).
  set (lc := {| Img := toRGBA env ic; FileHash := hashBytes env dc |}).
  set (w0 := log w (EvMkdir imgDir)).
  set (w3 := log (log (log w0 (EvMkdirTemp "" "pdfimg")) (EvExtractImagesFile filename tempDir))
               (EvReadDir tempDir)).
  set (w4 := log (log (log w3 (EvReadFile (filepath_Join env tempDir "a.png")))
                    (EvReadFile (filepath_Join env tempDir "b.png")))
               (EvReadFile (filepath_Join env tempDir "c.jpg"))).
  assert (Hload : load_loop env tempDir
            [ {| Name := "a.png"; IsDir := false |}; {| Name := "b.png"; IsDir := false |};
              {| Name := "c.jpg"; IsDir := false |} ] [] w3 = (Ok [la; la; lc], w4)).
  { cbn [load_loop Name].
    change (isImageFile env "a.png") with true. change (isImageFile env "b.png") with true.
    change (isImageFile env "c.jpg") with true. cbn [negb].
    rewrite bind_eq, Hra, call_Ok, bind_eq. unfold lift at 1. rewrite Hda.
    rewrite bind_eq, Hrb, call_Ok, bind_eq. unfold lift at 1. rewrite Hda.
    rewrite bind_eq, Hrc, call_Ok, bind_eq. unfold lift at 1. rewrite Hdc.
    reflexivity. }
  rewrite (extractImagesConcurrent_run _ _ _ _ _ _ _ _ _ _ Htmp Hext Hdir Hload).
  cbn [length Nat.eqb].
  destruct (dedup_loop_eq [la; la; lc] ∅ 0 [] []) as (seen' & Heq & _).
  { intros h. rewrite seen_get_empty. split; [done|by inversion 1]. }
  assert (Hfo : first_occurrences FileHash [] [la; la; lc] = [la; lc]).
  { cbn [first_occurrences]. rewrite bool_decide_eq_false_2 by (by inversion 1).
    rewrite bool_decide_eq_true_2 by (by left).
    rewrite bool_decide_eq_false_2; [done|].
    intros [Hh|Hh]%elem_of_cons; [by symmetry in Hh | by inversion Hh]. }
  rewrite Hfo in Heq. rewrite Heq. cbn [fst snd length Nat.sub Nat.add Nat.ltb Nat.leb app].
  destruct (processImagesConcurrently_success env sched [la; lc] imgDir (WebPEncoder env)
              (log w4 (EvPrintf (Sprintf_skipped 1))))
    as (wevs & w6 & Hrun & Htr & Hperm & _).
  { done. }
  { repeat constructor; assumption. }
  cbv zeta. rewrite Hrun. cbn [fst snd]. exists wevs, (log w6 (EvRemoveAll tempDir)).
  split; [done|]. split; [|exact Hperm].
  cbn [log trace]. rewrite Htr. subst w4 w3 w0. cbn [log trace].
  rewrite <- !app_assoc. reflexivity.
Qed.

Lemma failed_step env enc dir c s s' :
  step_thread env enc dir c s = Some s' -> failed s = true -> failed s' = true.
Proof.
  intros Hstep Hfl. destruct c as [[|i] pick]; unfold step_thread in Hstep; simpl in Hstep.
  - unfold main_step in Hstep. destruct (pending s); [destruct (closed s)|]; by simplify_eq.
  - worker_cases Hstep; done.
Qed.

Lemma failed_run env enc dir sched s :
  failed s = true -> failed (run env enc dir sched s) = true.
Proof.
  revert s. induction sched as [|c sched IH]; intros s Hfl; simpl; [done|].
  destruct (step_thread env enc dir c s) eqn:E; [|by apply IH].
  apply IH. by eapply failed_step.
Qed.

Lemma done_step env enc dir c s s' i :
  step_thread env enc dir c s = Some s' ->
  workers s !! i = Some WDone -> workers s' !! i = Some WDone.
Proof.
  intros Hstep Hd. destruct c as [[|j] pick]; unfold step_thread in Hstep; simpl in Hstep.
  - unfold main_step in Hstep. destruct (pending s); [destruct (closed s)|]; by simplify_eq.
  - destruct (decide (i = j)) as [->|Hne].
    + unfold worker_step in Hstep. rewrite Hd in Hstep. done.
    + worker_cases Hstep; simpl; by rewrite list_lookup_insert_ne.
Qed.

Lemma done_run env enc dir sched s i :
  workers s !! i = Some WDone -> workers (run env enc dir sched s) !! i = Some WDone.
Proof.
  revert s. induction sched as [|c sched IH]; intros s Hd; simpl; [done|].
  destruct (step_thread env enc dir c s) eqn:E; [|by apply IH].
  apply IH. by eapply done_step.
Qed.

Lemma reported_init tasks n w : ~ reported (init_pool tasks n w).
Proof.
  intros [[e He]|[e He]]; simpl in He.
  - inversion He.
  - apply elem_of_replicate in He as [He _]. discriminate.
Qed.

Lemma flag_step env enc dir c s s' :
  flag_inv s -> step_thread env enc dir c s = Some s' -> flag_inv s'.
Proof.
  intros Gflag Hstep.
  destruct c as [[|i] pick]; unfold step_thread in Hstep; simpl in Hstep.
  - unfold main_step in Hstep. destruct (pending s); [destruct (closed s)|]; by simplify_eq.
  - worker_cases Hstep; unfold flag_inv, reported in *; simpl; try done;
      try by trace_flag Gflag.
    intros [[e He]|[e He]]; apply Gflag.
    + apply elem_of_app in He as [He|He]; [left; eauto|].
      apply list_elem_of_singleton in He. subst. right. exists e.
      eapply list_elem_of_lookup_2; eauto.
    + apply elem_of_insert_other in He as [He|He]; [done|]. right. eauto.
Qed.

Lemma flag_run env enc dir sched s :
  flag_inv s -> flag_inv (run env enc dir sched s).
Proof.
  revert s. induction sched as [|c sched IH]; intros s Hs; simpl; [done|].
  destruct (step_thread env enc dir c s) eqn:E; [|by apply IH].
  apply IH. by eapply flag_step.
Qed.

Lemma clean_run env enc dir sched tasks n w0 :
  pool_clean w0 -> pool_clean (world (run env enc dir sched (init_pool tasks n w0))).
Proof.
  intros Hclean.
  assert (sound env enc dir tasks w0 (run env enc dir sched (init_pool tasks n w0))) as [? _ _ _];
    [|done].
  eapply reachable_invariant; [apply run_reachable | by apply sound_init |].
  intros a b c Ha Hab. by eapply sound_step.
Qed.

Lemma getBuffer_clean pick w : pool_clean w -> (getBuffer pick w).1 = Ok [].
Proof.
  intros Hclean. unfold getBuffer. destruct (bufferPool w !! pick) as [buf|] eqn:E; [|done].
  cbn [fst]. f_equal. eapply Forall_lookup_1 in Hclean; eauto.
Qed.

(** What a successful run of the sequential strategy did, in terms of the
    files it looked at. *)
Lemma processExtractedFilesSequential_ok env files tempDir imgDir w w' :
  processExtractedFilesSequential env files tempDir imgDir w = (Ok tt, w') ->
  exists (items : list (DirEntry * bytes)) evs,
    fst <$> items = recognized_files env files
    /\ Forall (fun it =>
         os_ReadFile env (filepath_Join env tempDir (Name it.1)) = Ok it.2) items
    /\ trace w' = (trace w ++ evs)%list
    /\ bufferPool w' = bufferPool w
    /\ reads evs = (fun it => filepath_Join env tempDir (Name it.1)) <$> items
    /\ failed_writes evs = []
    /\ let kept := first_occurrences (fun it => hashBytes env it.2) [] items in
       let dupCount := (length items - length kept)%nat in
       files_written evs =
         imap (fun k it => (filepath_Join env imgDir
                              (Sprintf_image k (kept_ext env (Name it.1))), it.2)) kept
       /\ prints evs = if (0 <? dupCount)%nat then [Sprintf_skipped dupCount] else [].
Proof.
  unfold processExtractedFilesSequential. rewrite bind_eq.
  destruct (sequential_loop env tempDir imgDir files ∅ 0 0 w) as [[dup|e] w1] eqn:Hloop;
    [|discriminate].
  destruct (sequential_loop_ok _ _ _ _ _ _ _ _ _ _ [] ltac:(intros h; rewrite seen_get_empty;
              split; [done|by inversion 1]) Hloop)
    as (items & evs & Hit & Hrd & [Hdup Hw] & Htr & Hbp & Hreads & Hfw & Hpr).
  simpl in Hdup. subst dup. intros Hrun.
  destruct (0 <? length items - length _)%nat eqn:Hpos.
  - rewrite emit_bind in Hrun. injection Hrun as <-.
    exists items, (evs ++ [EvPrintf (Sprintf_skipped (length items - length
      (first_occurrences (fun it : DirEntry * bytes => hashBytes env it.2) [] items)))])%list.
    cbv zeta. rewrite Hpos. unfold reads, failed_writes, files_written, prints in *.
    rewrite !omap_app, Hreads, Hfw, Hw, Hpr. cbn [omap app log trace bufferPool].
    rewrite !app_nil_r, Htr, <- app_assoc.
    split_and!; try done.
  - rewrite ret_bind in Hrun. injection Hrun as <-.
    exists items, evs. cbv zeta. rewrite Hpos. split_and!; done.
Qed.

Lemma recognized_files_image env f files :
  f ∈ recognized_files env files -> isImageFile env (Name f) = true.
Proof. unfold recognized_files. rewrite list_elem_of_filter. by intros [[_ ?] _]. Qed.

Lemma kept_ext_recognized env name :
  isImageFile env name = true -> kept_ext env name = ToLower env (Ext name).
Proof.
  intros H. apply isImageFile_extensions in H. unfold kept_ext.
  destruct (String.eqb_spec (ToLower env (Ext name)) "") as [Heq|]; [|done].
  rewrite Heq in H. exfalso. unfold image_extensions in H.
  repeat (apply elem_of_cons in H as [H|H]; [discriminate|]). inversion H.
Qed.

Lemma isImageFile_xyz env name : Ext name = ".xyz" -> isImageFile env name = false.
Proof. intros H. unfold isImageFile. rewrite H. reflexivity. Qed.

Lemma keeps_clean_ret {A} (a : A) : keeps_clean (mret a).
Proof. by intros w. Qed.

Lemma keeps_clean_fail {A} e : keeps_clean (fail (A := A) e).
Proof. by intros w. Qed.

Lemma keeps_clean_lift {A} (r : result A) : keeps_clean (lift r).
Proof. by intros w. Qed.

Lemma keeps_clean_emit ev : keeps_clean (emit ev).
Proof. by intros w. Qed.

Lemma keeps_clean_bind {A B} (m : M A) (k : A -> M B) :
  keeps_clean m -> (forall a, keeps_clean (k a)) -> keeps_clean (m ≫= k).
Proof.
  intros Hm Hk w Hw. rewrite bind_eq. specialize (Hm w Hw).
  destruct (m w) as [[a|e] w1]; [by apply Hk | done].
Qed.

Lemma keeps_clean_call {A} ev (r : result A) ctx : keeps_clean (call ev r ctx).
Proof. intros w Hw. by destruct r. Qed.

Lemma keeps_clean_defer {A} (cleanup : M unit) (body : M A) :
  keeps_clean cleanup -> keeps_clean body -> keeps_clean (defer cleanup body).
Proof.
  intros Hc Hb w Hw. unfold defer. specialize (Hb w Hw).
  destruct (body w) as [r w1]. cbn [snd] in *. by apply Hc.
Qed.

Lemma keeps_clean_load_loop env tempDir files acc :
  keeps_clean (load_loop env tempDir files acc).
Proof.
  revert acc. induction files as [|f files IH]; intros acc; cbn [load_loop].
  - apply keeps_clean_ret.
  - destruct (negb (isImageFile env (Name f))); [apply IH|].
    apply keeps_clean_bind; [apply keeps_clean_call|]. intros data.
    apply keeps_clean_bind; [apply keeps_clean_lift|]. intros img. apply IH.
Qed.

Lemma keeps_clean_sequential_loop env tempDir imgDir files seen dup uc :
  keeps_clean (sequential_loop env tempDir imgDir files seen dup uc).
Proof.
  revert seen dup uc. induction files as [|f files IH]; intros seen dup uc;
    cbn [sequential_loop].
  - apply keeps_clean_ret.
  - destruct (IsDir f || negb (isImageFile env (Name f))); [apply IH|].
    apply keeps_clean_bind; [apply keeps_clean_call|]. intros data. cbv zeta.
    destruct (seen_get seen (hashBytes env data)); [apply IH|].
    apply keeps_clean_bind; [apply keeps_clean_call|]. intros _. apply IH.
Qed.

Lemma keeps_clean_pool env sched loaded dir enc :
  keeps_clean (processImagesConcurrently env sched loaded dir enc).
Proof.
  intros w Hw. by destruct (processImagesConcurrently_writes env sched loaded dir enc w Hw)
    as (evs & _ & _ & Hc).
Qed.

Lemma keeps_clean_ExtractImagesFromFile env sched filename imgDir format :
  keeps_clean (ExtractImagesFromFile env sched filename imgDir format).
Proof.
  unfold ExtractImagesFromFile.
  apply keeps_clean_bind; [apply keeps_clean_emit|]. intros _.
  apply keeps_clean_bind.
  { destruct (os_Mkdir env imgDir) as [err|]; [|apply keeps_clean_ret].
    destruct (negb (os_IsExist err)); [apply keeps_clean_fail | apply keeps_clean_ret]. }
  intros _. unfold extract_by_format.
  destruct (String.eqb format "original" || String.eqb format "").
  - unfold extractImagesOriginal.
    apply keeps_clean_bind; [apply keeps_clean_call|]. intros tempDir.
    apply keeps_clean_defer; [apply keeps_clean_emit|].
    apply keeps_clean_bind; [apply keeps_clean_call|]. intros _.
    apply keeps_clean_bind; [apply keeps_clean_call|]. intros files.
    unfold processExtractedFilesSequential.
    apply keeps_clean_bind; [apply keeps_clean_sequential_loop|]. intros dup.
    apply keeps_clean_bind; [|intros _; apply keeps_clean_ret].
    destruct (0 <? dup)%nat; [apply keeps_clean_emit | apply keeps_clean_ret].
  - apply keeps_clean_bind; [apply keeps_clean_lift|]. intros encoder.
    unfold extractImagesConcurrent.
    apply keeps_clean_bind; [apply keeps_clean_call|]. intros tempDir.
    apply keeps_clean_defer; [apply keeps_clean_emit|].
    apply keeps_clean_bind; [apply keeps_clean_call|]. intros _.
    apply keeps_clean_bind; [apply keeps_clean_call|]. intros files.
    apply keeps_clean_bind; [apply keeps_clean_load_loop|]. intros loaded.
    destruct (length loaded =? 0)%nat; [apply keeps_clean_ret|].
    destruct (dedup_loop loaded ∅ 0 []) as [[seen dup] unique].
    apply keeps_clean_bind; [|intros _; apply keeps_clean_pool].
    destruct (0 <? dup)%nat; [apply keeps_clean_emit | apply keeps_clean_ret].
Qed.

(** * The claims *)

(** C1. Whenever the load loop succeeds on a directory listing, the
    deduplication loop run on what it loaded yields a unique set that (a)
    has pairwise distinct fingerprints, (b) has as many images as there are
    distinct fingerprints among the recognized files, (c) is a subsequence
    of the loaded images, each member being the first image with its
    fingerprint, (d) leaves [dupCount] equal to the number of images
    dropped, and (e) is in first-occurrence order: it is the list of the
    images at the positions where a fingerprint occurs for the first time,
    all of these positions, in increasing order; in terms of the files, it
    is the list of the images of the first files with their fingerprint, in
    directory order.  The loaded images are those of the recognized files in
    directory order. *)
Theorem dedup_unique_image_set env tempDir files w loaded w' :
  load_loop env tempDir files [] w = (Ok loaded, w') ->
  exists items : list (DirEntry * bytes * Image),
    (fun it => it.1.1) <$> items = recognized env files
    /\ Forall (fun it =>
         os_ReadFile env (filepath_Join env tempDir (Name it.1.1)) = Ok it.1.2
         /\ image_Decode env it.1.2 = Ok it.2) items
    /\ loaded = loaded_of env <$> items
    /\ let uniqueImages := (dedup_loop loaded ∅ 0 []).2 in
       let dupCount := (dedup_loop loaded ∅ 0 []).1.2 in
       NoDup (FileHash <$> uniqueImages)
       /\ length uniqueImages
          = size (list_to_set ((fun it => hashBytes env it.1.2) <$> items) : gset string)
       /\ sublist uniqueImages loaded
       /\ (forall li, li ∈ uniqueImages ->
             exists l1 l2, loaded = (l1 ++ li :: l2)%list
                           /\ FileHash li ∉ FileHash <$> l1)
       /\ (dupCount + length uniqueImages = length loaded)%nat
       /\ (exists positions : list nat,
             StronglySorted lt positions
             /\ Forall2 (fun i li =>
                  loaded !! i = Some li
                  /\ forall j lj, (j < i)%nat -> loaded !! j = Some lj ->
                        FileHash lj <> FileHash li) positions uniqueImages
             /\ (forall i li,
                   loaded !! i = Some li ->
                   (forall j lj, (j < i)%nat -> loaded !! j = Some lj ->
                      FileHash lj <> FileHash li) ->
                   i ∈ positions))
       /\ uniqueImages = first_occurrences FileHash [] loaded
       /\ uniqueImages
          = loaded_of env
            <$> first_occurrences (fun it : DirEntry * bytes * Image => hashBytes env it.1.2)
                  [] items.
Proof.
  intros Hload.
  destruct (load_loop_ok _ _ _ _ _ _ _ Hload) as (items & Hit & Hall & Hl & _ & _).
  simpl in Hl. exists items. split_and!; [done..|].
  destruct (dedup_loop_eq loaded ∅ 0 [] [])
    as (seen' & Heq & Hle).
  { intros h. rewrite seen_get_empty. split; [done|by inversion 1]. }
  rewrite Heq. cbn [fst snd app].
  split_and!.
  - apply first_occurrences_NoDup.
  - rewrite first_occurrences_size. do 2 f_equal. rewrite Hl, <- list_fmap_compose. done.
  - apply first_occurrences_sublist.
  - intros li Hin. by eapply first_occurrences_first.
  - lia.
  - destruct (first_occurrences_positions FileHash loaded []) as (P & Hs & Hf & Hc).
    exists P. split_and!; [done| |].
    + eapply Forall2_impl; [exact Hf|]. by intros i li (? & _ & ?).
    + intros i li Hi Hfirst. apply (Hc i li Hi); [|done]. apply not_elem_of_nil.
  - done.
  - rewrite Hl. apply (first_occurrences_fmap (loaded_of env) FileHash).
Qed.

(** C1, on a concrete run. *)
Lemma dedup_unique_image_set_witness :
  load_loop demo_env sample_tmp demo_entries [] world0
  = (Ok demo_loaded,
     {| trace := [ EvReadFile "/tmp/pdfimg1/a.png"; EvReadFile "/tmp/pdfimg1/b.png";
                   EvReadFile "/tmp/pdfimg1/c.jpg" ];
        bufferPool := [] |})
  /\ (dedup_loop demo_loaded ∅ 0 []).1.2 = 1%nat
  /\ FileHash <$> (dedup_loop demo_loaded ∅ 0 []).2 = ["0102"; "03"]
  /\ NoDup (FileHash <$> (dedup_loop demo_loaded ∅ 0 []).2)
  /\ (dedup_loop demo_loaded ∅ 0 []).2 = first_occurrences FileHash [] demo_loaded.
Proof.
  assert (H : load_loop demo_env sample_tmp demo_entries [] world0
              = (Ok demo_loaded,
                 {| trace := [ EvReadFile "/tmp/pdfimg1/a.png";
                               EvReadFile "/tmp/pdfimg1/b.png";
                               EvReadFile "/tmp/pdfimg1/c.jpg" ];
                    bufferPool := [] |})) by (vm_compute; reflexivity).
  split; [exact H|].
  split; [vm_compute; reflexivity|]. split; [vm_compute; reflexivity|].
  destruct (dedup_unique_image_set demo_env sample_tmp demo_entries world0 _ _ H)
    as (items & _ & _ & _ & Hnd & _ & _ & _ & _ & _ & Hfirst & _).
  split; [exact Hnd | exact Hfirst].
Defined.

(** C2. The name under which the pool writes a unique image is
    [image_%04d<ext>] of its position plus one, whatever the schedule: every
    write of a batch is the write of some position under that name, and when
    no task fails the batch returns [nil] having written each position
    exactly once.  In the scenario of [a.png], its copy [b.png] and a
    different [c.jpg] with format [webp], every schedule yields the two
    files [image_0001.webp] and [image_0002.webp] and the one console line
    about one skipped duplicate. *)
Theorem output_name_is_function_of_index :
  (forall env sched loadedImages imgDir encoder w,
     pool_clean w ->
     exists evs r w',
       processImagesConcurrently env sched loadedImages imgDir encoder w = (r, w')
       /\ trace w' = (trace w ++ evs)%list
       /\ Forall (named_by_index env encoder imgDir loadedImages) evs
       /\ (Forall (task_ok env encoder imgDir) (make_tasks loadedImages) ->
           r = Ok tt
           /\ evs ≡ₚ imap (image_write env encoder imgDir) loadedImages))
  /\ (forall env sched filename imgDir tempDir da dc ia ic w,
        output_dir_ready env imgDir ->
        os_MkdirTemp env "" "pdfimg" = Ok tempDir ->
        api_ExtractImagesFile env filename tempDir = None ->
        os_ReadDir env tempDir =
          Ok [ {| Name := "a.png"; IsDir := false |};
               {| Name := "b.png"; IsDir := false |};
               {| Name := "c.jpg"; IsDir := false |} ] ->
        os_ReadFile env (filepath_Join env tempDir "a.png") = Ok da ->
        os_ReadFile env (filepath_Join env tempDir "b.png") = Ok da ->
        os_ReadFile env (filepath_Join env tempDir "c.jpg") = Ok dc ->
        hashBytes env da <> hashBytes env dc ->
        image_Decode env da = Ok ia ->
        image_Decode env dc = Ok ic ->
        snd (webp_Encode_Lossless100 env (toRGBA env ia)) = None ->
        snd (webp_Encode_Lossless100 env (toRGBA env ic)) = None ->
        os_WriteFile env (filepath_Join env imgDir "image_0001.webp")
          (fst (webp_Encode_Lossless100 env (toRGBA env ia))) = None ->
        os_WriteFile env (filepath_Join env imgDir "image_0002.webp")
          (fst (webp_Encode_Lossless100 env (toRGBA env ic))) = None ->
        pool_clean w ->
        exists wevs w',
          ExtractImagesFromFile env sched filename imgDir "webp" w = (Ok tt, w')
          /\ trace w' =
             (trace w
              ++ [ EvMkdir imgDir; EvMkdirTemp "" "pdfimg";
                   EvExtractImagesFile filename tempDir; EvReadDir tempDir;
                   EvReadFile (filepath_Join env tempDir "a.png");
                   EvReadFile (filepath_Join env tempDir "b.png");
                   EvReadFile (filepath_Join env tempDir "c.jpg");
                   EvPrintf ("skipped 1 duplicate image(s)" ++ newline) ]
              ++ wevs ++ [EvRemoveAll tempDir])%list
          /\ wevs ≡ₚ
             [ EvWriteFile (filepath_Join env imgDir "image_0001.webp")
                 (fst (webp_Encode_Lossless100 env (toRGBA env ia))) None;
               EvWriteFile (filepath_Join env imgDir "image_0002.webp")
                 (fst (webp_Encode_Lossless100 env (toRGBA env ic))) None ]).
Proof.
  split.
  - intros env sched loaded dir enc w Hclean.
    destruct (processImagesConcurrently_writes env sched loaded dir enc w Hclean)
      as (evs & Htr & Hevs & _).
    destruct (processImagesConcurrently env sched loaded dir enc w) as [r w'] eqn:Hrun.
    exists evs, r, w'. split_and!; [done..|].
    intros Hok.
    destruct (processImagesConcurrently_success env sched loaded dir enc w Hclean Hok)
      as (evs' & w'' & Hrun' & Htr' & Hperm & _).
    rewrite Hrun in Hrun'. injection Hrun' as -> <-.
    split; [done|]. cbn [snd] in Htr. rewrite Htr in Htr'.
    apply app_inv_head in Htr'. by subst.
  - intros. by eapply three_files_scenario.
Qed.

(** C2, on a concrete run. *)
Lemma output_name_is_function_of_index_witness :
  (exists wevs w',
     ExtractImagesFromFile demo_env demo_schedule "doc.pdf" "out" "webp" world0
     = (Ok tt, w')
     /\ trace w' =
        (trace world0
         ++ [ EvMkdir "out"; EvMkdirTemp "" "pdfimg";
              EvExtractImagesFile "doc.pdf" sample_tmp; EvReadDir sample_tmp;
              EvReadFile "/tmp/pdfimg1/a.png"; EvReadFile "/tmp/pdfimg1/b.png";
              EvReadFile "/tmp/pdfimg1/c.jpg";
              EvPrintf ("skipped 1 duplicate image(s)" ++ newline) ]
         ++ wevs ++ [EvRemoveAll sample_tmp])%list
     /\ wevs ≡ₚ [ EvWriteFile "out/image_0001.webp" [Byte.x01; Byte.x02] None;
                  EvWriteFile "out/image_0002.webp" [Byte.x03] None ])
  /\ (exists evs r w',
        processImagesConcurrently demo_env demo_schedule demo_unique "out"
          (WebPEncoder demo_env) world0 = (r, w')
        /\ trace w' = (trace world0 ++ evs)%list
        /\ r = Ok tt
        /\ evs ≡ₚ imap (image_write demo_env (WebPEncoder demo_env) "out") demo_unique).
Proof.
  destruct output_name_is_function_of_index as [Hgen Hscen]. split.
  - apply (Hscen demo_env demo_schedule "doc.pdf" "out" sample_tmp
             [Byte.x01; Byte.x02] [Byte.x03]
             (ImgRGBA (sample_rgba [Byte.x01; Byte.x02]))
             (ImgRGBA (sample_rgba [Byte.x03])) world0).
    + vm_compute. exact I.
    + reflexivity.
    + reflexivity.
    + reflexivity.
    + reflexivity.
    + reflexivity.
    + reflexivity.
    + vm_compute. discriminate.
    + reflexivity.
    + reflexivity.
    + reflexivity.
    + reflexivity.
    + reflexivity.
    + reflexivity.
    + constructor.
  - destruct (Hgen demo_env demo_schedule demo_unique "out" (WebPEncoder demo_env) world0)
      as (evs & r & w' & Hrun & Htr & _ & Hok).
    + constructor.
    + destruct Hok as [Hr Hperm].
      * repeat constructor.
      * exists evs, r, w'. split; [exact Hrun|]. split; [exact Htr|].
        split; [exact Hr | exact Hperm].
Defined.

(** C3. The batch returns when every goroutine has returned, and its result
    is the first non-nil value in the order of arrival on the result
    channel; it is [nil] when no failure arrived.  The order is that of
    arrival, not of task index: the same two failing tasks give the error
    of task 0 or that of task 1 according to the schedule.  Duplicates
    discarded by the deduplication stage do not affect the result: when no
    task fails the run returns [nil]. *)
Theorem batch_result_is_first_error_to_arrive :
  (forall env sched loadedImages imgDir encoder w,
     let s := pool_final env sched loadedImages imgDir encoder w in
     terminal s
     /\ processImagesConcurrently env sched loadedImages imgDir encoder w
        = (of_error (head (omap id (resultChan s))), world s)
     /\ ((forall r, r ∈ resultChan s -> r = None) ->
         (processImagesConcurrently env sched loadedImages imgDir encoder w).1 = Ok tt))
  /\ (resultChan (pool_final failing_env zero_first failing_images "out"
                    (PNGEncoder failing_env) world0)
        = [Some (encode_error "01"); Some (encode_error "02")]
      /\ (processImagesConcurrently failing_env zero_first failing_images "out"
            (PNGEncoder failing_env) world0).1 = Err (encode_error "01")
      /\ resultChan (pool_final failing_env one_first failing_images "out"
                       (PNGEncoder failing_env) world0)
        = [Some (encode_error "02"); Some (encode_error "01")]
      /\ (processImagesConcurrently failing_env one_first failing_images "out"
            (PNGEncoder failing_env) world0).1 = Err (encode_error "02"))
  /\ (forall env sched filename imgDir encoder w tempDir files loaded w4,
        os_MkdirTemp env "" "pdfimg" = Ok tempDir ->
        api_ExtractImagesFile env filename tempDir = None ->
        os_ReadDir env tempDir = Ok files ->
        load_loop env tempDir files []
          (log (log (log w (EvMkdirTemp "" "pdfimg"))
                  (EvExtractImagesFile filename tempDir)) (EvReadDir tempDir))
          = (Ok loaded, w4) ->
        (0 < (dedup_loop loaded ∅ 0 []).1.2)%nat ->
        Forall (task_ok env encoder imgDir)
          (make_tasks (dedup_loop loaded ∅ 0 []).2) ->
        pool_clean w ->
        (extractImagesConcurrent env sched filename imgDir encoder w).1 = Ok tt).
Proof.
  split; [|split].
  - intros env sched loaded dir enc w s. split; [|split].
    + apply finish_terminal.
    + unfold processImagesConcurrently. fold s. by rewrite collect_first_error.
    + intros Hnone. unfold processImagesConcurrently. fold s. cbn [fst].
      rewrite collect_no_error; [done|]. by apply Forall_forall.
  - repeat split; vm_compute; reflexivity.
  - intros env sched filename imgDir enc w tempDir files loaded w4
      Htmp Hext Hdir Hload Hdup Hok Hclean.
    rewrite (extractImagesConcurrent_run _ _ _ _ _ _ _ _ _ _ Htmp Hext Hdir Hload).
    destruct (length loaded =? 0)%nat; [done|]. cbv zeta. cbn [fst].
    apply Nat.ltb_lt in Hdup. rewrite Hdup.
    assert (Hclean4 : pool_clean w4).
    { destruct (load_loop_ok _ _ _ _ _ _ _ Hload) as (_ & _ & _ & _ & _ & Hbp).
      unfold pool_clean. rewrite Hbp. exact Hclean. }
    destruct (processImagesConcurrently_success env sched _ imgDir enc
                (log w4 (EvPrintf (Sprintf_skipped (dedup_loop loaded ∅ 0 []).1.2)))
                Hclean4 Hok) as (evs & w' & -> & _).
    done.
Qed.

(** C3, on a concrete run. *)
Lemma batch_result_is_first_error_to_arrive_witness :
  (extractImagesConcurrent demo_env demo_schedule "doc.pdf" "out"
     (WebPEncoder demo_env) world0).1 = Ok tt
  /\ (dedup_loop demo_loaded ∅ 0 []).1.2 = 1%nat
  /\ (processImagesConcurrently demo_env demo_schedule demo_unique "out"
        (WebPEncoder demo_env) world0).1 = Ok tt.
Proof.
  destruct batch_result_is_first_error_to_arrive as (Hfirst & _ & Hdup).
  split; [|split].
  - apply (Hdup demo_env demo_schedule "doc.pdf" "out" (WebPEncoder demo_env) world0
             sample_tmp demo_entries demo_loaded
             {| trace := [ EvMkdirTemp "" "pdfimg";
                           EvExtractImagesFile "doc.pdf" sample_tmp;
                           EvReadDir sample_tmp;
                           EvReadFile "/tmp/pdfimg1/a.png";
                           EvReadFile "/tmp/pdfimg1/b.png";
                           EvReadFile "/tmp/pdfimg1/c.jpg" ];
                bufferPool := [] |}).
    + reflexivity.
    + reflexivity.
    + reflexivity.
    + vm_compute. reflexivity.
    + vm_compute. lia.
    + vm_compute. repeat constructor.
    + constructor.
  - vm_compute. reflexivity.
  - destruct (Hfirst demo_env demo_schedule demo_unique "out" (WebPEncoder demo_env) world0)
      as (_ & _ & Hnone).
    apply Hnone. vm_compute. intros r Hr.
    repeat (apply elem_of_cons in Hr as [Hr|Hr]; [exact Hr|]). inversion Hr.
Defined.

(** C4. In every state a batch can reach: once a failure has been sent (or
    is about to be), the flag is set, and it stays set; a worker that has a
    task and finds the flag set returns without writing or reporting
    anything and never acts again; a worker whose task is in flight runs
    [writeImageFile] to its end whatever the flag.  So results can follow
    the first failure: in the batch below, after the flag is set one more
    file is written and a second failure is reported, while the worker that
    saw the flag leaves its task unwritten. *)
Theorem eventual_stop_after_failure :
  (forall env encoder imgDir tasks n w0 sched,
     let s := run env encoder imgDir sched (init_pool tasks n w0) in
     (reported s -> failed s = true)
     /\ (failed s = true ->
         forall sched', failed (run env encoder imgDir sched' s) = true)
     /\ (forall i task pick,
           workers s !! i = Some (WLoad task) -> failed s = true ->
           exists s',
             worker_step env encoder imgDir pick i s = Some s'
             /\ workers s' !! i = Some WDone
             /\ world s' = world s /\ resultChan s' = resultChan s
             /\ forall sched',
                  workers (run env encoder imgDir sched' s') !! i = Some WDone
                  /\ forall pick',
                       worker_step env encoder imgDir pick' i
                         (run env encoder imgDir sched' s') = None)
     /\ (forall i task pick,
           workers s !! i = Some (WWrite task) ->
           exists s',
             worker_step env encoder imgDir pick i s = Some s'
             /\ world s'
                = (writeImageFile env pick (TaskImg task) encoder imgDir
                     (Index task) (world s)).2))
  /\ (let s1 := run mixed_env (PNGEncoder mixed_env) "out" until_first_failure
                  (init_pool mixed_tasks 3 world0) in
      let s2 := run mixed_env (PNGEncoder mixed_env) "out" after_first_failure s1 in
      failed s1 = true
      /\ resultChan s1 = [Some (encode_error "01")]
      /\ files_written (trace (world s1)) = []
      /\ workers s1 = [WRecv; WWrite {| Index := 1; TaskImg := sample_rgba [Byte.x02] |};
                       WWrite {| Index := 2; TaskImg := sample_rgba [Byte.x03] |}]
      /\ resultChan s2 = [Some (encode_error "01"); None; Some (encode_error "03")]
      /\ files_written (trace (world s2)) = [("out/image_0002.png", [Byte.x02])]
      /\ workers s2 = [WDone; WRecv; WRecv]
      /\ terminal (finish mixed_env (PNGEncoder mixed_env) "out" s2)
      /\ files_written
           (trace (world (finish mixed_env (PNGEncoder mixed_env) "out" s2)))
         = [("out/image_0002.png", [Byte.x02])]).
Proof.
  split.
  - intros env enc dir tasks n w0 sched s. split; [|split; [|split]].
    + apply (flag_run env enc dir sched (init_pool tasks n w0)).
      intros H. by apply reported_init in H.
    + intros Hf sched'. by apply failed_run.
    + intros i task pick Hw Hf.
      exists (set_worker i WDone s). unfold worker_step. rewrite Hw, Hf.
      assert (Hd : workers (set_worker i WDone s) !! i = Some WDone).
      { simpl. apply list_lookup_insert_eq. by eapply lookup_lt_Some. }
      split_and!; [done..|].
      intros sched'. pose proof (done_run env enc dir sched' _ i Hd) as Hd'.
      split; [done|]. intros pick'. unfold worker_step. by rewrite Hd'.
    + intros i task pick Hw. unfold worker_step. rewrite Hw.
      destruct (writeImageFile _ _ _ _ _ _ _) as [[[]|err] w']; eexists; split; done.
  - cbv zeta. repeat split; try (vm_compute; reflexivity).
    + apply finish_terminal.
Qed.

(** C4, on a concrete run. *)
Lemma eventual_stop_after_failure_witness :
  let s := run mixed_env (PNGEncoder mixed_env) "out"
             (until_first_failure ++ [(Worker 0, 0)])%list
             (init_pool mixed_tasks 3 world0) in
  workers s !! 0%nat = Some (WLoad {| Index := 3; TaskImg := sample_rgba [Byte.x04] |})
  /\ failed s = true
  /\ (exists s',
        worker_step mixed_env (PNGEncoder mixed_env) "out" 0 0 s = Some s'
        /\ workers s' !! 0%nat = Some WDone
        /\ world s' = world s /\ resultChan s' = resultChan s)
  /\ (exists s',
        worker_step mixed_env (PNGEncoder mixed_env) "out" 0 1 s = Some s'
        /\ world s'
           = (writeImageFile mixed_env 0 (sample_rgba [Byte.x02])
                (PNGEncoder mixed_env) "out" 1 (world s)).2).
Proof.
  cbv zeta.
  destruct eventual_stop_after_failure as [Hgen _].
  destruct (Hgen mixed_env (PNGEncoder mixed_env) "out" mixed_tasks 3%nat world0
              (until_first_failure ++ [(Worker 0, 0)])%list)
    as (Hflag & _ & Hobserve & Hflight).
  assert (Hf : failed (run mixed_env (PNGEncoder mixed_env) "out"
                         (until_first_failure ++ [(Worker 0, 0)])%list
                         (init_pool mixed_tasks 3 world0)) = true).
  { apply Hflag. left. exists (encode_error "01"). vm_compute. left. }
  split; [vm_compute; reflexivity|]. split; [exact Hf|]. split.
  - destruct (Hobserve 0%nat {| Index := 3; TaskImg := sample_rgba [Byte.x04] |} 0%nat)
      as (s' & Hstep & Hd & Hw & Hr & _).
    + vm_compute. reflexivity.
    + exact Hf.
    + exists s'. split; [exact Hstep|]. split; [exact Hd|]. split; [exact Hw | exact Hr].
  - apply (Hflight 1%nat {| Index := 1; TaskImg := sample_rgba [Byte.x02] |} 0%nat).
    vm_compute. reflexivity.
Defined.

(** C5 as stated fails.  The format [original] is not in the encoder
    registry, yet the run succeeds, reading and writing files; and with an
    unregistered format and an output directory that cannot be created, the
    error returned is that of [os.Mkdir], not the unsupported-format error. *)
Lemma unregistered_format_counterexample :
  (encoderRegistry demo_env !! ToLower demo_env "original" = None
   /\ (ExtractImagesFromFile demo_env [] "doc.pdf" "out" "original" world0).1 = Ok tt
   /\ reads (trace (ExtractImagesFromFile demo_env [] "doc.pdf" "out" "original" world0).2)
      = ["/tmp/pdfimg1/a.png"; "/tmp/pdfimg1/b.png"; "/tmp/pdfimg1/c.jpg"]
   /\ files_written
        (trace (ExtractImagesFromFile demo_env [] "doc.pdf" "out" "original" world0).2)
      = [("out/image_0000.png", [Byte.x01; Byte.x02]); ("out/image_0001.jpg", [Byte.x03])])
  /\ (encoderRegistry denied_env !! ToLower denied_env "gif" = None
      /\ (ExtractImagesFromFile denied_env [] "doc.pdf" "out" "gif" world0).1
         = Err (PathError "mkdir" "out" EACCES)).
Proof. repeat split; vm_compute; reflexivity. Qed.

(** C5 (amended). For a format other than [original] and the empty string
    whose lower-case form is not in the encoder registry, the pipeline fails
    having done nothing but try to create the output directory: no
    extraction, no read, no write.  The error is the unsupported-format
    error once the directory is there, and the directory-creation error
    otherwise. *)
Theorem unsupported_format_fails_before_reading env sched filename imgDir format w :
  format <> "original" -> format <> "" ->
  encoderRegistry env !! ToLower env format = None ->
  exists e,
    ExtractImagesFromFile env sched filename imgDir format w
    = (Err e, {| trace := trace w ++ [EvMkdir imgDir]; bufferPool := bufferPool w |})
    /\ (output_dir_ready env imgDir -> e = unsupported env format)
    /\ (forall err, os_Mkdir env imgDir = Some err -> os_IsExist err = false -> e = err).
Proof.
  intros Ho He Hreg. rewrite ExtractImagesFromFile_eq.
  assert (Hfmt : extract_by_format env sched filename imgDir format (log w (EvMkdir imgDir))
                 = (Err (unsupported env format), log w (EvMkdir imgDir))).
  { unfold extract_by_format.
    destruct (String.eqb_spec format "original") as [|_]; [done|].
    destruct (String.eqb_spec format "") as [|_]; [done|].
    cbn [orb]. rewrite bind_eq. unfold lift, GetEncoder. cbv zeta. by rewrite Hreg. }
  unfold output_dir_ready.
  destruct (os_Mkdir env imgDir) as [err|] eqn:Hmk.
  - destruct (os_IsExist err) eqn:Hex.
    + exists (unsupported env format). rewrite Hfmt. split_and!; [done|done|].
      intros err' [= <-] Hex'. congruence.
    + exists err. split_and!; [done| |].
      * intros Hex'. congruence.
      * by intros err' [= <-] _.
  - exists (unsupported env format). rewrite Hfmt. split_and!; done.
Qed.

(** C5, on a concrete run. *)
Lemma unsupported_format_fails_before_reading_witness :
  ExtractImagesFromFile demo_env [] "doc.pdf" "out" "gif" world0
  = (Err (ErrorString "unsupported format: gif"),
     {| trace := [EvMkdir "out"]; bufferPool := [] |}).
Proof.
  destruct (unsupported_format_fails_before_reading demo_env [] "doc.pdf" "out" "gif" world0)
    as (e & Hrun & He & _).
  - discriminate.
  - discriminate.
  - vm_compute. reflexivity.
  - rewrite Hrun. rewrite He by exact I. reflexivity.
Defined.

(** C6 as stated fails, twice.  The file [A.PNG] is kept and written as
    [image_0000.png]: its extension [.PNG] is lower-cased, not preserved.
    And a file without extension is not read at all and nothing is written
    for it, neither under the [.png] default nor otherwise: the run on the
    directory holding only [noext] returns [nil] without a read or a
    write. *)
Lemma original_extension_counterexample :
  (let r := processExtractedFilesSequential upper_env
              [{| Name := "A.PNG"; IsDir := false |}] sample_tmp "out" world0 in
   r.1 = Ok tt
   /\ files_written (trace r.2) = [("out/image_0000.png", [Byte.x01])]
   /\ Ext "A.PNG" = ".PNG"
   /\ filepath_Join upper_env "out" (Sprintf_image 0 (Ext "A.PNG")) = "out/image_0000.PNG"
   /\ "out/image_0000.png" <> "out/image_0000.PNG")
  /\ (let r := processExtractedFilesSequential noext_env
                 [{| Name := "noext"; IsDir := false |}] sample_tmp "out" world0 in
      Ext "noext" = ""
      /\ os_ReadFile noext_env (filepath_Join noext_env sample_tmp "noext") = Ok [Byte.x01]
      /\ r.1 = Ok tt
      /\ reads (trace r.2) = []
      /\ files_written (trace r.2) = []).
Proof. cbv zeta. repeat split; try (vm_compute; reflexivity). discriminate. Qed.

(** C6 (amended). A successful run of the sequential strategy reads each
    recognized regular file once, in directory order, and no other entry: a
    directory, and a file whose extension is not recognized, among them
    every file without extension, is neither read nor written.  It keeps the
    first file of each fingerprint: the kept files are written with exactly
    the bytes read, the k-th kept file (from 0, duplicates not counted)
    under the name [image_%04d] of k followed by the file's extension in
    lower case, which is one of the seven recognized extensions, so that the
    [.png] default for an empty extension is never used; later files with a
    fingerprint already seen are not written, and their number is what the
    console line reports. *)
Theorem sequential_strategy_keeps_first_occurrences env files tempDir imgDir w w' :
  processExtractedFilesSequential env files tempDir imgDir w = (Ok tt, w') ->
  exists (items kept : list (DirEntry * bytes)) evs,
    fst <$> items = recognized_files env files
    /\ Forall (fun it =>
         os_ReadFile env (filepath_Join env tempDir (Name it.1)) = Ok it.2) items
    /\ trace w' = (trace w ++ evs)%list
    /\ reads evs = (fun it => filepath_Join env tempDir (Name it.1)) <$> items
    /\ kept = first_occurrences (fun it => hashBytes env it.2) [] items
    /\ sublist kept items
    /\ NoDup ((fun it => hashBytes env it.2) <$> kept)
    /\ (forall it, it ∈ items ->
          hashBytes env it.2 ∈ (fun it => hashBytes env it.2) <$> kept)
    /\ (forall it, it ∈ kept ->
          exists l1 l2, items = (l1 ++ it :: l2)%list
                        /\ hashBytes env it.2 ∉ (fun it => hashBytes env it.2) <$> l1)
    /\ files_written evs =
         imap (fun k it => (filepath_Join env imgDir
                              (Sprintf_image k (kept_ext env (Name it.1))), it.2)) kept
    /\ (forall it, it ∈ kept -> kept_ext env (Name it.1) = ToLower env (Ext (Name it.1)))
    /\ failed_writes evs = []
    /\ (prints evs =
         if (0 <? length items - length kept)%nat
         then [Sprintf_skipped (length items - length kept)] else [])
    /\ (forall it, it ∈ items ->
          it.1 ∈ files /\ IsDir it.1 = false
          /\ ToLower env (Ext (Name it.1)) ∈ image_extensions
          /\ Ext (Name it.1) <> ""
          /\ kept_ext env (Name it.1) ∈ image_extensions)
    /\ (forall f, f ∈ files ->
          IsDir f = true \/ Ext (Name f) = ""
          \/ ToLower env (Ext (Name f)) ∉ image_extensions ->
          f ∉ fst <$> items).
Proof.
  intros Hrun.
  destruct (processExtractedFilesSequential_ok _ _ _ _ _ _ Hrun)
    as (items & evs & Hit & Hrd & Htr & _ & Hreads & Hfw & Hw & Hpr).
  assert (Hrec : forall f, f ∈ fst <$> items ->
            f ∈ files /\ IsDir f = false
            /\ ToLower env (Ext (Name f)) ∈ image_extensions /\ Ext (Name f) <> "").
  { intros f Hf. rewrite Hit in Hf. unfold recognized_files in Hf.
    apply list_elem_of_filter in Hf as [[Hd Hi] Hin].
    apply isImageFile_extensions in Hi. split_and!; [done|done|done|].
    intros He. rewrite He in Hi. unfold image_extensions in Hi.
    repeat (apply elem_of_cons in Hi as [Hi|Hi]; [discriminate|]). inversion Hi. }
  exists items, (first_occurrences (fun it => hashBytes env it.2) [] items), evs.
  split_and!; try done.

  - apply first_occurrences_sublist.
  - apply first_occurrences_NoDup.
  - intros it Hin.
    destruct (first_occurrences_cover (fun it : DirEntry * bytes => hashBytes env it.2)
                [] items it Hin) as [H|H]; [by inversion H|done].
  - intros it Hin.
    exact (first_occurrences_first (fun it : DirEntry * bytes => hashBytes env it.2)
             [] items it Hin).
  - intros it Hin. apply kept_ext_recognized.
    apply (recognized_files_image env _ files). rewrite <- Hit.
    apply list_elem_of_fmap. exists it. split; [done|].
    eapply elem_of_sublist; [exact Hin|]. apply first_occurrences_sublist.
  - intros it Hin.
    assert (it.1 ∈ fst <$> items) as Hf by (apply list_elem_of_fmap; by exists it).
    destruct (Hrec _ Hf) as (Hfiles & Hd & Hi & He). split_and!; try done.
    rewrite kept_ext_recognized; [done|]. by apply isImageFile_extensions.
  - intros f Hf Hbad Hin. destruct (Hrec f Hin) as (_ & Hd & Hi & He).
    destruct Hbad as [Hb|[Hb|Hb]]; [congruence|done|done].
Qed.

(** C6, on a concrete run. *)
Lemma sequential_strategy_keeps_first_occurrences_witness :
  processExtractedFilesSequential demo_env demo_entries sample_tmp "out" world0
  = (Ok tt,
     {| trace :=
          [ EvReadFile "/tmp/pdfimg1/a.png";
            EvWriteFile "out/image_0000.png" [Byte.x01; Byte.x02] None;
            EvReadFile "/tmp/pdfimg1/b.png";
            EvReadFile "/tmp/pdfimg1/c.jpg";
            EvWriteFile "out/image_0001.jpg" [Byte.x03] None;
            EvPrintf ("skipped 1 duplicate image(s)" ++ newline) ];
        bufferPool := [] |})
  /\ exists (items kept : list (DirEntry * bytes)) evs,
       fst <$> items = recognized_files demo_env demo_entries
       /\ files_written evs =
            imap (fun k it => (filepath_Join demo_env "out"
                                 (Sprintf_image k (kept_ext demo_env (Name it.1))), it.2)) kept.
Proof.
  assert (H : processExtractedFilesSequential demo_env demo_entries sample_tmp "out" world0
              = (Ok tt,
                 {| trace :=
                      [ EvReadFile "/tmp/pdfimg1/a.png";
                        EvWriteFile "out/image_0000.png" [Byte.x01; Byte.x02] None;
                        EvReadFile "/tmp/pdfimg1/b.png";
                        EvReadFile "/tmp/pdfimg1/c.jpg";
                        EvWriteFile "out/image_0001.jpg" [Byte.x03] None;
                        EvPrintf ("skipped 1 duplicate image(s)" ++ newline) ];
                    bufferPool := [] |})) by (vm_compute; reflexivity).
  split; [exact H|].
  destruct (sequential_strategy_keeps_first_occurrences _ _ _ _ _ _ H)
    as (items & kept & evs & Hit & _ & _ & _ & _ & _ & _ & _ & _ & Hw & _).
  exists items, kept, evs. split; [exact Hit | exact Hw].
Defined.

(** C7 as stated fails.  Of the six formats named, JPEG and TIFF are not
    matched as the claim has it: [photo.jpg] is recognized although [.jpg]
    is none of the six names, in any letter case; and [scan.tif], a TIFF
    file by its extension, is not recognized. *)
Lemma recognized_extensions_counterexample :
  isImageFile demo_env "photo.jpg" = true
  /\ Ext "photo.jpg" = ".jpg"
  /\ Forall (fun x => equal_fold ".jpg" x = false) named_formats
  /\ isImageFile demo_env "scan.tif" = false
  /\ Ext "scan.tif" = ".tif".
Proof. repeat split; try (vm_compute; reflexivity). repeat constructor. Qed.

(** C7 (amended). A name is recognized exactly when its extension,
    lower-cased as [strings.ToLower] does, is one of the seven extensions
    [.png .jpg .jpeg .gif .bmp .tiff .webp].  For an ASCII name this is a
    case-insensitive match: the name is recognized exactly when its
    extension equals one of the seven up to the case of its letters, and two
    names that differ only in the case of letters are treated alike.  For an
    extension that is not ASCII the Unicode lower-casing of the library
    decides.  Entries that are not recognized are passed over by both loops:
    the run is the run on the recognized entries alone.  A directory holding
    only a file with extension [.xyz], with format [png], gives [nil], no
    read and no write. *)
Theorem unrecognized_files_are_skipped :
  (forall env name,
     isImageFile env name = true <-> ToLower env (Ext name) ∈ image_extensions)
  /\ (forall env name,
        isASCII name = true ->
        (isImageFile env name = true
         <-> exists x, x ∈ image_extensions /\ equal_fold (Ext name) x = true))
  /\ (forall env name1 name2,
        isASCII name1 = true -> equal_fold name1 name2 = true ->
        isImageFile env name1 = isImageFile env name2)
  /\ (forall env name,
        isASCII (Ext name) = false ->
        (isImageFile env name = true
         <-> strings_Map_unicode_ToLower env (Ext name) ∈ image_extensions))
  /\ (forall env tempDir files acc w,
        load_loop env tempDir files acc w
        = load_loop env tempDir (recognized env files) acc w)
  /\ (forall env tempDir imgDir files seen dupCount uniqueCount w,
        sequential_loop env tempDir imgDir files seen dupCount uniqueCount w
        = sequential_loop env tempDir imgDir (recognized_files env files) seen
            dupCount uniqueCount w)
  /\ (forall env sched filename imgDir tempDir name w,
        output_dir_ready env imgDir ->
        os_MkdirTemp env "" "pdfimg" = Ok tempDir ->
        api_ExtractImagesFile env filename tempDir = None ->
        os_ReadDir env tempDir = Ok [{| Name := name; IsDir := false |}] ->
        Ext name = ".xyz" ->
        ExtractImagesFromFile env sched filename imgDir "png" w
        = (Ok tt,
           {| trace := trace w
                       ++ [ EvMkdir imgDir; EvMkdirTemp "" "pdfimg";
                            EvExtractImagesFile filename tempDir;
                            EvReadDir tempDir; EvRemoveAll tempDir ];
              bufferPool := bufferPool w |})).
Proof.
  split; [exact isImageFile_extensions|].
  split; [exact isImageFile_fold|].
  split; [exact isImageFile_case|].
  split.
  { intros env name Hn. rewrite isImageFile_extensions. unfold ToLower. by rewrite Hn. }
  split; [intros; apply load_loop_skip|].
  split; [intros; apply sequential_loop_skip|].
  intros env sched filename imgDir tempDir name w Hready Htmp Hext Hdir Hxyz.
  rewrite ExtractImagesFromFile_ready by done.
  unfold extract_by_format.
  change (String.eqb "png" "original" || String.eqb "png" "") with false. cbv iota.
  rewrite bind_eq. unfold lift at 1. rewrite GetEncoder_png.
  erewrite extractImagesConcurrent_run; [|done..|].
  2:{ cbn [load_loop Name]. rewrite (isImageFile_xyz _ _ Hxyz). reflexivity. }
  cbn [length Nat.eqb]. unfold log. cbn [trace bufferPool].
  rewrite <- !app_assoc. reflexivity.
Qed.

(** C7, on concrete names and a concrete run: upper-case letters in the
    extension, the letter U+0130 lower-cased to [i], and the directory with
    one [.xyz] file. *)
Lemma unrecognized_files_are_skipped_witness :
  isImageFile demo_env "PHOTO.JPeG" = true
  /\ isImageFile demo_env "photo.JPG" = isImageFile demo_env "photo.jpg"
  /\ isImageFile demo_env ("x.G" ++ capital_I_with_dot ++ "F") = true
  /\ ExtractImagesFromFile xyz_env [] "doc.pdf" "out" "png" world0
     = (Ok tt,
        {| trace := [ EvMkdir "out"; EvMkdirTemp "" "pdfimg";
                      EvExtractImagesFile "doc.pdf" sample_tmp;
                      EvReadDir sample_tmp; EvRemoveAll sample_tmp ];
           bufferPool := [] |}).
Proof.
  destruct unrecognized_files_are_skipped as (_ & Hfold & Hcase & Huni & _ & _ & H).
  split_and!.
  - apply (Hfold demo_env "PHOTO.JPeG"); [reflexivity|].
    exists ".jpeg". split; [|reflexivity]. do 2 right. left.
  - apply (Hcase demo_env "photo.JPG" "photo.jpg"); reflexivity.
  - apply (Huni demo_env ("x.G" ++ capital_I_with_dot ++ "F")); [reflexivity|].
    vm_compute. do 3 right. left.
  - apply (H xyz_env [] "doc.pdf" "out" sample_tmp "notes.xyz" world0).
    + exact I.
    + reflexivity.
    + reflexivity.
    + reflexivity.
    + vm_compute. reflexivity.
Defined.

(** C8. [writeImageFile] puts the buffer it took back into the pool,
    emptied, whether it returns [nil], a write error or an encode error.
    Hence a pool holding only empty buffers still does after the call, every
    later [getBuffer] yields an empty buffer, and the bytes handed to
    [os.WriteFile] are exactly what the encoder produced for this image.
    The same holds throughout a batch, for every schedule, and from one call
    of [ExtractImagesFromFile] to the next. *)
Theorem buffers_returned_empty :
  (forall env pick img encoder imgDir index w,
     let r := writeImageFile env pick img encoder imgDir index w in
     bufferPool r.2 = pool_after pick (bufferPool w)
     /\ last (bufferPool r.2) = Some []
     /\ (forall e, snd (Encode encoder img) = Some e ->
           r.1 = Err (WrapError "encode: " e) /\ trace r.2 = trace w)
     /\ (pool_clean w ->
         pool_clean r.2
         /\ (forall pick', (getBuffer pick' r.2).1 = Ok [])
         /\ (snd (Encode encoder img) = None ->
             trace r.2 =
               (trace w ++ [EvWriteFile (out_path env imgDir encoder index)
                              (fst (Encode encoder img))
                              (os_WriteFile env (out_path env imgDir encoder index)
                                 (fst (Encode encoder img)))])%list)))
  /\ (forall env encoder imgDir tasks n w0 sched,
        pool_clean w0 ->
        pool_clean (world (run env encoder imgDir sched (init_pool tasks n w0))))
  /\ (forall env sched loadedImages imgDir encoder w,
        pool_clean w ->
        exists evs,
          trace (processImagesConcurrently env sched loadedImages imgDir encoder w).2
            = (trace w ++ evs)%list
          /\ Forall (named_by_index env encoder imgDir loadedImages) evs
          /\ pool_clean (processImagesConcurrently env sched loadedImages imgDir encoder w).2)
  /\ (forall env sched filename imgDir format w,
        pool_clean w ->
        pool_clean (ExtractImagesFromFile env sched filename imgDir format w).2).
Proof.
  split; [|split; [|split]].
  - intros env pick img enc dir idx w r. subst r. rewrite writeImageFile_eq. cbv zeta.
    assert (Hlast : last (pool_after pick (bufferPool w)) = Some []).
    { unfold pool_after. apply last_snoc. }
    split; [by destruct (snd (Encode enc img))|].
    split; [by destruct (snd (Encode enc img))|].
    split.
    { intros e ->. done. }
    intros Hclean.
    assert (Hc : pool_clean
              (match snd (Encode enc img) with
               | Some e => (Err (WrapError "encode: " e),
                            {| trace := trace w; bufferPool := pool_after pick (bufferPool w) |})
               | None => (of_error (os_WriteFile env (out_path env dir enc idx)
                                      (picked pick (bufferPool w) ++ (Encode enc img).1)%list),
                          {| trace := (trace w ++ [EvWriteFile (out_path env dir enc idx)
                                          (picked pick (bufferPool w) ++ (Encode enc img).1)%list
                                          (os_WriteFile env (out_path env dir enc idx)
                                             (picked pick (bufferPool w) ++ (Encode enc img).1)%list)])%list;
                             bufferPool := pool_after pick (bufferPool w) |})
               end).2).
    { destruct (snd (Encode enc img)); by apply pool_clean_after. }
    split; [exact Hc|]. split.
    + intros pick'. by apply getBuffer_clean.
    + intros ->. cbn [snd trace]. by rewrite (pool_clean_picked _ _ Hclean).
  - intros. by apply clean_run.
  - intros. by apply processImagesConcurrently_writes.
  - intros env sched filename imgDir format. apply keeps_clean_ExtractImagesFromFile.
Qed.

(** C8, on a concrete run. *)
Lemma buffers_returned_empty_witness :
  let r := writeImageFile failing_env 0 (sample_rgba [Byte.x01])
             (PNGEncoder failing_env) "out" 0 used_pool in
  r.1 = Err (encode_error "01")
  /\ trace r.2 = []
  /\ bufferPool r.2 = [[]; []]
  /\ pool_clean r.2
  /\ (getBuffer 1 r.2).1 = Ok []
  /\ pool_clean (world (run demo_env (WebPEncoder demo_env) "out" demo_schedule
                          (init_pool (make_tasks demo_unique) 2 used_pool)))
  /\ pool_clean (ExtractImagesFromFile demo_env demo_schedule "doc.pdf" "out" "webp"
                   used_pool).2.
Proof.
  cbv zeta.
  destruct buffers_returned_empty as (Hcall & Hrun & _ & Hall).
  destruct (Hcall failing_env 0%nat (sample_rgba [Byte.x01]) (PNGEncoder failing_env)
              "out" 0%nat used_pool) as (Hpool & _ & Hfail & Hclean).
  destruct (Hfail (ErrorString "cannot encode 01")) as [Hr Htr].
  { reflexivity. }
  destruct Hclean as (Hc & Hget & _).
  { repeat constructor. }
  split; [exact Hr|]. split; [exact Htr|]. split; [exact Hpool|].
  split; [exact Hc|]. split; [apply Hget|].
  split; [apply Hrun | apply Hall]; repeat constructor.
Defined.

(** C9. The sequential strategy numbers its kept files from 0 and the
    re-encoding strategy numbers its unique images from 1: the first file
    the sequential strategy writes is the first recognized file, under
    [image_0000<ext>], while the first unique image of a batch is written
    under [image_0001<ext>].  For one and the same directory holding
    [a.png], format [original] gives [image_0000.png] and format [png]
    gives [image_0001.png]. *)
Theorem strategies_use_different_index_bases :
  (forall env files tempDir imgDir w w',
     processExtractedFilesSequential env files tempDir imgDir w = (Ok tt, w') ->
     exists (items : list (DirEntry * bytes)) evs,
       fst <$> items = recognized_files env files
       /\ Forall (fun it =>
            os_ReadFile env (filepath_Join env tempDir (Name it.1)) = Ok it.2) items
       /\ trace w' = (trace w ++ evs)%list
       /\ head (files_written evs)
          = (fun it => (filepath_Join env imgDir ("image_0000" ++ kept_ext env (Name it.1)),
                        it.2)) <$> head items)
  /\ (forall env sched li rest imgDir encoder w,
        pool_clean w ->
        Forall (task_ok env encoder imgDir) (make_tasks (li :: rest)) ->
        exists evs w',
          processImagesConcurrently env sched (li :: rest) imgDir encoder w = (Ok tt, w')
          /\ trace w' = (trace w ++ evs)%list
          /\ EvWriteFile (filepath_Join env imgDir ("image_0001" ++ Extension encoder))
               (fst (Encode encoder (Img li))) None ∈ evs)
  /\ (files_written
        (trace (ExtractImagesFromFile single_env [] "doc.pdf" "out" "original" world0).2)
      = [("out/image_0000.png", [Byte.x01; Byte.x02])]
      /\ files_written
           (trace (ExtractImagesFromFile single_env [] "doc.pdf" "out" "png" world0).2)
         = [("out/image_0001.png", [Byte.x01; Byte.x02])]).
Proof.
  split; [|split].
  - intros env files tempDir imgDir w w' Hrun.
    destruct (processExtractedFilesSequential_ok _ _ _ _ _ _ Hrun)
      as (items & evs & Hit & Hrd & Htr & _ & _ & _ & Hw & _).
    exists items, evs. split_and!; [done..|].
    rewrite Hw. destruct items as [|it items]; [done|]. reflexivity.
  - intros env sched li rest dir enc w Hclean Hok.
    destruct (processImagesConcurrently_success env sched (li :: rest) dir enc w Hclean Hok)
      as (evs & w' & Hrun & Htr & Hperm & _).
    exists evs, w'. split_and!; [done..|].
    rewrite Hperm. rewrite imap_cons. left.
  - split; vm_compute; reflexivity.
Qed.

(** C9, on a concrete run. *)
Lemma strategies_use_different_index_bases_witness :
  (exists evs w',
     processImagesConcurrently single_env [(Worker 1, 0); (Main, 0)]
       [ {| Img := sample_rgba [Byte.x01; Byte.x02]; FileHash := "0102" |} ] "out"
       (PNGEncoder single_env) world0 = (Ok tt, w')
     /\ trace w' = (trace world0 ++ evs)%list
     /\ EvWriteFile "out/image_0001.png" [Byte.x01; Byte.x02] None ∈ evs)
  /\ exists (items : list (DirEntry * bytes)) evs,
       fst <$> items = recognized_files single_env [{| Name := "a.png"; IsDir := false |}]
       /\ head (files_written evs)
          = (fun it => (filepath_Join single_env "out"
                          ("image_0000" ++ kept_ext single_env (Name it.1)), it.2)) <$> head items.
Proof.
  destruct strategies_use_different_index_bases as (Hseq & Hconc & _).
  split.
  - apply (Hconc single_env [(Worker 1, 0); (Main, 0)]
             {| Img := sample_rgba [Byte.x01; Byte.x02]; FileHash := "0102" |} []
             "out" (PNGEncoder single_env) world0).
    + constructor.
    + repeat constructor.
  - destruct (Hseq single_env [{| Name := "a.png"; IsDir := false |}] sample_tmp "out" world0
                (processExtractedFilesSequential single_env
                   [{| Name := "a.png"; IsDir := false |}] sample_tmp "out" world0).2)
      as (items & evs & Hit & _ & _ & Hhd).
    + vm_compute. reflexivity.
    + exists items, evs. split; [exact Hit | exact Hhd].
Defined.

(** C10. When [os.Mkdir] reports that the output directory already exists
    ([EEXIST]) the run goes on exactly as it does when the directory was
    created, into the same directory; any other error of [os.Mkdir] is
    returned at once, the creation attempt being the only effect. *)
Theorem existing_output_directory_is_reused env sched filename imgDir format w :
  let proceed :=
    extract_by_format env sched filename imgDir format (log w (EvMkdir imgDir)) in
  (os_Mkdir env imgDir = None ->
   ExtractImagesFromFile env sched filename imgDir format w = proceed)
  /\ (forall err,
        os_Mkdir env imgDir = Some err -> os_IsExist err = true ->
        ExtractImagesFromFile env sched filename imgDir format w = proceed)
  /\ (forall err,
        os_Mkdir env imgDir = Some err -> os_IsExist err = false ->
        ExtractImagesFromFile env sched filename imgDir format w
        = (Err err,
           {| trace := trace w ++ [EvMkdir imgDir]; bufferPool := bufferPool w |}))
  /\ (forall op path, os_IsExist (PathError op path EEXIST) = true).
Proof.
  cbv zeta. rewrite ExtractImagesFromFile_eq. split; [|split; [|split]].
  - by intros ->.
  - by intros err -> ->.
  - by intros err -> ->.
  - done.
Qed.

(** C10, on a concrete run. *)
Lemma existing_output_directory_is_reused_witness :
  os_Mkdir existing_env "out" = Some (PathError "mkdir" "out" EEXIST)
  /\ ExtractImagesFromFile existing_env [] "doc.pdf" "out" "original" world0
     = extract_by_format existing_env [] "doc.pdf" "out" "original"
         (log world0 (EvMkdir "out"))
  /\ (ExtractImagesFromFile existing_env [] "doc.pdf" "out" "original" world0).1 = Ok tt
  /\ os_Mkdir denied_env "out" = Some (PathError "mkdir" "out" EACCES)
  /\ ExtractImagesFromFile denied_env [] "doc.pdf" "out" "original" world0
     = (Err (PathError "mkdir" "out" EACCES),
        {| trace := [EvMkdir "out"]; bufferPool := [] |}).
Proof.
  split; [reflexivity|]. split.
  - destruct (existing_output_directory_is_reused existing_env [] "doc.pdf" "out"
                "original" world0) as (_ & H & _).
    apply (H (PathError "mkdir" "out" EEXIST)); reflexivity.
  - split; [vm_compute; reflexivity|]. split; [reflexivity|].
    destruct (existing_output_directory_is_reused denied_env [] "doc.pdf" "out"
                "original" world0) as (_ & _ & H & _).
    apply (H (PathError "mkdir" "out" EACCES)); reflexivity.
Defined.

(** * Further properties *)

(** ** Accounting for the tasks of a batch *)

Lemma carried_insert (l : list wstate) i x y :
  l !! i = Some x ->
  (carried x ++ (<[i := y]> l ≫= carried) ≡ₚ carried y ++ (l ≫= carried))%list.
Proof.
  revert i. induction l as [|a l IH]; intros [|i] H; simpl in *; try discriminate.
  - inversion H; subst. rewrite !app_assoc. f_equiv. apply Permutation_app_comm.
  - specialize (IH _ H). unfold mbind in IH.
    rewrite !app_assoc.
    rewrite (Permutation_app_comm (carried x) (carried a)).
    rewrite (Permutation_app_comm (carried y) (carried a)).
    rewrite <- !app_assoc. by f_equiv.
Qed.

Lemma elem_of_insert_keep (l : list wstate) i x y z :
  l !! i = Some x -> z ∈ l -> z = x \/ z ∈ <[i := y]> l.
Proof.
  intros Hx Hz. apply list_elem_of_lookup in Hz as [j Hj].
  destruct (decide (i = j)) as [->|Hne].
  - left. congruence.
  - right. apply list_elem_of_lookup. exists j. by rewrite list_lookup_insert_ne.
Qed.

Lemma elem_of_insert_new (l : list wstate) i x y :
  l !! i = Some x -> y ∈ <[i := y]> l.
Proof.
  intros Hx. apply list_elem_of_lookup. exists i.
  apply list_lookup_insert_eq. by eapply lookup_lt_Some.
Qed.

(** On an empty buffer, [writeImageFile] is [task_result] and
    [task_events]. *)
Lemma writeImageFile_task env pick enc dir task w :
  pool_clean w ->
  writeImageFile env pick (TaskImg task) enc dir (Index task) w
  = (of_error (task_result env enc dir task),
     {| trace := trace w ++ task_events env enc dir task;
        bufferPool := pool_after pick (bufferPool w) |}).
Proof.
  intros Hclean. rewrite writeImageFile_eq. cbv zeta.
  rewrite (pool_clean_picked _ _ Hclean). unfold task_result, task_events. simpl.
  destruct (snd (Encode enc (TaskImg task))); [|done].
  by rewrite app_nil_r.
Qed.

Lemma holding_replicate n : replicate n WRecv ≫= held = [].
Proof. induction n; simpl; done. Qed.

Lemma carried_replicate n : replicate n WRecv ≫= carried = [].
Proof. induction n; simpl; done. Qed.

Lemma ledger_init env enc dir tasks w0 n :
  pool_clean w0 -> ledger env enc dir tasks w0 n (init_pool tasks n w0).
Proof.
  intros Hc. constructor; simpl; try done.
  - by apply sound_init.
  - apply length_replicate.
  - intros _ Hd. apply elem_of_replicate in Hd as [Hd _]. discriminate.
  - exists [], []. simpl. unfold holding. simpl.
    rewrite holding_replicate, carried_replicate, !app_nil_r. done.
Qed.

(** A failure already reported stays reported when worker [i] moves from a
    state that carries none. *)
Ltac keep_reported Gset Hw :=
  let Hf := fresh "Hf" in
  let e := fresh "e" in
  let He := fresh "He" in
  intros Hf; unfold reported; simpl; destruct (Gset Hf) as [[e He]|[e He]];
  [ left; by exists e
  | right; exists e;
    match goal with
    | |- _ ∈ <[_ := ?y]> _ =>
      destruct (elem_of_insert_keep _ _ _ y _ Hw He) as [?|?]; [discriminate | done]
    end ].

Lemma ledger_step env enc dir tasks w0 n a b c :
  ledger env enc dir tasks w0 n a ->
  step_thread env enc dir c a = Some b ->
  ledger env enc dir tasks w0 n b.
Proof.
  intros G Hstep.
  assert (Hsound : sound env enc dir tasks w0 b).
  { eapply sound_step; [apply G | exact Hstep]. }
  assert (Hclean : pool_clean (world a)) by apply G.
  destruct c as [[|i] pick]; unfold step_thread in Hstep; simpl in Hstep.
  - unfold main_step in Hstep. destruct (pending a) as [|task rest] eqn:Hp.
    + destruct (closed a) eqn:Hc; [done|]. injection Hstep as <-.
      destruct G as [_ Glen Gcl Gset Gdone (processed & dropped & Htr & Hperm & Hres & Hdrop)].
      constructor; simpl; [done | done | done | done | | ].
      * intros Hf Hd. destruct (Gdone Hf Hd). congruence.
      * exists processed, dropped. by rewrite Hp in Hperm.
    + injection Hstep as <-.
      destruct G as [_ Glen Gcl Gset Gdone (processed & dropped & Htr & Hperm & Hres & Hdrop)].
      assert (closed a = false) as Hc.
      { destruct (closed a); [|done]. specialize (Gcl eq_refl). congruence. }
      constructor; simpl; [done | done | | done | | ].
      * intros Hd. congruence.
      * intros Hf Hd. destruct (Gdone Hf Hd). congruence.
      * exists processed, dropped. split_and!; [done | | done | done].
        rewrite Hperm, Hp. unfold holding. simpl. solve_Permutation.
  - worker_cases Hstep;
      destruct G as [_ Glen Gcl Gset Gdone (processed & dropped & Htr & Hperm & Hres & Hdrop)];
      unfold reported in *.
    + (* receive on the closed, drained channel *)
      pose proof (holding_insert _ _ _ WDone Hw) as Hh.
      pose proof (carried_insert _ _ _ WDone Hw) as Hk. simpl in Hh, Hk.
      constructor; simpl;
        [ done | by rewrite length_insert | done | keep_reported Gset Hw | done | ].
      exists processed, dropped. unfold holding in *. simpl.
      split_and!; [done | by rewrite Hh | by rewrite Hk | done].
    + (* receive a task *)
      pose proof (holding_insert _ _ _ (WLoad task) Hw) as Hh.
      pose proof (carried_insert _ _ _ (WLoad task) Hw) as Hk. simpl in Hh, Hk.
      constructor; simpl;
        [ done | by rewrite length_insert | done | keep_reported Gset Hw | | ].
      * intros Hf Hd. apply elem_of_insert_other in Hd as [Hd|Hd]; [done|].
        destruct (Gdone Hf Hd) as [_ Hq']. congruence.
      * exists processed, dropped. unfold holding in *. simpl.
        split_and!; [done | | by rewrite Hk | done].
        rewrite Hh, Hperm, Hq. solve_Permutation.
    + (* flag observed set: the task is dropped *)
      pose proof (holding_insert _ _ _ WDone Hw) as Hh.
      pose proof (carried_insert _ _ _ WDone Hw) as Hk. simpl in Hh, Hk.
      constructor; simpl;
        [ done | by rewrite length_insert | done | keep_reported Gset Hw | | ].
      * intros Hf'. congruence.
      * exists processed, (task :: dropped). unfold holding in *. simpl.
        split_and!; [done | | by rewrite Hk | intros Hf'; congruence].
        rewrite Hperm, <- Hh. solve_Permutation.
    + (* flag observed clear *)
      pose proof (holding_insert _ _ _ (WWrite task) Hw) as Hh.
      pose proof (carried_insert _ _ _ (WWrite task) Hw) as Hk. simpl in Hh, Hk.
      apply Permutation_cons_inv in Hh.
      constructor; simpl;
        [ done | by rewrite length_insert | done | keep_reported Gset Hw | | ].
      * intros Hf' Hd. apply elem_of_insert_other in Hd as [Hd|Hd]; [done|]. auto.
      * exists processed, dropped. unfold holding in *. simpl.
        split_and!; [done | by rewrite Hh | by rewrite Hk | done].
    + (* writeImageFile returned nil *)
      pose proof (holding_insert _ _ _ (WSend None) Hw) as Hh.
      pose proof (carried_insert _ _ _ (WSend None) Hw) as Hk. simpl in Hh, Hk.
      rewrite (writeImageFile_task _ _ _ _ _ _ Hclean) in Hwr.
      destruct (task_result env enc dir task) as [e|] eqn:Hres'; [discriminate|].
      injection Hwr as <-.
      constructor; simpl;
        [ done | by rewrite length_insert | done | keep_reported Gset Hw | | ].
      * intros Hf' Hd. apply elem_of_insert_other in Hd as [Hd|Hd]; [done|]. auto.
      * exists (processed ++ [task])%list, dropped. unfold holding in *. simpl.
        split_and!; [ | | | done].
        -- rewrite Htr, bind_app, <- app_assoc. simpl. by rewrite app_nil_r.
        -- rewrite Hperm, <- Hh. solve_Permutation.
        -- rewrite fmap_app. simpl. rewrite Hres', Hres, Hk. solve_Permutation.
    + (* writeImageFile returned an error *)
      pose proof (holding_insert _ _ _ (WStore err) Hw) as Hh.
      pose proof (carried_insert _ _ _ (WStore err) Hw) as Hk. simpl in Hh, Hk.
      rewrite (writeImageFile_task _ _ _ _ _ _ Hclean) in Hwr.
      destruct (task_result env enc dir task) as [e|] eqn:Hres'; [|discriminate].
      injection Hwr as <- <-.
      constructor; simpl;
        [ done | by rewrite length_insert | done | keep_reported Gset Hw | | ].
      * intros Hf' Hd. apply elem_of_insert_other in Hd as [Hd|Hd]; [done|]. auto.
      * exists (processed ++ [task])%list, dropped. unfold holding in *. simpl.
        split_and!; [ | | | done].
        -- rewrite Htr, bind_app, <- app_assoc. simpl. by rewrite app_nil_r.
        -- rewrite Hperm, <- Hh. solve_Permutation.
        -- rewrite fmap_app. simpl. rewrite Hres', Hres, Hk. solve_Permutation.
    + (* store *)
      pose proof (holding_insert _ _ _ (WSend (Some err)) Hw) as Hh.
      pose proof (carried_insert _ _ _ (WSend (Some err)) Hw) as Hk. simpl in Hh, Hk.
      apply Permutation_cons_inv in Hk.
      constructor; simpl; [ done | by rewrite length_insert | done | | done | ].
      * intros _. unfold reported. simpl. right. exists err. by eapply elem_of_insert_new.
      * exists processed, dropped. unfold holding in *. simpl.
        split_and!; [done | by rewrite Hh | by rewrite Hk | done].
    + (* send *)
      pose proof (holding_insert _ _ _ WRecv Hw) as Hh.
      pose proof (carried_insert _ _ _ WRecv Hw) as Hk. simpl in Hh, Hk.
      constructor; simpl; [ done | by rewrite length_insert | done | | | ].
      * intros Hf. unfold reported. simpl. destruct (Gset Hf) as [[e He]|[e He]].
        -- left. exists e. apply elem_of_app. by left.
        -- destruct (elem_of_insert_keep _ _ _ WRecv _ Hw He) as [Heq|Hin].
           ++ injection Heq as <-. left. exists e. apply elem_of_app. right. by left.
           ++ right. by exists e.
      * intros Hf' Hd. apply elem_of_insert_other in Hd as [Hd|Hd]; [done|]. auto.
      * exists processed, dropped. unfold holding in *. simpl.
        split_and!; [done | by rewrite Hh | | done].
        rewrite Hres, <- Hk. solve_Permutation.
Qed.

Lemma pool_final_ledger env sched loaded dir enc w :
  pool_clean w ->
  ledger env enc dir (make_tasks loaded) w (getWorkerCount env)
    (pool_final env sched loaded dir enc w).
Proof.
  intros Hclean. unfold pool_final.
  eapply reachable_invariant; [apply final_reachable | by apply ledger_init |].
  intros a b c Ha Hab. by eapply ledger_step.
Qed.

Lemma carried_done (l : list wstate) :
  Forall (fun ws => ws = WDone) l -> l ≫= carried = [].
Proof. induction 1 as [|ws l -> _ IH]; simpl; done. Qed.

Lemma collect_None_inv results :
  collect None results = None -> Forall (fun r => r = None) results.
Proof.
  induction results as [|[e|] rs IH]; simpl; intros H.
  - constructor.
  - by rewrite collect_Some in H.
  - constructor; auto.
Qed.

Lemma imap_offset_seq {A} (l : list A) k :
  imap (fun i _ => (k + i)%nat) l = seq k (length l).
Proof.
  revert k. induction l as [|x l IH]; intros k; [done|].
  rewrite imap_cons. simpl. rewrite Nat.add_0_r. f_equal.
  rewrite <- (IH (S k)). apply imap_ext. intros i y _. simpl. lia.
Qed.

Lemma make_tasks_Index loaded : Index <$> make_tasks loaded = seq 0 (length loaded).
Proof.
  unfold make_tasks. rewrite fmap_imap, <- imap_offset_seq. by apply imap_ext.
Qed.

Lemma task_events_ok env enc dir task :
  task_result env enc dir task = None ->
  task_ok env enc dir task /\ task_events env enc dir task = [write_event env enc dir task].
Proof.
  unfold task_result, task_ok, task_events, write_event.
  destruct (snd (Encode enc (TaskImg task))); [done|]. by intros ->.
Qed.

Lemma bind_task_events_ok env enc dir processed :
  Forall (fun task => task_result env enc dir task = None) processed ->
  processed ≫= task_events env enc dir = write_event env enc dir <$> processed.
Proof.
  induction 1 as [|task l H _ IH]; [done|].
  rewrite bind_cons, fmap_cons, IH. by destruct (task_events_ok _ _ _ _ H) as [_ ->].
Qed.

Lemma pool_nil_result env sched loadedImages imgDir encoder w w' :
  pool_clean w ->
  processImagesConcurrently env sched loadedImages imgDir encoder w = (Ok tt, w') ->
  Forall (task_ok env encoder imgDir) (make_tasks loadedImages)
  /\ exists evs,
       trace w' = (trace w ++ evs)%list
       /\ evs ≡ₚ imap (image_write env encoder imgDir) loadedImages.
Proof.
  intros Hclean Hrun. unfold processImagesConcurrently in Hrun.
  pose proof (pool_final_ledger env sched loadedImages imgDir encoder w Hclean) as G.
  destruct (finish_terminal env encoder imgDir
              (run env encoder imgDir sched
                 (init_pool (make_tasks loadedImages) (getWorkerCount env) w)))
    as (Hp & Hc & Hall).
  fold (pool_final env sched loadedImages imgDir encoder w) in Hp, Hc, Hall.
  set (s := pool_final env sched loadedImages imgDir encoder w) in *.
  injection Hrun as Hres <-.
  assert (Hnone : Forall (fun r => r = None) (resultChan s)).
  { apply collect_None_inv. by destruct (collect None (resultChan s)). }
  destruct G as [_ Glen _ Gset Gdone (processed & dropped & Htr & Hperm & Hrs & Hdrop)].
  assert (Hf : failed s = false).
  { destruct (failed s) eqn:Hf; [|done]. destruct (Gset eq_refl) as [[e He]|[e He]].
    - eapply Forall_forall in Hnone; [|exact He]. discriminate.
    - eapply Forall_forall in Hall; [|exact He]. discriminate. }
  assert (Hd : WDone ∈ workers s).
  { pose proof (getWorkerCount_pos env).
    destruct (workers s) as [|ws l] eqn:E; [simpl in Glen; lia|].
    inversion Hall; subst. by left. }
  destruct (Gdone Hf Hd) as [_ Hq]. rewrite (Hdrop Hf) in Hperm.
  unfold holding in Hperm. rewrite Hp, Hq, (holding_done _ Hall), !app_nil_r in Hperm.
  simpl in Hperm.
  rewrite (carried_done _ Hall), app_nil_r in Hrs.
  assert (Hok : Forall (fun task => task_result env encoder imgDir task = None) processed).
  { apply Forall_forall. intros task Hin.
    assert (task_result env encoder imgDir task ∈ resultChan s) as Hr.
    { rewrite <- Hrs. apply list_elem_of_fmap. by exists task. }
    eapply Forall_forall in Hnone; [|exact Hr]. done. }
  split.
  - rewrite Hperm. eapply Forall_impl; [exact Hok|].
    intros task H. by apply task_events_ok.
  - exists (processed ≫= task_events env encoder imgDir). split; [done|].
    rewrite (bind_task_events_ok _ _ _ _ Hok), <- write_event_make_tasks. by rewrite Hperm.
Qed.

(** X1. Started with a pool of empty buffers, the worker pool returns
    [nil] exactly when no task can fail, whatever the schedule; and when it
    returns [nil], every unique image has been encoded and written, once,
    under the name its position gives. *)
Theorem nil_result_means_every_image_written
    env sched loadedImages imgDir encoder w :
  pool_clean w ->
  let r := processImagesConcurrently env sched loadedImages imgDir encoder w in
  (r.1 = Ok tt <-> Forall (task_ok env encoder imgDir) (make_tasks loadedImages))
  /\ (r.1 = Ok tt ->
      exists evs,
        trace r.2 = (trace w ++ evs)%list
        /\ evs ≡ₚ imap (image_write env encoder imgDir) loadedImages).
Proof.
  intros Hclean r.
  assert (Hnil : r.1 = Ok tt ->
            Forall (task_ok env encoder imgDir) (make_tasks loadedImages)
            /\ exists evs,
                 trace r.2 = (trace w ++ evs)%list
                 /\ evs ≡ₚ imap (image_write env encoder imgDir) loadedImages).
  { intros Hr. apply (pool_nil_result env sched loadedImages imgDir encoder w r.2 Hclean).
    subst r. destruct (processImagesConcurrently _ _ _ _ _ _) as [r w']. cbn in *.
    by subst. }
  split; [split|].
  - intros Hr. by destruct (Hnil Hr).
  - intros Hok.
    destruct (processImagesConcurrently_success env sched loadedImages imgDir encoder w
                Hclean Hok) as (evs & w' & Hrun & _).
    subst r. by rewrite Hrun.
  - intros Hr. by destruct (Hnil Hr).
Qed.

(** X2. In every schedule, with or without failures, [writeImageFile] runs
    at most once per unique image: the tasks processed are part of the tasks
    made, with pairwise distinct indices.  The writes of the batch are those
    of the processed tasks in the order of completion, the result channel
    received one value per processed task, and an error returned by the
    batch is the error of one of them. *)
Theorem each_image_processed_at_most_once env sched loadedImages imgDir encoder w :
  pool_clean w ->
  let s := pool_final env sched loadedImages imgDir encoder w in
  exists processed unprocessed,
    make_tasks loadedImages ≡ₚ (processed ++ unprocessed)%list
    /\ NoDup (Index <$> processed)
    /\ trace (world s) = (trace w ++ (processed ≫= task_events env encoder imgDir))%list
    /\ resultChan s ≡ₚ task_result env encoder imgDir <$> processed
    /\ (unprocessed <> [] -> failed s = true)
    /\ forall e,
         (processImagesConcurrently env sched loadedImages imgDir encoder w).1 = Err e ->
         exists task, task ∈ processed /\ task_result env encoder imgDir task = Some e.
Proof.
  intros Hclean s.
  pose proof (pool_final_ledger env sched loadedImages imgDir encoder w Hclean) as G.
  destruct (finish_terminal env encoder imgDir
              (run env encoder imgDir sched
                 (init_pool (make_tasks loadedImages) (getWorkerCount env) w)))
    as (Hp & Hc & Hall).
  fold (pool_final env sched loadedImages imgDir encoder w) in Hp, Hc, Hall. fold s in G, Hp, Hc, Hall.
  destruct G as [_ Glen _ Gset Gdone (processed & dropped & Htr & Hperm & Hrs & Hdrop)].
  unfold holding in Hperm. rewrite Hp, (holding_done _ Hall) in Hperm. simpl in Hperm.
  rewrite (carried_done _ Hall), app_nil_r in Hrs.
  exists processed, (taskChan s ++ dropped)%list.
  assert (Hperm' : make_tasks loadedImages ≡ₚ (processed ++ taskChan s ++ dropped)%list).
  { rewrite Hperm. solve_Permutation. }
  split_and!; [done | | done | done | | ].
  - assert (Hnd : NoDup (Index <$> make_tasks loadedImages)).
    { rewrite make_tasks_Index. apply NoDup_seq. }
    rewrite Hperm', fmap_app in Hnd. by apply NoDup_app in Hnd as [Hnd _].
  - intros Hne. destruct (failed s) eqn:Hf; [done|]. exfalso. apply Hne.
    rewrite (Hdrop eq_refl), app_nil_r.
    assert (Hd : WDone ∈ workers s).
    { pose proof (getWorkerCount_pos env).
      destruct (workers s) as [|ws l] eqn:E; [simpl in Glen; lia|].
      inversion Hall; subst. by left. }
    by destruct (Gdone eq_refl Hd).
  - intros e He. unfold processImagesConcurrently in He. cbn [fst] in He. fold s in He.
    rewrite collect_first_error in He.
    destruct (head (omap id (resultChan s))) as [e'|] eqn:Hh; [|discriminate].
    injection He as ->.
    assert (Some e ∈ resultChan s) as Hin.
    { apply head_Some_elem_of in Hh. apply list_elem_of_omap in Hh as (r & Hr & Hid).
      simpl in Hid. by subst. }
    rewrite <- Hrs in Hin. apply list_elem_of_fmap in Hin as (task & Heq & Hin). eauto.
Qed.

(** X1, on a concrete run. *)
Lemma nil_result_means_every_image_written_witness :
  (processImagesConcurrently demo_env demo_schedule demo_unique "out"
     (WebPEncoder demo_env) world0).1 = Ok tt
  /\ Forall (task_ok demo_env (WebPEncoder demo_env) "out") (make_tasks demo_unique)
  /\ exists evs,
       trace (processImagesConcurrently demo_env demo_schedule demo_unique "out"
                (WebPEncoder demo_env) world0).2 = ([] ++ evs)%list
       /\ evs ≡ₚ imap (image_write demo_env (WebPEncoder demo_env) "out") demo_unique.
Proof.
  assert (H : (processImagesConcurrently demo_env demo_schedule demo_unique "out"
                 (WebPEncoder demo_env) world0).1 = Ok tt) by (vm_compute; reflexivity).
  destruct (nil_result_means_every_image_written demo_env demo_schedule demo_unique "out"
              (WebPEncoder demo_env) world0) as [Hiff Hev].
  - constructor.
  - split; [exact H|]. split; [exact (proj1 Hiff H) | exact (Hev H)].
Defined.

(** X2, on a concrete run. *)
Lemma each_image_processed_at_most_once_witness :
  (processImagesConcurrently mixed_env mixed_schedule mixed_images "out"
     (PNGEncoder mixed_env) world0).1 = Err (encode_error "01")
  /\ exists processed unprocessed,
       make_tasks mixed_images ≡ₚ (processed ++ unprocessed)%list
       /\ NoDup (Index <$> processed)
       /\ exists task,
            task ∈ processed
            /\ task_result mixed_env (PNGEncoder mixed_env) "out" task
               = Some (encode_error "01").
Proof.
  assert (H : (processImagesConcurrently mixed_env mixed_schedule mixed_images "out"
                 (PNGEncoder mixed_env) world0).1 = Err (encode_error "01"))
    by (vm_compute; reflexivity).
  split; [exact H|].
  destruct (each_image_processed_at_most_once mixed_env mixed_schedule mixed_images "out"
              (PNGEncoder mixed_env) world0)
    as (processed & unprocessed & Hperm & Hnd & _ & _ & _ & Herr).
  - constructor.
  - exists processed, unprocessed. split; [exact Hperm|]. split; [exact Hnd|].
    exact (Herr _ H).
Defined.

Lemma actions_bound env enc dir sched s :
  (actions env enc dir sched s <= measure s)%nat.
Proof.
  revert s. induction sched as [|c sched IH]; intros s; simpl; [lia|].
  destruct (step_thread env enc dir c s) as [s'|] eqn:E; [|apply IH].
  apply step_thread_measure in E. specialize (IH s'). lia.
Qed.

Lemma measure_init tasks n w :
  measure (init_pool tasks n w) = (7 * length tasks + n + 1)%nat.
Proof.
  unfold measure. simpl.
  assert (sum_list (rank <$> replicate n WRecv) = n) as ->; [|lia].
  induction n; simpl; [done|]. unfold fmap in *. lia.
Qed.

Lemma stuck_terminal env enc dir s :
  (forall c, step_thread env enc dir c s = None) -> terminal s.
Proof.
  intros Hstuck. apply (next_step_none env enc dir). unfold next_step.
  specialize (Hstuck (Main, 0%nat)) as Hm. unfold step_thread in Hm. simpl in Hm.
  rewrite Hm. generalize (seq 0 (length (workers s))).
  intros ids. induction ids as [|i ids IH]; simpl; [done|].
  specialize (Hstuck (Worker i, 0%nat)) as Hi. unfold step_thread in Hi. simpl in Hi.
  by rewrite Hi.
Qed.

(** X3. A batch cannot deadlock and cannot run for ever: a state in which
    no goroutine can move is one in which all of them have returned, no
    schedule makes more than [7 * len(tasks) + numWorkers + 1] moves, and
    the state in which the batch returns is terminal. *)
Theorem batch_terminates_without_deadlock :
  (forall env encoder imgDir s,
     (forall c, step_thread env encoder imgDir c s = None) -> terminal s)
  /\ (forall env encoder imgDir sched tasks n w,
        (actions env encoder imgDir sched (init_pool tasks n w)
         <= 7 * length tasks + n + 1)%nat)
  /\ (forall env sched loadedImages imgDir encoder w,
        terminal (pool_final env sched loadedImages imgDir encoder w)).
Proof.
  split; [|split].
  - apply stuck_terminal.
  - intros env enc dir sched tasks n w. rewrite <- (measure_init tasks n w).
    apply actions_bound.
  - intros. apply finish_terminal.
Qed.

(** X3, on a concrete state: nothing can move once every worker has
    returned. *)
Lemma batch_terminates_without_deadlock_witness :
  terminal (pool_final mixed_env mixed_schedule mixed_images "out"
              (PNGEncoder mixed_env) world0)
  /\ (actions mixed_env (PNGEncoder mixed_env) "out" mixed_schedule
        (init_pool mixed_tasks 3 world0) <= 7 * 4 + 3 + 1)%nat.
Proof.
  destruct batch_terminates_without_deadlock as (_ & Hbound & Hterm).
  split; [apply Hterm|].
  apply (Hbound mixed_env (PNGEncoder mixed_env) "out" mixed_schedule mixed_tasks 3%nat world0).
Defined.

(** X4. The two channels are made with room for [len(tasks)] values and
    never need more: whatever the schedule, the task queue never holds more
    than [len(tasks)] tasks, and whenever a worker is about to send a result
    the result channel holds fewer than [len(tasks)] values.  So neither the
    main goroutine nor a worker ever blocks on a send. *)
Theorem channel_sends_never_block env encoder imgDir sched tasks n w :
  let s := run env encoder imgDir sched (init_pool tasks n w) in
  (length (taskChan s) <= length tasks)%nat
  /\ (length (taskChan s) + length (pending s) <= length tasks)%nat
  /\ forall i r, workers s !! i = Some (WSend r) ->
       (length (resultChan s) < length tasks)%nat.
Proof.
  intros s.
  assert (Hacc : (accounted s <= length tasks)%nat).
  { subst s. rewrite <- (accounted_init tasks n w).
    generalize (init_pool tasks n w).
    induction sched as [|c sched IH]; intros s0; simpl; [done|].
    destruct (step_thread env encoder imgDir c s0) eqn:E; [|apply IH].
    etrans; [apply IH|]. by eapply accounted_step. }
  unfold accounted in Hacc. split; [lia|]. split; [lia|].
  intros i r Hw. pose proof (sum_busy_lookup _ _ _ Hw) as Hb. simpl in Hb. lia.
Qed.

(** X4, on a concrete state: worker 0 about to send the first result. *)
Lemma channel_sends_never_block_witness :
  let s := run mixed_env (PNGEncoder mixed_env) "out"
             (firstn 13 until_first_failure) (init_pool mixed_tasks 3 world0) in
  workers s !! 0%nat = Some (WSend (Some (encode_error "01")))
  /\ (length (resultChan s) < length mixed_tasks)%nat.
Proof.
  cbv zeta.
  assert (H : workers (run mixed_env (PNGEncoder mixed_env) "out"
                         (firstn 13 until_first_failure)
                         (init_pool mixed_tasks 3 world0)) !! 0%nat
              = Some (WSend (Some (encode_error "01")))) by (vm_compute; reflexivity).
  split; [exact H|].
  destruct (channel_sends_never_block mixed_env (PNGEncoder mixed_env) "out"
              (firstn 13 until_first_failure) mixed_tasks 3%nat world0) as (_ & _ & Hroom).
  exact (Hroom _ _ H).
Defined.

(** ** Fingerprints, names and extensions *)

Lemma hex_value_high b : hex_value (hex_digit (Byte.to_N b / 16)) = Some (Byte.to_N b / 16)%N.
Proof. destruct b; vm_compute; reflexivity. Qed.

Lemma hex_value_low b :
  hex_value (hex_digit (Byte.to_N b mod 16)) = Some (Byte.to_N b mod 16)%N.
Proof. destruct b; vm_compute; reflexivity. Qed.

Lemma byte_of_digits b :
  Byte.of_N (16 * (Byte.to_N b / 16) + Byte.to_N b mod 16) = Some b.
Proof. destruct b; vm_compute; reflexivity. Qed.

Lemma unhex_byte b rest :
  unhex (hex_byte b ++ rest)
  = match unhex rest with Some data => Some (b :: data) | None => None end.
Proof.
  change (hex_byte b ++ rest)
    with (String (hex_digit (Byte.to_N b / 16))
            (String (hex_digit (Byte.to_N b mod 16)) rest)).
  cbn [unhex].
  rewrite hex_value_high, hex_value_low. destruct (unhex rest); [|done].
  by rewrite byte_of_digits.
Qed.

Lemma unhex_Sprintf_x data : unhex (Sprintf_x data) = Some data.
Proof.
  induction data as [|b data IH]; [done|].
  cbn [Sprintf_x]. by rewrite unhex_byte, IH.
Qed.

Lemma string_app_String c s t : String c s ++ t = String c (s ++ t).
Proof. reflexivity. Qed.

Lemma string_app_Empty t : "" ++ t = t.
Proof. reflexivity. Qed.

Lemma string_app_length s t : String.length (s ++ t) = (String.length s + String.length t)%nat.
Proof.
  induction s as [|c s IH]; [done|]. rewrite string_app_String. cbn [String.length]. by rewrite IH.
Qed.

Lemma Sprintf_x_length data : String.length (Sprintf_x data) = (2 * length data)%nat.
Proof.
  induction data as [|b data IH]; [done|].
  cbn [Sprintf_x]. rewrite string_app_length, IH. cbn [hex_byte String.length length]. lia.
Qed.

(** X5. The fingerprint [hashBytes] makes of a file loses nothing of its
    digest: two files have the same fingerprint exactly when they have the
    same digest, the digest can be read back from the fingerprint, and the
    fingerprint has two characters per byte of the digest. *)
Theorem hash_key_is_faithful_to_digest env d1 d2 :
  (hashBytes env d1 = hashBytes env d2 <-> sha256_Sum env d1 = sha256_Sum env d2)
  /\ unhex (hashBytes env d1) = Some (sha256_Sum env d1)
  /\ String.length (hashBytes env d1) = (2 * length (sha256_Sum env d1))%nat.
Proof.
  unfold hashBytes. split_and!.
  - split; [|by intros ->].
    intros H. apply (f_equal unhex) in H. rewrite !unhex_Sprintf_x in H. by injection H.
  - apply unhex_Sprintf_x.
  - apply Sprintf_x_length.
Qed.

Lemma uint_of_string_zero s :
  NilEmpty.uint_of_string (String "0" s)
  = match NilEmpty.uint_of_string s with Some d => Some (Decimal.D0 d) | None => None end.
Proof. cbn. by destruct (NilEmpty.uint_of_string s). Qed.

Lemma decimal_value_zero s : decimal_value (String "0" s) = decimal_value s.
Proof.
  unfold decimal_value. rewrite uint_of_string_zero.
  by destruct (NilEmpty.uint_of_string s).
Qed.

Lemma decimal_value_zeros k s : decimal_value (zeros k ++ s) = decimal_value s.
Proof.
  induction k as [|k IH]; [done|]. cbn [zeros]. rewrite string_app_String.
  by rewrite decimal_value_zero.
Qed.

Lemma decimal_value_itoa n : decimal_value (itoa n) = Some n.
Proof.
  unfold decimal_value, itoa.
  assert (Hnz : Nat.to_uint n <> Decimal.Nil).
  { intros H. pose proof (f_equal Nat.of_uint H) as H'.
    rewrite Unsigned.of_to in H'. cbn in H'. subst n. discriminate H. }
  replace (NilZero.string_of_uint (Nat.to_uint n))
    with (NilEmpty.string_of_uint (Nat.to_uint n))
    by (by destruct (Nat.to_uint n)).
  rewrite NilEmpty.usu. by rewrite Unsigned.of_to.
Qed.

Lemma decimal_value_pad04 n : decimal_value (pad04 n) = Some n.
Proof. unfold pad04. by rewrite decimal_value_zeros, decimal_value_itoa. Qed.

Lemma all_digits_app s t : all_digits (s ++ t) = all_digits s && all_digits t.
Proof.
  induction s as [|c s IH]; [done|]. rewrite string_app_String. cbn [all_digits].
  by rewrite IH, andb_assoc.
Qed.

Lemma all_digits_zeros k : all_digits (zeros k) = true.
Proof. induction k; [done|]. cbn. done. Qed.

Lemma all_digits_uint d : all_digits (NilEmpty.string_of_uint d) = true.
Proof. induction d; cbn; try done. Qed.

Lemma all_digits_itoa n : all_digits (itoa n) = true.
Proof.
  unfold itoa. destruct (Nat.to_uint n) eqn:E; try apply all_digits_uint. done.
Qed.

Lemma all_digits_pad04 n : all_digits (pad04 n) = true.
Proof. unfold pad04. by rewrite all_digits_app, all_digits_zeros, all_digits_itoa. Qed.

Lemma digit_not_dot c : is_digit c = true -> Ascii.eqb c "."%char = false.
Proof.
  intros H. destruct (Ascii.eqb_spec c "."%char) as [->|]; [|done]. by vm_compute in H.
Qed.

Lemma digits_then_dot d : forall d' e e',
  all_digits d = true -> all_digits d' = true ->
  dotted e = true -> dotted e' = true ->
  d ++ e = d' ++ e' -> d = d' /\ e = e'.
Proof.
  induction d as [|c d IH]; intros [|c' d'] e e' Hd Hd' He He'; rewrite ?string_app_String, ?string_app_Empty;
    intros H.
  - done.
  - subst e. cbn in He, Hd'. apply andb_prop in Hd' as [Hc _].
    apply digit_not_dot in Hc. congruence.
  - subst e'. cbn in He', Hd. apply andb_prop in Hd as [Hc _].
    apply digit_not_dot in Hc. congruence.
  - injection H as -> H. cbn in Hd, Hd'.
    apply andb_prop in Hd as [_ Hd]. apply andb_prop in Hd' as [_ Hd'].
    destruct (IH d' e e' Hd Hd' He He' H) as [-> ->]. done.
Qed.

Lemma Sprintf_image_inj n m e e' :
  dotted e = true -> dotted e' = true ->
  Sprintf_image n e = Sprintf_image m e' -> n = m /\ e = e'.
Proof.
  intros He He' H. unfold Sprintf_image in H.
  apply (inj (String.app "image_")) in H.
  apply digits_then_dot in H as [H ->]; auto using all_digits_pad04.
  split; [|done]. apply (f_equal decimal_value) in H.
  rewrite !decimal_value_pad04 in H. by injection H.
Qed.

Lemma image_extensions_dotted e : e ∈ image_extensions -> dotted e = true.
Proof.
  unfold image_extensions. rewrite !elem_of_cons, elem_of_nil.
  intros [->|[->|[->|[->|[->|[->|[->|[]]]]]]]]; reflexivity.
Qed.

Lemma GetEncoder_cases env format :
  match GetEncoder env format with
  | Ok encoder =>
    (ToLower env format = "png" /\ encoder = PNGEncoder env)
    \/ (ToLower env format = "webp" /\ encoder = WebPEncoder env)
  | Err e =>
    ToLower env format <> "png" /\ ToLower env format <> "webp" /\ e = unsupported env format
  end.
Proof.
  unfold GetEncoder, encoderRegistry, unsupported. cbv zeta.
  destruct (decide (ToLower env format = "png")) as [->|Hp].
  { rewrite lookup_insert_eq. by left. }
  rewrite lookup_insert_ne by done.
  destruct (decide (ToLower env format = "webp")) as [->|Hw].
  { rewrite lookup_insert_eq. by right. }
  rewrite lookup_insert_ne by done. rewrite lookup_empty. done.
Qed.

(** X6. Output names do not collide.  With an encoder of the registry,
    [writeImageFile] gives different indices different names; in the
    sequential strategy two kept files with the same output name have the
    same counter and the same extension.  The number can be read back from
    the name: [%04d] prints at least four digits, whose value it is. *)
Theorem output_names_never_collide :
  (forall env format encoder i j,
     GetEncoder env format = Ok encoder ->
     Sprintf_image (i + 1) (Extension encoder)
     = Sprintf_image (j + 1) (Extension encoder) ->
     i = j)
  /\ (forall env name1 name2 k1 k2,
        isImageFile env name1 = true -> isImageFile env name2 = true ->
        Sprintf_image k1 (kept_ext env name1) = Sprintf_image k2 (kept_ext env name2) ->
        k1 = k2 /\ kept_ext env name1 = kept_ext env name2)
  /\ (forall n e, decimal_value (pad04 n) = Some n
                  /\ String.length (Sprintf_image n e)
                     = (6 + String.length (pad04 n) + String.length e)%nat
                  /\ (4 <= String.length (pad04 n))%nat).
Proof.
  split_and!.
  - intros env format encoder i j Henc H.
    pose proof (GetEncoder_cases env format) as Hc. rewrite Henc in Hc.
    assert (Hd : dotted (Extension encoder) = true) by (by destruct Hc as [[_ ->]|[_ ->]]).
    apply Sprintf_image_inj in H as [H _]; [lia|done|done].
  - intros env name1 name2 k1 k2 H1 H2 H.
    apply Sprintf_image_inj in H; [done| |].
    + rewrite kept_ext_recognized by done.
      by apply image_extensions_dotted, isImageFile_extensions.
    + rewrite kept_ext_recognized by done.
      by apply image_extensions_dotted, isImageFile_extensions.
  - intros n e. split_and!.
    + apply decimal_value_pad04.
    + unfold Sprintf_image. rewrite !string_app_length. cbn [String.length]. lia.
    + unfold pad04. rewrite string_app_length.
      assert (forall k, String.length (zeros k) = k) as ->
        by (induction k; cbn; congruence).
      lia.
Qed.

(** X6, on a concrete run. *)
Lemma output_names_never_collide_witness :
  (forall i j,
     Sprintf_image (i + 1) (Extension (WebPEncoder demo_env))
     = Sprintf_image (j + 1) (Extension (WebPEncoder demo_env)) -> i = j)
  /\ (Sprintf_image 3 (kept_ext demo_env "a.PNG")
      = Sprintf_image 3 (kept_ext demo_env "b.png") ->
      3%nat = 3%nat /\ kept_ext demo_env "a.PNG" = kept_ext demo_env "b.png").
Proof.
  split.
  - intros i j. apply (proj1 output_names_never_collide demo_env "WebP"). reflexivity.
  - apply (proj1 (proj2 output_names_never_collide) demo_env); reflexivity.
Defined.

Lemma get_Some s : forall i, (i < String.length s)%nat -> exists c, String.get i s = Some c.
Proof.
  induction s as [|a s IH]; intros i Hi; cbn in Hi; [lia|].
  destruct i; cbn; [eauto|]. apply IH. lia.
Qed.

Lemma substring_app_r s t :
  substring (String.length s) (String.length t) (s ++ t) = t.
Proof.
  induction s as [|a s IH]; [|by rewrite string_app_String].
  rewrite string_app_Empty. cbn [String.length]. induction t as [|b t IHt]; [done|].
  cbn. destruct t; cbn in *; congruence.
Qed.

Lemma plain_get e : forall i c,
  plain e = true -> String.get i e = Some c ->
  IsPathSeparator c = false /\ Ascii.eqb c "."%char = false.
Proof.
  induction e as [|a e IH]; intros i c Hp Hg; [by destruct i|].
  cbn in Hp. apply andb_prop in Hp as [Ha Hp]. apply andb_prop in Ha as [Hs Hd].
  destruct i; cbn in Hg.
  - injection Hg as <-. split; by apply negb_true_iff.
  - eauto.
Qed.

Lemma dotless_get e : forall i c,
  dotless e = true -> String.get i e = Some c -> Ascii.eqb c "."%char = false.
Proof.
  induction e as [|a e IH]; intros i c Hp Hg; [by destruct i|].
  cbn in Hp. apply andb_prop in Hp as [Hd Hp].
  destruct i; cbn in Hg.
  - injection Hg as <-. by apply negb_true_iff.
  - eauto.
Qed.

Lemma Ext_loop_suffix stem e k :
  plain e = true -> (k <= String.length e)%nat ->
  Ext_loop (stem ++ "." ++ e) (String.length stem + 1 + k) = "." ++ e.
Proof.
  intros Hp. induction k as [|k IH]; intros Hk.
  - replace (String.length stem + 1 + 0)%nat with (S (String.length stem)) by lia.
    cbn [Ext_loop].
    assert (Hg : String.get (String.length stem) (stem ++ "." ++ e) = Some "."%char).
    { pose proof (append_correct2 stem ("." ++ e) 0) as H. cbn [Nat.add] in H.
      rewrite <- H. by rewrite string_app_String. }
    rewrite Hg.
    change (IsPathSeparator ".") with false. cbv iota.
    change (Ascii.eqb "." ".") with true. cbv iota.
    rewrite string_app_length.
    replace (String.length stem + String.length ("." ++ e) - String.length stem)%nat
      with (String.length ("." ++ e)) by lia.
    apply substring_app_r.
  - replace (String.length stem + 1 + S k)%nat with (S (String.length stem + 1 + k)) by lia.
    cbn [Ext_loop].
    destruct (get_Some e k) as [c Hc]; [lia|].
    assert (Hg : String.get (String.length stem + 1 + k) (stem ++ "." ++ e) = Some c).
    { replace (String.length stem + 1 + k)%nat with (S k + String.length stem)%nat by lia.
      rewrite <- append_correct2. rewrite string_app_String. cbn [String.get]. done. }
    rewrite Hg. destruct (plain_get e k c Hp Hc) as [-> ->]. apply IH. lia.
Qed.

Lemma Ext_suffix stem e : plain e = true -> Ext (stem ++ "." ++ e) = "." ++ e.
Proof.
  intros Hp. unfold Ext. rewrite string_app_length, string_app_String. cbn [String.length].
  rewrite string_app_Empty.
  replace (String.length stem + S (String.length e))%nat
    with (String.length stem + 1 + String.length e)%nat by lia.
  by apply (Ext_loop_suffix stem e).
Qed.

Lemma Ext_loop_dotless name n : dotless name = true -> Ext_loop name n = "".
Proof.
  intros Hd. induction n as [|n IH]; [done|]. cbn [Ext_loop].
  destruct (String.get n name) as [c|] eqn:Hg; [|done].
  destruct (IsPathSeparator c); [done|].
  by rewrite (dotless_get name n c Hd Hg).
Qed.

(** X7. [isImageFile] goes by the last suffix only.  For a name that ends
    in a dot followed by characters that are neither dots nor path
    separators, that suffix is the extension, and the name is recognized
    exactly when the suffix, lower-cased as [strings.ToLower] does, is one of
    the seven extensions: for an ASCII suffix, when it equals one of them up
    to the case of its letters; for another suffix, when the Unicode
    lower-casing of the library gives one of them.  A name without a dot is
    never recognized. *)
Theorem recognition_goes_by_last_suffix :
  (forall env stem e,
     plain e = true ->
     Ext (stem ++ "." ++ e) = "." ++ e
     /\ (isImageFile env (stem ++ "." ++ e) = true
         <-> ToLower env ("." ++ e) ∈ image_extensions))
  /\ (forall env stem e,
        plain e = true -> isASCII e = true ->
        (isImageFile env (stem ++ "." ++ e) = true
         <-> exists x, x ∈ image_extensions /\ equal_fold ("." ++ e) x = true))
  /\ (forall env stem e,
        plain e = true -> isASCII e = false ->
        (isImageFile env (stem ++ "." ++ e) = true
         <-> strings_Map_unicode_ToLower env ("." ++ e) ∈ image_extensions))
  /\ (forall env name, dotless name = true -> isImageFile env name = false).
Proof.
  split_and!.
  - intros env stem e Hp. split; [by apply Ext_suffix|].
    rewrite isImageFile_extensions. by rewrite Ext_suffix.
  - intros env stem e Hp Ha.
    rewrite isImageFile_extensions, Ext_suffix by done.
    rewrite ToLower_ascii by exact Ha.
    apply lower_bytes_fold, lower_bytes_extensions.
  - intros env stem e Hp Ha.
    rewrite isImageFile_extensions, Ext_suffix by done.
    unfold ToLower. change (isASCII ("." ++ e)) with (isASCII e). by rewrite Ha.
  - intros env name Hd. destruct (isImageFile env name) eqn:E; [|done].
    apply isImageFile_extensions in E. unfold Ext in E.
    rewrite Ext_loop_dotless in E by done. cbn in E.
    apply image_extensions_dotted in E. done.
Qed.

(** X7, on concrete names. *)
Lemma recognition_goes_by_last_suffix_witness :
  isImageFile demo_env "scan.old.JPeG" = true
  /\ isImageFile demo_env ("x.G" ++ capital_I_with_dot ++ "F") = true
  /\ isImageFile demo_env "Makefile" = false.
Proof.
  destruct recognition_goes_by_last_suffix as (_ & Hascii & Huni & Hnone).
  split_and!.
  - apply (Hascii demo_env "scan.old" "JPeG"); [reflexivity|reflexivity|].
    exists ".jpeg". split; [|reflexivity]. do 2 right. left.
  - apply (Huni demo_env "x" ("G" ++ capital_I_with_dot ++ "F")); [reflexivity|reflexivity|].
    vm_compute. do 3 right. left.
  - apply Hnone. reflexivity.
Defined.

Lemma equal_fold_literal s x :
  lower_bytes x = x -> equal_fold s x = true <-> lower_bytes s = x.
Proof. intros Hx. rewrite equal_fold_lower. by rewrite Hx. Qed.

(** X8. [GetEncoder] matches the format name without regard to case.  On an
    ASCII name it succeeds exactly when the name equals [png] or [webp] up to
    the case of its letters, with the PNG and the WebP encoder respectively,
    and fails with the unsupported-format error quoting the name in lower
    case otherwise.  On another name the Unicode lower-casing of the library
    decides in the same way.  The extension of the encoder returned is a dot
    followed by the lower-cased name. *)
Theorem encoder_lookup_ignores_case env :
  (forall format,
     isASCII format = true ->
     match GetEncoder env format with
     | Ok encoder =>
       (equal_fold format "png" = true /\ encoder = PNGEncoder env)
       \/ (equal_fold format "webp" = true /\ encoder = WebPEncoder env)
     | Err e =>
       equal_fold format "png" = false /\ equal_fold format "webp" = false
       /\ e = ErrorString ("unsupported format: " ++ lower_bytes format)
     end)
  /\ (forall format,
        isASCII format = false ->
        let lowered := strings_Map_unicode_ToLower env format in
        match GetEncoder env format with
        | Ok encoder =>
          (lowered = "png" /\ encoder = PNGEncoder env)
          \/ (lowered = "webp" /\ encoder = WebPEncoder env)
        | Err e =>
          lowered <> "png" /\ lowered <> "webp"
          /\ e = ErrorString ("unsupported format: " ++ lowered)
        end)
  /\ (forall format encoder,
        GetEncoder env format = Ok encoder ->
        Extension encoder = "." ++ ToLower env format).
Proof.
  split_and!.
  - intros format Ha. pose proof (GetEncoder_cases env format) as H.
    unfold unsupported in H. rewrite (ToLower_ascii env format Ha) in H.
    destruct (GetEncoder env format) as [encoder|e].
    + destruct H as [[H ->]|[H ->]]; [left|right]; (split; [|done]);
        by apply equal_fold_literal.
    + destruct H as (Hp & Hw & ->). split_and!; [| |done].
      * destruct (equal_fold format "png") eqn:E; [|done].
        by apply equal_fold_literal in E.
      * destruct (equal_fold format "webp") eqn:E; [|done].
        by apply equal_fold_literal in E.
  - intros format Ha lowered. pose proof (GetEncoder_cases env format) as H.
    unfold unsupported, ToLower in H. rewrite Ha in H. exact H.
  - intros format encoder Henc. pose proof (GetEncoder_cases env format) as H.
    rewrite Henc in H. by destruct H as [[-> ->]|[-> ->]].
Qed.

(** X8, on concrete names. *)
Lemma encoder_lookup_ignores_case_witness :
  GetEncoder demo_env "PnG" = Ok (PNGEncoder demo_env)
  /\ GetEncoder demo_env "WEBP" = Ok (WebPEncoder demo_env)
  /\ GetEncoder demo_env "Gif" = Err (ErrorString "unsupported format: gif").
Proof.
  destruct (encoder_lookup_ignores_case demo_env) as (Hascii & _ & _).
  split_and!.
  - pose proof (Hascii "PnG" eq_refl) as H.
    destruct (GetEncoder demo_env "PnG") as [encoder|e].
    + destruct H as [[_ ->]|[H _]]; [reflexivity|discriminate H].
    + destruct H as (H & _). discriminate H.
  - pose proof (Hascii "WEBP" eq_refl) as H.
    destruct (GetEncoder demo_env "WEBP") as [encoder|e].
    + destruct H as [[H _]|[_ ->]]; [discriminate H|reflexivity].
    + destruct H as (_ & H & _). discriminate H.
  - pose proof (Hascii "Gif" eq_refl) as H.
    destruct (GetEncoder demo_env "Gif") as [encoder|e].
    + destruct H as [[H _]|[H _]]; discriminate H.
    + destruct H as (_ & _ & ->). reflexivity.
Defined.

(** X9. [getWorkerCount] is at least one.  It is the value of
    [PIXF_WORKERS] when that is set and parses to a positive number, and four
    in every other case: variable empty, not a number, zero or negative. *)
Theorem worker_count_is_positive env :
  (1 <= getWorkerCount env)%nat
  /\ (forall n,
        os_Getenv env "PIXF_WORKERS" <> "" ->
        strconv_Atoi env (os_Getenv env "PIXF_WORKERS") = Ok n ->
        (0 < n)%Z ->
        getWorkerCount env = Z.to_nat n)
  /\ (getWorkerCount env = 4%nat
      \/ (os_Getenv env "PIXF_WORKERS" <> ""
          /\ strconv_Atoi env (os_Getenv env "PIXF_WORKERS")
             = Ok (Z.of_nat (getWorkerCount env))))
  /\ (os_Getenv env "PIXF_WORKERS" = "" -> getWorkerCount env = 4%nat)
  /\ (forall n, strconv_Atoi env (os_Getenv env "PIXF_WORKERS") = Ok n ->
        (n <= 0)%Z -> getWorkerCount env = 4%nat)
  /\ (forall e, strconv_Atoi env (os_Getenv env "PIXF_WORKERS") = Err e ->
        getWorkerCount env = 4%nat).
Proof.
  unfold getWorkerCount. cbv zeta.
  destruct (String.eqb_spec (os_Getenv env "PIXF_WORKERS") "") as [E|E]; cbn [negb].
  { split_and!; auto; try lia. intros n Hne. done. }
  destruct (strconv_Atoi env (os_Getenv env "PIXF_WORKERS")) as [n|e] eqn:Ha.
  - destruct (Z.gtb_spec n 0).
    + split_and!; try lia; try done.
      * intros n' _ [= <-] _. done.
      * right. split; [done|]. f_equal. lia.
      * intros n' [= <-]. lia.
    + split_and!; auto; try lia. intros n' _ [= <-] Hpos. lia.
  - split_and!; auto; try lia. intros n' _ [=].
Qed.

(** X9, on concrete environments: the value 2 taken from the variable, and
    the default for the empty value and for [many]. *)
Lemma worker_count_is_positive_witness :
  getWorkerCount demo_env = Z.to_nat 2
  /\ getWorkerCount (sample_env [] None "" no_bad) = 4%nat
  /\ getWorkerCount (sample_env [] None "many" no_bad) = 4%nat.
Proof.
  split_and!.
  - apply (proj1 (proj2 (worker_count_is_positive demo_env)) 2%Z);
      [discriminate|reflexivity|lia].
  - destruct (worker_count_is_positive (sample_env [] None "" no_bad))
      as (_ & _ & _ & H & _).
    apply H. reflexivity.
  - destruct (worker_count_is_positive (sample_env [] None "many" no_bad))
      as (_ & _ & _ & _ & _ & H).
    apply (H (ErrorString "strconv.Atoi: invalid syntax")). reflexivity.
Defined.

(** ** Effects and errors of the strategies *)

Lemma pool_error_origin env sched loaded dir enc w e :
  pool_clean w ->
  (processImagesConcurrently env sched loaded dir enc w).1 = Err e ->
  exists task, task ∈ make_tasks loaded /\ task_result env enc dir task = Some e.
Proof.
  intros Hclean He.
  pose proof (pool_final_ledger env sched loaded dir enc w Hclean) as G.
  destruct (finish_terminal env enc dir
              (run env enc dir sched
                 (init_pool (make_tasks loaded) (getWorkerCount env) w)))
    as (Hp & Hc & Hall).
  fold (pool_final env sched loaded dir enc w) in Hp, Hc, Hall.
  set (s := pool_final env sched loaded dir enc w) in *.
  destruct G as [_ _ _ _ _ (processed & dropped & Htr & Hperm & Hrs & Hdrop)].
  rewrite (carried_done _ Hall), app_nil_r in Hrs.
  unfold processImagesConcurrently in He. cbn [fst] in He. fold s in He.
  rewrite collect_first_error in He.
  destruct (head (omap id (resultChan s))) as [e'|] eqn:Hh; [|discriminate].
  injection He as ->.
  assert (Some e ∈ resultChan s) as Hin.
  { apply head_Some_elem_of in Hh. apply list_elem_of_omap in Hh as (r & Hr & Hid).
    simpl in Hid. by subst. }
  rewrite <- Hrs in Hin. apply list_elem_of_fmap in Hin as (task & Heq & Hin).
  exists task. split; [|done]. rewrite Hperm. rewrite !elem_of_app. auto.
Qed.

Lemma yields_ret {A} P Q (a : A) : yields P Q (mret a).
Proof. intros w Hw. split_and!; [done|by exists []; rewrite app_nil_r|done]. Qed.

Lemma yields_fail {A} P (Q : error -> Prop) e : Q e -> yields P Q (fail (A := A) e).
Proof.
  intros HQ w Hw. split_and!; [done|by exists []; rewrite app_nil_r|].
  by intros e' [= <-].
Qed.

Lemma yields_lift {A} P (Q : error -> Prop) (r : result A) :
  (forall e, r = Err e -> Q e) -> yields P Q (lift r).
Proof. intros HQ w Hw. split_and!; [done|by exists []; rewrite app_nil_r|done]. Qed.

Lemma yields_emit (P : Event -> Prop) Q ev : P ev -> yields P Q (emit ev).
Proof.
  intros HP w Hw. split_and!; [done| |done].
  exists [ev]. split; [done|]. by constructor.
Qed.

Lemma yields_bind {A B} P Q (m : M A) (k : A -> M B) :
  yields P Q m -> (forall a, yields P Q (k a)) -> yields P Q (m ≫= k).
Proof.
  intros Hm Hk w Hw. destruct (Hm w Hw) as (Hc & (evs & Ht & Hevs) & He).
  rewrite bind_eq. destruct (m w) as [[a|e] w1]; cbn [fst snd] in *.
  - destruct (Hk a w1 Hc) as (Hc2 & (evs2 & Ht2 & Hevs2) & He2).
    split_and!; [done| |exact He2].
    exists (evs ++ evs2)%list. rewrite Ht2, Ht, app_assoc. split; [done|].
    by apply Forall_app.
  - split_and!; [done|by exists evs|].
    intros e' [= <-]. by apply He.
Qed.

Lemma yields_call {A} (P : Event -> Prop) (Q : error -> Prop) ev (r : result A) ctx :
  P ev -> (forall e, r = Err e -> Q (WrapError ctx e)) -> yields P Q (call ev r ctx).
Proof.
  intros HP HQ. unfold call. apply yields_bind; [by apply yields_emit|].
  intros _. destruct r; [apply yields_ret|]. apply yields_fail. by apply HQ.
Qed.

Lemma yields_defer {A} P Q (cleanup : M unit) (body : M A) :
  yields P Q body -> yields P (fun _ => True) cleanup -> yields P Q (defer cleanup body).
Proof.
  intros Hb Hcl w Hw. destruct (Hb w Hw) as (Hc & (evs & Ht & Hevs) & He).
  unfold defer. destruct (body w) as [r w1]; cbn [fst snd] in *.
  destruct (Hcl w1 Hc) as (Hc2 & (evs2 & Ht2 & Hevs2) & _).
  split_and!; [done| |done].
  exists (evs ++ evs2)%list. rewrite Ht2, Ht, app_assoc. split; [done|].
  by apply Forall_app.
Qed.

Lemma yields_weaken {A} (P P' : Event -> Prop) (Q Q' : error -> Prop) (m : M A) :
  (forall ev, P ev -> P' ev) -> (forall e, Q e -> Q' e) ->
  yields P Q m -> yields P' Q' m.
Proof.
  intros HP HQ Hm w Hw. destruct (Hm w Hw) as (Hc & (evs & Ht & Hevs) & He).
  split_and!; [done| |by auto].
  exists evs. split; [done|]. by eapply Forall_impl.
Qed.

Lemma yields_load_loop env enc exts filename imgDir tempDir all files :
  os_ReadDir env tempDir = Ok all ->
  (forall f, f ∈ files -> f ∈ all) ->
  forall acc,
    yields (staged env exts filename imgDir tempDir)
      (concurrent_error env enc filename)
      (load_loop env tempDir files acc).
Proof.
  intros Hall. induction files as [|f rest IH]; intros Hsub acc; cbn [load_loop].
  { apply yields_ret. }
  assert (Hrest : forall g, g ∈ rest -> g ∈ all).
  { intros g Hg. apply Hsub. by right. }
  destruct (isImageFile env (Name f)) eqn:Himg; cbn [negb]; [|by apply IH].
  apply yields_bind.
  { apply yields_call.
    - exists all, f. split_and!; [done| |done|done]. apply Hsub. by left.
    - intros e He. by eapply from_ReadFile_data. }
  intros fileData. apply yields_bind.
  { apply yields_lift. intros e He.
    destruct (image_Decode env fileData) eqn:Hd; [done|].
    injection He as <-. by eapply from_Decode. }
  intros rawImg. by apply IH.
Qed.

Lemma yields_sequential_loop env filename imgDir tempDir all files :
  os_ReadDir env tempDir = Ok all ->
  (forall f, f ∈ files -> f ∈ all) ->
  forall seen dup uc,
    yields (staged env image_extensions filename imgDir tempDir)
      (sequential_error env filename)
      (sequential_loop env tempDir imgDir files seen dup uc).
Proof.
  intros Hall. induction files as [|f rest IH]; intros Hsub seen dup uc;
    cbn [sequential_loop].
  { apply yields_ret. }
  assert (Hrest : forall g, g ∈ rest -> g ∈ all).
  { intros g Hg. apply Hsub. by right. }
  destruct (IsDir f); cbn [orb]; [by apply IH|].
  destruct (isImageFile env (Name f)) eqn:Himg; cbn [negb]; [|by apply IH].
  apply yields_bind.
  { apply yields_call.
    - exists all, f. split_and!; [done| |done|done]. apply Hsub. by left.
    - intros e He. by eapply from_ReadFile_image. }
  intros fileData. cbv zeta.
  destruct (seen_get seen (hashBytes env fileData)); [by apply IH|].
  apply yields_bind; [|intros _; by apply IH].
  apply yields_call.
  - exists uc, (kept_ext env (Name f)). split_and!; [|done|done].
    rewrite kept_ext_recognized by done. by apply isImageFile_extensions.
  - intros e He. eapply from_WriteFile_image.
    destruct (os_WriteFile env _ fileData) eqn:Hw; [|done].
    injection He as <-. exact Hw.
Qed.

Lemma make_tasks_elem loaded task :
  task ∈ make_tasks loaded ->
  exists li, loaded !! Index task = Some li /\ TaskImg task = Img li.
Proof.
  unfold make_tasks. intros H. apply list_elem_of_lookup_1 in H as [i Hi].
  rewrite list_lookup_imap in Hi.
  destruct (loaded !! i) as [li|] eqn:E; [|done]. injection Hi as <-. eauto.
Qed.

Lemma yields_pool env sched loaded imgDir enc filename tempDir :
  yields (staged env [Extension enc] filename imgDir tempDir)
    (concurrent_error env enc filename)
    (processImagesConcurrently env sched loaded imgDir enc).
Proof.
  intros w Hw.
  pose proof (pool_final_sound env sched loaded imgDir enc w Hw) as [Hc _ (evs & Ht & Hevs) _].
  split_and!.
  - exact Hc.
  - exists evs. split; [exact Ht|]. eapply Forall_impl; [exact Hevs|].
    intros ev (task & _ & ->). exists (Index task + 1)%nat, (Extension enc).
    split_and!; [by left|done|done].
  - intros e He. destruct (pool_error_origin _ _ _ _ _ _ _ Hw He) as (task & _ & Hr).
    unfold task_result in Hr.
    destruct (snd (Encode enc (TaskImg task))) eqn:E.
    + injection Hr as <-. by eapply from_Encode.
    + by eapply from_WriteFile.
Qed.

Lemma pool_clean_log w ev : pool_clean w -> pool_clean (log w ev).
Proof. done. Qed.

Lemma yields_call_bind {A B} (P : Event -> Prop) (Q : error -> Prop) ev
    (r : result A) ctx (k : A -> M B) :
  P ev -> (forall e, r = Err e -> Q (WrapError ctx e)) ->
  (forall a, r = Ok a -> yields P Q (k a)) ->
  yields P Q (call ev r ctx ≫= k).
Proof.
  intros HP HQ Hk w Hw. rewrite bind_eq. destruct r as [a|e].
  - rewrite call_Ok.
    destruct (Hk a eq_refl (log w ev) (pool_clean_log w ev Hw))
      as (Hc & (evs & Ht & Hevs) & He).
    split_and!; [done| |done].
    exists (ev :: evs). rewrite Ht. cbn [log trace]. rewrite <- app_assoc.
    split; [done|]. by constructor.
  - rewrite call_Err. cbn [fst snd]. split_and!; [done| |].
    + exists [ev]. split; [done|]. by constructor.
    + intros e' [= <-]. by apply HQ.
Qed.

Lemma extractImagesConcurrent_bracket env sched filename imgDir enc w :
  pool_clean w ->
  let r := extractImagesConcurrent env sched filename imgDir enc w in
  pool_clean r.2
  /\ (exists evs, trace r.2 = (trace w ++ evs)%list
                  /\ bracketed env [Extension enc] filename imgDir evs)
  /\ (forall e, r.1 = Err e -> concurrent_error env enc filename e).
Proof.
  intros Hw r. subst r. unfold extractImagesConcurrent, bracketed. rewrite bind_eq.
  destruct (os_MkdirTemp env "" "pdfimg") as [tempDir|e] eqn:Htmp;
    [rewrite call_Ok | rewrite call_Err].
  2:{ cbn [fst snd]. split_and!; [done|by eexists|].
      intros e' [= <-]. constructor. by apply from_MkdirTemp. }
  unfold defer.
  match goal with |- context [let (_, _) := ?b _ in _] =>
    assert (Hb : yields (staged env [Extension enc] filename imgDir tempDir)
                   (concurrent_error env enc filename) b)
  end.
  { apply yields_bind.
    { apply yields_call; [done|]. intros e He.
      destruct (api_ExtractImagesFile env filename tempDir) eqn:Hx; [|done].
      injection He as <-. constructor. by eapply from_ExtractImagesFile. }
    intros _. apply yields_call_bind;
      [done|intros e He; constructor; by eapply from_ReadDir|].
    intros files Hrd. apply yields_bind.
    { by eapply yields_load_loop. }
    intros loaded. destruct (length loaded =? 0)%nat; [apply yields_ret|].
    destruct (dedup_loop loaded ∅ 0 []) as [[seen dupCount] uniqueImages].
    apply yields_bind; [|intros _; apply yields_pool].
    destruct (0 <? dupCount)%nat eqn:Hd; [|apply yields_ret].
    apply yields_emit. exists dupCount. split; [|done]. by apply Nat.ltb_lt. }
  destruct (Hb (log w (EvMkdirTemp "" "pdfimg")) (pool_clean_log _ _ Hw))
    as (Hc & (evs & Ht & Hevs) & He).
  match goal with |- context [let (_, _) := ?b in _] => destruct b as [r w'] end.
  unfold emit. cbn [fst snd log trace bufferPool] in *. split_and!; [done| |done].
  exists (EvMkdirTemp "" "pdfimg" :: evs ++ [EvRemoveAll tempDir])%list.
  split; [|by exists evs].
  rewrite Ht. by rewrite <- !app_assoc.
Qed.

Lemma extractImagesOriginal_bracket env filename imgDir w :
  pool_clean w ->
  let r := extractImagesOriginal env filename imgDir w in
  pool_clean r.2
  /\ (exists evs, trace r.2 = (trace w ++ evs)%list
                  /\ bracketed env image_extensions filename imgDir evs)
  /\ (forall e, r.1 = Err e -> sequential_error env filename e).
Proof.
  intros Hw r. subst r. unfold extractImagesOriginal, bracketed. rewrite bind_eq.
  destruct (os_MkdirTemp env "" "pdfimg") as [tempDir|e] eqn:Htmp;
    [rewrite call_Ok | rewrite call_Err].
  2:{ cbn [fst snd]. split_and!; [done|by eexists|].
      intros e' [= <-]. constructor. by apply from_MkdirTemp. }
  unfold defer.
  match goal with |- context [let (_, _) := ?b _ in _] =>
    assert (Hb : yields (staged env image_extensions filename imgDir tempDir)
                   (sequential_error env filename) b)
  end.
  { apply yields_bind.
    { apply yields_call; [done|]. intros e He.
      destruct (api_ExtractImagesFile env filename tempDir) eqn:Hx; [|done].
      injection He as <-. constructor. by eapply from_ExtractImagesFile. }
    intros _. apply yields_call_bind;
      [done|intros e He; constructor; by eapply from_ReadDir|].
    intros files Hrd. unfold processExtractedFilesSequential. apply yields_bind.
    { by eapply yields_sequential_loop. }
    intros dupCount. apply yields_bind; [|intros _; apply yields_ret].
    destruct (0 <? dupCount)%nat eqn:Hd; [|apply yields_ret].
    apply yields_emit. exists dupCount. split; [|done]. by apply Nat.ltb_lt. }
  destruct (Hb (log w (EvMkdirTemp "" "pdfimg")) (pool_clean_log _ _ Hw))
    as (Hc & (evs & Ht & Hevs) & He).
  match goal with |- context [let (_, _) := ?b in _] => destruct b as [r w'] end.
  unfold emit. cbn [fst snd log trace bufferPool] in *. split_and!; [done| |done].
  exists (EvMkdirTemp "" "pdfimg" :: evs ++ [EvRemoveAll tempDir])%list.
  split; [|by exists evs].
  rewrite Ht. by rewrite <- !app_assoc.
Qed.

Lemma staged_exts env exts exts' filename imgDir tempDir ev :
  (forall e, e ∈ exts -> e ∈ exts') ->
  staged env exts filename imgDir tempDir ev ->
  staged env exts' filename imgDir tempDir ev.
Proof.
  intros Hsub. destruct ev; try done.
  intros (k & ext & Hin & Hp & Hr). exists k, ext. auto.
Qed.

Lemma bracketed_exts env exts exts' filename imgDir evs :
  (forall e, e ∈ exts -> e ∈ exts') ->
  bracketed env exts filename imgDir evs ->
  bracketed env exts' filename imgDir evs.
Proof.
  intros Hsub. unfold bracketed. destruct (os_MkdirTemp env "" "pdfimg"); [|done].
  intros (body & -> & Hall). exists body. split; [done|].
  eapply Forall_impl; [exact Hall|]. intros ev. by apply staged_exts.
Qed.

Lemma extract_by_format_bracket env sched filename imgDir format w :
  pool_clean w ->
  let r := extract_by_format env sched filename imgDir format w in
  (exists evs,
     trace r.2 = (trace w ++ evs)%list
     /\ (evs = [] /\ (exists e, r.1 = Err e)
         \/ bracketed env image_extensions filename imgDir evs))
  /\ (forall e, r.1 = Err e ->
        (format <> "original" /\ format <> "" /\ GetEncoder env format = Err e)
        \/ ((format = "original" \/ format = "") /\ sequential_error env filename e)
        \/ (exists encoder,
              GetEncoder env format = Ok encoder
              /\ concurrent_error env encoder filename e)).
Proof.
  intros Hw r. subst r. unfold extract_by_format.
  destruct (String.eqb_spec format "original") as [Ho|Ho]; cbn [orb].
  { destruct (extractImagesOriginal_bracket env filename imgDir w Hw)
      as (_ & (evs & Ht & Hb) & He).
    split; [exists evs; auto|]. intros e Hr. right. left. auto. }
  destruct (String.eqb_spec format "") as [Hn|Hn].
  { destruct (extractImagesOriginal_bracket env filename imgDir w Hw)
      as (_ & (evs & Ht & Hb) & He).
    split; [exists evs; auto|]. intros e Hr. right. left. auto. }
  rewrite bind_eq. unfold lift.
  pose proof (GetEncoder_cases env format) as Hc.
  destruct (GetEncoder env format) as [enc|e0] eqn:Hg.
  - destruct (extractImagesConcurrent_bracket env sched filename imgDir enc w Hw)
      as (_ & (evs & Ht & Hb) & He).
    split.
    + exists evs. split; [done|]. right. eapply bracketed_exts; [|exact Hb].
      intros e. rewrite list_elem_of_singleton. intros ->.
      destruct Hc as [[_ ->]|[_ ->]]; vm_compute; set_solver.
    + intros e Hr. right. right. exists enc. auto.
  - cbn [fst snd]. split.
    + exists []. rewrite app_nil_r. split; [done|]. left. eauto.
    + intros e [= <-]. left. auto.
Qed.

(** X10. Whatever happens, [ExtractImagesFromFile] calls [os.Mkdir] on the
    output directory first and then either fails without a further effect, or
    runs a strategy whose effects are bracketed: the temporary directory is
    created first and, if that succeeded, removed last and only once, on
    every error path as well.  In between, the strategy only extracts into
    the temporary directory, lists it, reads listed entries with an image
    extension from it, writes files named [image_<digits><ext>] with one of
    the seven extensions into the output directory, and prints the number of
    duplicates. *)
Theorem temp_dir_is_removed_and_effects_are_confined
    env sched filename imgDir format w :
  pool_clean w ->
  let r := ExtractImagesFromFile env sched filename imgDir format w in
  exists evs,
    trace r.2 = (trace w ++ EvMkdir imgDir :: evs)%list
    /\ (evs = [] /\ (exists e, r.1 = Err e)
        \/ bracketed env image_extensions filename imgDir evs).
Proof.
  intros Hw r. subst r. rewrite ExtractImagesFromFile_eq.
  pose proof (extract_by_format_bracket env sched filename imgDir format
                (log w (EvMkdir imgDir)) (pool_clean_log _ _ Hw)) as [(evs & Ht & Hb) _].
  cbn [log trace] in Ht. rewrite <- app_assoc in Ht.
  destruct (os_Mkdir env imgDir) as [err|]; [destruct (os_IsExist err)|].
  - by exists evs.
  - exists []. cbn [fst snd log trace]. split; [done|]. left. eauto.
  - by exists evs.
Qed.

(** X10, on a concrete run. *)
Lemma temp_dir_is_removed_and_effects_are_confined_witness :
  exists evs,
    trace (ExtractImagesFromFile demo_env demo_schedule "doc.pdf" "out" "png" world0).2
      = ([] ++ EvMkdir "out" :: evs)%list
    /\ (evs = []
        /\ (exists e,
              (ExtractImagesFromFile demo_env demo_schedule "doc.pdf" "out" "png" world0).1
              = Err e)
        \/ bracketed demo_env image_extensions "doc.pdf" "out" evs).
Proof.
  apply (temp_dir_is_removed_and_effects_are_confined demo_env demo_schedule
           "doc.pdf" "out" "png" world0).
  constructor.
Defined.

(** X11. Every error [ExtractImagesFromFile] returns comes from a failed
    call: it is the error of [os.Mkdir] when that is not an already-exists
    error, the unsupported-format error of [GetEncoder], or an error of the
    chosen strategy, which is the error of a failed call wrapped with the
    name of the step or, for [os.WriteFile] in [writeImageFile], that error
    as it is. *)
Theorem every_error_comes_from_a_failed_call
    env sched filename imgDir format w e :
  pool_clean w ->
  (ExtractImagesFromFile env sched filename imgDir format w).1 = Err e ->
  (os_Mkdir env imgDir = Some e /\ os_IsExist e = false)
  \/ (format <> "original" /\ format <> "" /\ GetEncoder env format = Err e)
  \/ ((format = "original" \/ format = "") /\ sequential_error env filename e)
  \/ (exists encoder,
        GetEncoder env format = Ok encoder
        /\ concurrent_error env encoder filename e).
Proof.
  intros Hw. rewrite ExtractImagesFromFile_eq.
  pose proof (extract_by_format_bracket env sched filename imgDir format
                (log w (EvMkdir imgDir)) (pool_clean_log _ _ Hw)) as [_ He].
  destruct (os_Mkdir env imgDir) as [err|]; [destruct (os_IsExist err) eqn:Hx|].
  - intros Hr. right. by apply He.
  - intros [= <-]. left. auto.
  - intros Hr. right. by apply He.
Qed.

(** X11, on a concrete run. *)
Lemma every_error_comes_from_a_failed_call_witness :
  (os_Mkdir failing_env "out" = Some (encode_error "01")
   /\ os_IsExist (encode_error "01") = false)
  \/ ("png" <> "original" /\ "png" <> ""
      /\ GetEncoder failing_env "png" = Err (encode_error "01"))
  \/ (("png" = "original" \/ "png" = "")
      /\ sequential_error failing_env "doc.pdf" (encode_error "01"))
  \/ (exists encoder,
        GetEncoder failing_env "png" = Ok encoder
        /\ concurrent_error failing_env encoder "doc.pdf" (encode_error "01")).
Proof.
  apply (every_error_comes_from_a_failed_call failing_env zero_first
           "doc.pdf" "out" "png" world0).
  - constructor.
  - vm_compute. reflexivity.
Defined.

Lemma load_loop_reads env tempDir files :
  forall acc w,
    exists paths,
      (load_loop env tempDir files acc w).2
      = {| trace := trace w ++ (EvReadFile <$> paths); bufferPool := bufferPool w |}.
Proof.
  induction files as [|f rest IH]; intros acc w; cbn [load_loop].
  { exists []. cbn. rewrite app_nil_r. by destruct w. }
  destruct (isImageFile env (Name f)); cbn [negb]; [|apply IH].
  rewrite bind_eq.
  destruct (os_ReadFile env (filepath_Join env tempDir (Name f))) as [data|e];
    [rewrite call_Ok | rewrite call_Err].
  2:{ by exists [filepath_Join env tempDir (Name f)]. }
  rewrite bind_eq. unfold lift.
  destruct (image_Decode env data) as [img|e].
  - destruct (IH (acc ++ [{| Img := toRGBA env img; FileHash := hashBytes env data |}])%list
               (log w (EvReadFile (filepath_Join env tempDir (Name f))))) as [paths Hp].
    exists (filepath_Join env tempDir (Name f) :: paths). rewrite Hp.
    cbn [log trace bufferPool fmap list_fmap]. by rewrite <- app_assoc.
  - by exists [filepath_Join env tempDir (Name f)].
Qed.

Lemma load_loop_unusable env tempDir files f :
  f ∈ files -> isImageFile env (Name f) = true -> unusable env tempDir f ->
  forall acc w,
    exists e e',
      (load_loop env tempDir files acc w).1 = Err e
      /\ (e = WrapError "read file data: " e' \/ e = WrapError "decode image: " e').
Proof.
  intros Hin Himg Hbad. induction files as [|g rest IH]; intros acc w.
  { by apply elem_of_nil in Hin. }
  cbn [load_loop].
  destruct (isImageFile env (Name g)) eqn:Hg; cbn [negb].
  2:{ apply IH. apply elem_of_cons in Hin as [->|]; [congruence|done]. }
  rewrite bind_eq.
  destruct (os_ReadFile env (filepath_Join env tempDir (Name g))) as [data|e] eqn:Hr;
    [rewrite call_Ok | rewrite call_Err; cbn [fst]; eauto].
  rewrite bind_eq. unfold lift.
  destruct (image_Decode env data) as [img|e] eqn:Hd; [|cbn [fst]; eauto].
  apply IH. apply elem_of_cons in Hin as [->|]; [|done].
  unfold unusable in Hbad. by rewrite Hr, Hd in Hbad.
Qed.

(** X12. The load-then-dedup strategy is all or nothing on its input: if
    one listed entry with an image extension cannot be read or decoded (a
    directory with such a name, for one), the run fails with a read or decode
    error after reading entries only.  Nothing is written or printed, and the
    temporary directory is removed. *)
Theorem one_unusable_entry_means_no_output
    env sched filename imgDir encoder w tempDir files f :
  os_MkdirTemp env "" "pdfimg" = Ok tempDir ->
  api_ExtractImagesFile env filename tempDir = None ->
  os_ReadDir env tempDir = Ok files ->
  f ∈ files -> isImageFile env (Name f) = true -> unusable env tempDir f ->
  exists e e' paths,
    extractImagesConcurrent env sched filename imgDir encoder w
    = (Err e,
       {| trace := trace w
                   ++ [ EvMkdirTemp "" "pdfimg";
                        EvExtractImagesFile filename tempDir; EvReadDir tempDir ]
                   ++ (EvReadFile <$> paths) ++ [EvRemoveAll tempDir];
          bufferPool := bufferPool w |})
    /\ (e = WrapError "read file data: " e' \/ e = WrapError "decode image: " e').
Proof.
  intros Htmp Hx Hrd Hin Himg Hbad.
  unfold extractImagesConcurrent. rewrite bind_eq, Htmp, call_Ok. unfold defer.
  rewrite bind_eq, Hx. cbn [of_error]. rewrite call_Ok.
  rewrite bind_eq, Hrd, call_Ok. rewrite bind_eq.
  set (w3 := log (log (log w _) _) _).
  destruct (load_loop_unusable env tempDir files f Hin Himg Hbad [] w3)
    as (e & e' & He & Hkind).
  destruct (load_loop_reads env tempDir files [] w3) as [paths Hp].
  destruct (load_loop env tempDir files [] w3) as [r w4]. cbn [fst snd] in He, Hp.
  subst r w4. exists e, e', paths. split; [|done].
  unfold emit. cbn [snd log trace bufferPool]. subst w3. cbn [log trace bufferPool].
  unfold log. cbn [trace bufferPool]. do 2 f_equal. by rewrite <- !app_assoc.
Qed.

(** X12, on a concrete run. *)
Lemma one_unusable_entry_means_no_output_witness :
  exists e e' paths,
    extractImagesConcurrent corrupt_env demo_schedule "doc.pdf" "out"
      (PNGEncoder corrupt_env) world0
    = (Err e,
       {| trace := []
                   ++ [ EvMkdirTemp "" "pdfimg";
                        EvExtractImagesFile "doc.pdf" sample_tmp; EvReadDir sample_tmp ]
                   ++ (EvReadFile <$> paths) ++ [EvRemoveAll sample_tmp];
          bufferPool := [] |})
    /\ (e = WrapError "read file data: " e' \/ e = WrapError "decode image: " e').
Proof.
  apply (one_unusable_entry_means_no_output corrupt_env demo_schedule "doc.pdf" "out"
           (PNGEncoder corrupt_env) world0 sample_tmp demo_entries
           {| Name := "c.jpg"; IsDir := false |}).
  - reflexivity.
  - reflexivity.
  - reflexivity.
  - do 2 right. left.
  - reflexivity.
  - vm_compute. exact I.
Defined.

Lemma sublist_same_length {A} (l1 l2 : list A) :
  sublist l1 l2 -> length l1 = length l2 -> l1 = l2.
Proof.
  induction 1 as [|x l1 l2 Hs IH|x l1 l2 Hs IH]; intros Hlen; [done| |].
  - f_equal. apply IH. simpl in Hlen. lia.
  - apply sublist_length in Hs. simpl in Hlen. lia.
Qed.

Lemma first_occurrences_id {A} (key : A -> string) (l : list A) : forall earlier,
  NoDup (key <$> l) -> (forall x, x ∈ l -> key x ∉ earlier) ->
  first_occurrences key earlier l = l.
Proof.
  induction l as [|x l IH]; intros earlier Hnd Hfresh; [done|].
  cbn [first_occurrences]. rewrite fmap_cons in Hnd. apply NoDup_cons in Hnd as [Hx Hnd].
  rewrite bool_decide_eq_false_2 by (apply Hfresh; by left).
  f_equal. apply IH; [done|]. intros y Hy. rewrite not_elem_of_cons. split.
  - intros Heq. apply Hx. rewrite <- Heq. apply list_elem_of_fmap. by exists y.
  - apply Hfresh. by right.
Qed.


Lemma dedup_loop_first l :
  (dedup_loop l ∅ 0 []).2 = first_occurrences FileHash [] l
  /\ (dedup_loop l ∅ 0 []).1.2
     = (length l - length (first_occurrences FileHash [] l))%nat.
Proof.
  destruct (dedup_loop_eq l ∅ 0 [] []) as (seen' & -> & _); [|done].
  intros h. rewrite seen_get_empty. split; [done|]. by intros ?%elem_of_nil.
Qed.

(** X13. Deduplicating twice changes nothing: on its own output the
    deduplication loop keeps every image and counts no duplicate.  The
    duplicate count is zero exactly when the loaded images have pairwise
    distinct fingerprints, and exactly when the loop returns its input. *)
Theorem deduplication_is_idempotent loadedImages :
  let uniqueImages := (dedup_loop loadedImages ∅ 0 []).2 in
  let dupCount := (dedup_loop loadedImages ∅ 0 []).1.2 in
  (dedup_loop uniqueImages ∅ 0 []).2 = uniqueImages
  /\ (dedup_loop uniqueImages ∅ 0 []).1.2 = 0%nat
  /\ (dupCount = 0%nat <-> NoDup (FileHash <$> loadedImages))
  /\ (dupCount = 0%nat <-> uniqueImages = loadedImages).
Proof.
  intros u d. subst u d.
  destruct (dedup_loop_first loadedImages) as [-> ->].
  set (kept := first_occurrences FileHash [] loadedImages).
  destruct (dedup_loop_first kept) as [-> ->].
  assert (Hid : first_occurrences FileHash [] kept = kept).
  { apply first_occurrences_id; [apply first_occurrences_NoDup|].
    intros x _. apply not_elem_of_nil. }
  pose proof (first_occurrences_sublist FileHash [] loadedImages) as Hsub. fold kept in Hsub.
  pose proof (sublist_length _ _ Hsub) as Hle.
  assert (Heq : (length loadedImages - length kept = 0)%nat <-> kept = loadedImages).
  { split; [|intros ->; lia]. intros H. apply sublist_same_length; [done|lia]. }
  split_and!.
  - done.
  - rewrite Hid. lia.
  - rewrite Heq. split.
    + intros H. rewrite <- H. apply first_occurrences_NoDup.
    + intros Hnd. apply first_occurrences_id; [done|]. intros x _. apply not_elem_of_nil.
  - done.
Qed.

Lemma same_reads {A} (F : A -> result bytes) (l1 l2 : list (A * bytes)) :
  fst <$> l1 = fst <$> l2 ->
  Forall (fun it => F it.1 = Ok it.2) l1 ->
  Forall (fun it => F it.1 = Ok it.2) l2 ->
  l1 = l2.
Proof.
  revert l2. induction l1 as [|[a d] l1 IH]; intros [|[a' d'] l2] Hf H1 H2; try done.
  injection Hf as <- Hf. inversion H1; subst. inversion H2; subst. cbn in *.
  f_equal; [congruence|]. by apply IH.
Qed.

Lemma recognized_without_dirs env files :
  Forall (fun f => isImageFile env (Name f) = true -> IsDir f = false) files ->
  recognized_files env files = recognized env files.
Proof.
  unfold recognized_files, recognized. induction 1 as [|f files Hf _ IH]; [done|].
  rewrite !filter_cons. destruct (isImageFile env (Name f)) eqn:Hi.
  - rewrite decide_True by auto. rewrite decide_True by done. by rewrite IH.
  - rewrite decide_False by (by intros [_ ?]). rewrite decide_False by done. done.
Qed.

(** X14. Both strategies keep the same files.  On a listing in which no
    entry with an image extension is a directory, if loading and the
    sequential strategy both succeed, there is one list of kept files, each
    of them listed, readable and decodable, such that the unique images of
    the load-then-dedup strategy are their decoded images in that order, the
    files the sequential strategy writes are their bytes in that order,
    numbered from zero, and both strategies report the same number of
    duplicates. *)
Theorem both_strategies_keep_the_same_files
    env tempDir imgDir files w1 loaded w1' w2 w2' :
  Forall (fun f => isImageFile env (Name f) = true -> IsDir f = false) files ->
  load_loop env tempDir files [] w1 = (Ok loaded, w1') ->
  processExtractedFilesSequential env files tempDir imgDir w2 = (Ok tt, w2') ->
  exists (kept : list (DirEntry * bytes * Image)) evs,
    (dedup_loop loaded ∅ 0 []).2 = loaded_of env <$> kept
    /\ trace w2' = (trace w2 ++ evs)%list
    /\ files_written evs
       = imap (fun k it => (filepath_Join env imgDir
                              (Sprintf_image k (kept_ext env (Name it.1.1))), it.1.2)) kept
    /\ Forall (fun it =>
         it.1.1 ∈ files
         /\ os_ReadFile env (filepath_Join env tempDir (Name it.1.1)) = Ok it.1.2
         /\ image_Decode env it.1.2 = Ok it.2) kept
    /\ prints evs
       = (let dupCount := (dedup_loop loaded ∅ 0 []).1.2 in
          if (0 <? dupCount)%nat then [Sprintf_skipped dupCount] else []).
Proof.
  intros Hdirs Hload Hseq.
  destruct (load_loop_ok _ _ _ _ _ _ _ Hload) as (items & Hnames & Hitems & -> & _ & _).
  rewrite app_nil_l.
  destruct (processExtractedFilesSequential_ok _ _ _ _ _ _ Hseq)
    as (items2 & evs & Hnames2 & Hitems2 & Ht & _ & _ & _ & Hw & Hp).
  rewrite (recognized_without_dirs _ _ Hdirs), <- Hnames in Hnames2.
  assert (Heq : items2 = (fun it : DirEntry * bytes * Image => it.1) <$> items).
  { apply (same_reads (fun f => os_ReadFile env (filepath_Join env tempDir (Name f))));
      [|done|].
    - rewrite Hnames2, <- list_fmap_compose. done.
    - apply Forall_fmap. eapply Forall_impl; [exact Hitems|]. by intros it [? _]. }
  subst items2.
  rewrite (first_occurrences_fmap (fun it : DirEntry * bytes * Image => it.1)
             (fun it => hashBytes env it.2)) in Hw, Hp.
  set (kept := first_occurrences (fun it : DirEntry * bytes * Image => hashBytes env it.1.2)
                 [] items) in *.
  destruct (dedup_loop_first (loaded_of env <$> items)) as [Hu Hd].
  rewrite (first_occurrences_fmap (loaded_of env) FileHash) in Hu, Hd.
  change (first_occurrences (fun x => FileHash (loaded_of env x)) [] items) with kept in Hu, Hd.
  pose proof (first_occurrences_sublist
                (fun it : DirEntry * bytes * Image => hashBytes env it.1.2) [] items) as Hsub.
  fold kept in Hsub.
  exists kept, evs. split_and!.
  - exact Hu.
  - exact Ht.
  - rewrite Hw. by rewrite imap_fmap.
  - apply Forall_forall. intros it Hin.
    assert (Hin' : it ∈ items) by (by eapply elem_of_sublist).
    split; [|by eapply Forall_forall in Hitems].
    assert (it.1.1 ∈ recognized env files) as Hr.
    { rewrite <- Hnames. apply list_elem_of_fmap. by exists it. }
    unfold recognized in Hr. by apply list_elem_of_filter in Hr as [_ ?].
  - rewrite Hp, Hd. by rewrite !length_fmap.
Qed.

(** X14, on a concrete run. *)
Lemma both_strategies_keep_the_same_files_witness :
  exists (kept : list (DirEntry * bytes * Image)) evs,
    (dedup_loop demo_loaded ∅ 0 []).2 = loaded_of demo_env <$> kept
    /\ trace (processExtractedFilesSequential demo_env demo_entries sample_tmp "out"
                world0).2 = ([] ++ evs)%list
    /\ files_written evs
       = imap (fun k it => (filepath_Join demo_env "out"
                              (Sprintf_image k (kept_ext demo_env (Name it.1.1))), it.1.2)) kept
    /\ Forall (fun it =>
         it.1.1 ∈ demo_entries
         /\ os_ReadFile demo_env (filepath_Join demo_env sample_tmp (Name it.1.1)) = Ok it.1.2
         /\ image_Decode demo_env it.1.2 = Ok it.2) kept
    /\ prints evs
       = (let dupCount := (dedup_loop demo_loaded ∅ 0 []).1.2 in
          if (0 <? dupCount)%nat then [Sprintf_skipped dupCount] else []).
Proof.
  apply (both_strategies_keep_the_same_files demo_env sample_tmp "out" demo_entries
           world0 demo_loaded (load_loop demo_env sample_tmp demo_entries [] world0).2
           world0).
  - repeat constructor.
  - vm_compute. reflexivity.
  - vm_compute. reflexivity.
Defined.

(** X20. When the listing has no entry with an image extension (for the
    sequential strategy: none that is not a directory), the strategy succeeds
    having only created, filled, listed and removed its temporary directory:
    nothing is read, written or printed. *)
Theorem nothing_to_do_when_no_image_is_listed
    env sched filename imgDir encoder w tempDir files :
  os_MkdirTemp env "" "pdfimg" = Ok tempDir ->
  api_ExtractImagesFile env filename tempDir = None ->
  os_ReadDir env tempDir = Ok files ->
  let quiet :=
    (Ok tt,
     {| trace := trace w
                 ++ [ EvMkdirTemp "" "pdfimg"; EvExtractImagesFile filename tempDir;
                      EvReadDir tempDir; EvRemoveAll tempDir ];
        bufferPool := bufferPool w |}) in
  (recognized env files = [] ->
   extractImagesConcurrent env sched filename imgDir encoder w = quiet)
  /\ (recognized_files env files = [] ->
      extractImagesOriginal env filename imgDir w = quiet).
Proof.
  intros Htmp Hx Hrd quiet. subst quiet. split; intros Hnone.
  - rewrite (extractImagesConcurrent_run env sched filename imgDir encoder w tempDir files []
               (log (log (log w (EvMkdirTemp "" "pdfimg"))
                       (EvExtractImagesFile filename tempDir)) (EvReadDir tempDir)));
      [|done|done|done|by rewrite load_loop_skip, Hnone].
    cbn [length Nat.eqb]. unfold log. cbn [trace bufferPool].
    by rewrite <- !app_assoc.
  - unfold extractImagesOriginal. rewrite bind_eq, Htmp, call_Ok. unfold defer.
    rewrite bind_eq, Hx. cbn [of_error]. rewrite call_Ok.
    rewrite bind_eq, Hrd, call_Ok.
    unfold processExtractedFilesSequential.
    rewrite bind_eq, sequential_loop_skip, Hnone. cbn [sequential_loop].
    unfold mbind, M_bind, mret, M_ret, emit, log. cbn.
    by rewrite <- !app_assoc.
Qed.

(** X20, on a concrete run. *)
Lemma nothing_to_do_when_no_image_is_listed_witness :
  extractImagesConcurrent xyz_env [] "doc.pdf" "out" (WebPEncoder xyz_env) world0
  = (Ok tt,
     {| trace := []
                 ++ [ EvMkdirTemp "" "pdfimg"; EvExtractImagesFile "doc.pdf" sample_tmp;
                      EvReadDir sample_tmp; EvRemoveAll sample_tmp ];
        bufferPool := [] |}).
Proof.
  apply (proj1 (nothing_to_do_when_no_image_is_listed xyz_env [] "doc.pdf" "out"
                  (WebPEncoder xyz_env) world0 sample_tmp
                  [{| Name := "notes.xyz"; IsDir := false |}]
                  eq_refl eq_refl eq_refl)).
  reflexivity.
Defined.

Lemma sequential_loop_stops env tempDir imgDir files1 f rest e :
  IsDir f = false -> isImageFile env (Name f) = true ->
  os_ReadFile env (filepath_Join env tempDir (Name f)) = Err e ->
  forall seen dup uc w dup1 w1,
    sequential_loop env tempDir imgDir files1 seen dup uc w = (Ok dup1, w1) ->
    sequential_loop env tempDir imgDir (files1 ++ f :: rest) seen dup uc w
    = (Err (WrapError "read image: " e),
       log w1 (EvReadFile (filepath_Join env tempDir (Name f)))).
Proof.
  intros Hd Hi Hr. induction files1 as [|g files1 IH]; intros seen dup uc w dup1 w1 Hrun.
  - cbn in Hrun. injection Hrun as _ <-. cbn [app sequential_loop].
    rewrite Hd, Hi. cbn [orb negb]. by rewrite bind_eq, Hr, call_Err.
  - cbn [app sequential_loop] in *.
    destruct (IsDir g || negb (isImageFile env (Name g))); [by eapply IH|].
    rewrite bind_eq in *.
    destruct (os_ReadFile env (filepath_Join env tempDir (Name g))) as [data|e'];
      [rewrite call_Ok in * | by rewrite call_Err in Hrun].
    cbv zeta in *.
    destruct (seen_get seen (hashBytes env data)); [by eapply IH|].
    rewrite bind_eq in *.
    destruct (os_WriteFile env _ data) as [e'|]; cbn [of_error] in *;
      [by rewrite call_Err in Hrun | rewrite call_Ok in *].
    by eapply IH.
Qed.

(** X21. The sequential strategy does not undo its work on failure: if it
    succeeds on a listing, and a further entry with an image extension cannot
    be read, then on the longer listing it fails with the wrapped read error
    having written the files of the shorter run, and read one file more. *)
Theorem sequential_strategy_does_not_roll_back
    env tempDir imgDir files1 f rest e w w1 :
  IsDir f = false -> isImageFile env (Name f) = true ->
  os_ReadFile env (filepath_Join env tempDir (Name f)) = Err e ->
  processExtractedFilesSequential env files1 tempDir imgDir w = (Ok tt, w1) ->
  exists w',
    processExtractedFilesSequential env (files1 ++ f :: rest) tempDir imgDir w
    = (Err (WrapError "read image: " e), w')
    /\ files_written (trace w') = files_written (trace w1)
    /\ failed_writes (trace w') = failed_writes (trace w1)
    /\ reads (trace w') = (reads (trace w1) ++ [filepath_Join env tempDir (Name f)])%list.
Proof.
  intros Hd Hi Hr Hrun. unfold processExtractedFilesSequential in *.
  rewrite bind_eq in *.
  destruct (sequential_loop env tempDir imgDir files1 ∅ 0 0 w) as [[dup|e'] w0] eqn:Hloop;
    [|discriminate].
  rewrite (sequential_loop_stops env tempDir imgDir files1 f rest e Hd Hi Hr _ _ _ _ _ _ Hloop).
  eexists. split; [reflexivity|].
  assert (Hw1 : trace w1 = trace w0 \/ exists s, trace w1 = (trace w0 ++ [EvPrintf s])%list).
  { rewrite bind_eq in Hrun. destruct (0 <? dup)%nat.
    - right. unfold emit in Hrun. injection Hrun as <-. eauto.
    - left. by injection Hrun as <-. }
  unfold log. cbn [trace]. unfold files_written, failed_writes, reads.
  destruct Hw1 as [->|[s ->]]; rewrite ?omap_app; cbn [omap]; by rewrite ?app_nil_r.
Qed.

(** X21, on a concrete run. *)
Lemma sequential_strategy_does_not_roll_back_witness :
  exists w',
    processExtractedFilesSequential demo_env
      ([{| Name := "a.png"; IsDir := false |}]
       ++ {| Name := "lost.png"; IsDir := false |} :: [{| Name := "c.jpg"; IsDir := false |}])
      sample_tmp "out" world0
    = (Err (WrapError "read image: "
              (PathError "open" (sample_join sample_tmp "lost.png") ENOENT)), w')
    /\ files_written (trace w')
       = files_written
           (trace (processExtractedFilesSequential demo_env
                     [{| Name := "a.png"; IsDir := false |}] sample_tmp "out" world0).2)
    /\ failed_writes (trace w')
       = failed_writes
           (trace (processExtractedFilesSequential demo_env
                     [{| Name := "a.png"; IsDir := false |}] sample_tmp "out" world0).2)
    /\ reads (trace w')
       = (reads
            (trace (processExtractedFilesSequential demo_env
                      [{| Name := "a.png"; IsDir := false |}] sample_tmp "out" world0).2)
          ++ [filepath_Join demo_env sample_tmp
                (Name {| Name := "lost.png"; IsDir := false |})])%list.
Proof.
  apply (sequential_strategy_does_not_roll_back demo_env sample_tmp "out"
           [{| Name := "a.png"; IsDir := false |}]
           {| Name := "lost.png"; IsDir := false |}
           [{| Name := "c.jpg"; IsDir := false |}]
           (PathError "open" (sample_join sample_tmp "lost.png") ENOENT) world0).
  - reflexivity.
  - reflexivity.
  - reflexivity.
  - reflexivity.
Defined.

(** X22. When the load-then-dedup strategy succeeds, its output is
    complete.  Every listed entry with an image extension was read and
    decoded, in directory order; the images kept are the first ones with
    their fingerprint; each of them was encoded and written once, the one at
    position [i] as [image_%04d] of [i+1] with the encoder's extension; the
    number of duplicates was printed if there was one; and the temporary
    directory was removed last. *)
Theorem concurrent_success_means_complete_output
    env sched filename imgDir encoder w w' :
  pool_clean w ->
  extractImagesConcurrent env sched filename imgDir encoder w = (Ok tt, w') ->
  exists tempDir files (items : list (DirEntry * bytes * Image)) wevs,
    os_MkdirTemp env "" "pdfimg" = Ok tempDir
    /\ os_ReadDir env tempDir = Ok files
    /\ (fun it => it.1.1) <$> items = recognized env files
    /\ Forall (fun it =>
         os_ReadFile env (filepath_Join env tempDir (Name it.1.1)) = Ok it.1.2
         /\ image_Decode env it.1.2 = Ok it.2) items
    /\ let kept :=
         first_occurrences (fun it : DirEntry * bytes * Image => hashBytes env it.1.2)
           [] items in
       let dupCount := (length items - length kept)%nat in
       trace w'
       = (trace w
          ++ [ EvMkdirTemp "" "pdfimg"; EvExtractImagesFile filename tempDir;
               EvReadDir tempDir ]
          ++ ((fun it => EvReadFile (filepath_Join env tempDir (Name it.1.1))) <$> items)
          ++ (if (0 <? dupCount)%nat then [EvPrintf (Sprintf_skipped dupCount)] else [])
          ++ wevs ++ [EvRemoveAll tempDir])%list
       /\ wevs ≡ₚ imap (image_write env encoder imgDir) (loaded_of env <$> kept)
       /\ Forall (task_ok env encoder imgDir) (make_tasks (loaded_of env <$> kept)).
Proof.
  intros Hclean Hrun. unfold extractImagesConcurrent in Hrun. rewrite bind_eq in Hrun.
  destruct (os_MkdirTemp env "" "pdfimg") as [tempDir|e] eqn:Htmp;
    [rewrite call_Ok in Hrun | rewrite call_Err in Hrun; discriminate].
  unfold defer in Hrun. rewrite bind_eq in Hrun.
  destruct (api_ExtractImagesFile env filename tempDir) as [e|] eqn:Hx; cbn [of_error] in Hrun;
    [rewrite call_Err in Hrun; discriminate | rewrite call_Ok in Hrun].
  rewrite bind_eq in Hrun.
  destruct (os_ReadDir env tempDir) as [files|e] eqn:Hrd;
    [rewrite call_Ok in Hrun | rewrite call_Err in Hrun; discriminate].
  rewrite bind_eq in Hrun.
  set (w3 := log (log (log w _) _) _) in Hrun.
  destruct (load_loop env tempDir files [] w3) as [[loaded|e] w4] eqn:Hload; [|discriminate].
  destruct (load_loop_ok _ _ _ _ _ _ _ Hload) as (items & Hnames & Hitems & -> & Ht4 & Hb4).
  rewrite app_nil_l in Hrun.
  exists tempDir, files, items.
  destruct (dedup_loop_first (loaded_of env <$> items)) as [Hu Hd].
  rewrite (first_occurrences_fmap (loaded_of env) FileHash) in Hu, Hd.
  change (first_occurrences (fun x => FileHash (loaded_of env x)) [] items)
    with (first_occurrences (fun it : DirEntry * bytes * Image => hashBytes env it.1.2)
            [] items) in Hu, Hd.
  set (kept := first_occurrences
                 (fun it : DirEntry * bytes * Image => hashBytes env it.1.2) [] items) in *.
  rewrite !length_fmap in Hd.
  assert (Ht3 : trace w4
                = (trace w
                   ++ [ EvMkdirTemp "" "pdfimg"; EvExtractImagesFile filename tempDir;
                        EvReadDir tempDir ]
                   ++ ((fun it => EvReadFile (filepath_Join env tempDir (Name it.1.1)))
                         <$> items))%list).
  { rewrite Ht4. subst w3. unfold log. cbn [trace]. by rewrite <- !app_assoc. }
  assert (Hc4 : pool_clean w4).
  { unfold pool_clean. rewrite Hb4. exact Hclean. }
  destruct items as [|it items'] eqn:Hit.
  - cbn in Hrun. injection Hrun as <-. exists []. split_and!; try done.
    cbv zeta. cbn [length first_occurrences Nat.sub Nat.ltb Nat.leb fmap list_fmap imap app].
    split_and!; [|done|constructor].
    unfold emit, log. cbn [snd trace]. rewrite Ht3. cbn. by rewrite <- !app_assoc.
  - rewrite <- Hit in *.
    replace (length (loaded_of env <$> items) =? 0)%nat with false in Hrun
      by (rewrite Hit; done).
    destruct (dedup_loop (loaded_of env <$> items) ∅ 0 []) as [[seen dupCount] unique].
    cbn [fst snd] in Hu, Hd. subst unique dupCount.
    rewrite bind_eq in Hrun.
    set (m := if (0 <? length items - length kept)%nat then _ else _) in Hrun.
    set (pevs := if (0 <? length items - length kept)%nat
                 then [EvPrintf (Sprintf_skipped (length items - length kept))] else []).
    assert (Hm : m w4 = (Ok tt, {| trace := trace w4 ++ pevs; bufferPool := bufferPool w4 |})).
    { subst m pevs. destruct (0 <? length items - length kept)%nat.
      - done.
      - unfold mret, M_ret. rewrite app_nil_r. by destruct w4. }
    rewrite Hm in Hrun.
    set (w5 := {| trace := trace w4 ++ pevs; bufferPool := bufferPool w4 |}) in *.
    destruct (processImagesConcurrently env sched (loaded_of env <$> kept) imgDir encoder w5)
      as [r w6] eqn:Hpool.
    unfold emit in Hrun. cbn [snd] in Hrun. injection Hrun as -> <-.
    destruct (pool_nil_result env sched (loaded_of env <$> kept) imgDir encoder w5 w6)
      as (Hok & wevs & Ht6 & Hperm); [exact Hc4|exact Hpool|].
    exists wevs. split_and!; try done. cbv zeta. fold kept. fold pevs.
    split_and!; [|done|done].
    unfold log. cbn [trace]. rewrite Ht6. subst w5. cbn [trace]. rewrite Ht3.
    by rewrite <- !app_assoc.
Qed.

(** X22, on a concrete run. *)
Lemma concurrent_success_means_complete_output_witness :
  exists tempDir files (items : list (DirEntry * bytes * Image)) wevs,
    os_MkdirTemp demo_env "" "pdfimg" = Ok tempDir
    /\ os_ReadDir demo_env tempDir = Ok files
    /\ (fun it => it.1.1) <$> items = recognized demo_env files
    /\ Forall (fun it =>
         os_ReadFile demo_env (filepath_Join demo_env tempDir (Name it.1.1)) = Ok it.1.2
         /\ image_Decode demo_env it.1.2 = Ok it.2) items
    /\ let kept :=
         first_occurrences (fun it : DirEntry * bytes * Image => hashBytes demo_env it.1.2)
           [] items in
       let dupCount := (length items - length kept)%nat in
       trace (extractImagesConcurrent demo_env demo_schedule "doc.pdf" "out"
                (WebPEncoder demo_env) world0).2
       = (trace world0
          ++ [ EvMkdirTemp "" "pdfimg"; EvExtractImagesFile "doc.pdf" tempDir;
               EvReadDir tempDir ]
          ++ ((fun it => EvReadFile (filepath_Join demo_env tempDir (Name it.1.1))) <$> items)
          ++ (if (0 <? dupCount)%nat then [EvPrintf (Sprintf_skipped dupCount)] else [])
          ++ wevs ++ [EvRemoveAll tempDir])%list
       /\ wevs ≡ₚ imap (image_write demo_env (WebPEncoder demo_env) "out")
                    (loaded_of demo_env <$> kept)
       /\ Forall (task_ok demo_env (WebPEncoder demo_env) "out")
            (make_tasks (loaded_of demo_env <$> kept)).
Proof.
  apply (concurrent_success_means_complete_output demo_env demo_schedule "doc.pdf" "out"
           (WebPEncoder demo_env) world0).
  - constructor.
  - vm_compute. reflexivity.
Defined.

(** ** The command *)

Lemma Cmd_bind_eq {A B} (m : Cmd A) (k : A -> Cmd B) tr :
  (m ≫= k) tr = match m tr with (Ok a, tr') => k a tr' | (Err e, tr') => (Err e, tr') end.
Proof. reflexivity. Qed.

Lemma act_bind {B} a (k : unit -> Cmd B) tr : (act a ≫= k) tr = k tt (tr ++ [a])%list.
Proof. reflexivity. Qed.

Lemma attempt_Ok {A} a (x : A) tr : attempt a (Ok x) tr = (Ok x, (tr ++ [a])%list).
Proof. reflexivity. Qed.

Lemma attempt_Err {A} a e tr : attempt (A := A) a (Err e) tr = (Err e, (tr ++ [a])%list).
Proof. reflexivity. Qed.

Section later_occurrences.
Context {A : Type} (key : A -> string).

Lemma later_first_Permutation (l : list A) : forall earlier,
  l ≡ₚ (first_occurrences key earlier l ++ later_occurrences key earlier l)%list.
Proof.
  induction l as [|x l IH]; intros earlier; [done|].
  cbn [first_occurrences later_occurrences].
  destruct (bool_decide (key x ∈ earlier)).
  - rewrite <- Permutation_middle. by constructor.
  - cbn. by constructor.
Qed.

Lemma later_occurrences_sublist (l : list A) : forall earlier,
  sublist (later_occurrences key earlier l) l.
Proof.
  induction l as [|x l IH]; intros earlier; [done|]. cbn [later_occurrences].
  destruct (bool_decide (key x ∈ earlier)); by constructor.
Qed.

Lemma later_occurrences_earlier (l : list A) : forall earlier x,
  x ∈ later_occurrences key earlier l ->
  key x ∈ earlier \/ exists l1 l2, l = (l1 ++ x :: l2)%list /\ key x ∈ key <$> l1.
Proof.
  induction l as [|y l IH]; intros earlier x Hx; [by apply elem_of_nil in Hx|].
  cbn [later_occurrences] in Hx.
  destruct (bool_decide (key y ∈ earlier)) eqn:Hy.
  - apply elem_of_cons in Hx as [->|Hx].
    + left. by apply bool_decide_eq_true in Hy.
    + destruct (IH _ _ Hx) as [He|(l1 & l2 & -> & Hk)]; [by left|].
      right. exists (y :: l1), l2. split; [done|]. rewrite fmap_cons. by right.
  - destruct (IH _ _ Hx) as [He|(l1 & l2 & -> & Hk)].
    + apply elem_of_cons in He as [He|He]; [|by left].
      right. apply list_elem_of_split in Hx as (l1 & l2 & Hl).
      pose proof (later_occurrences_sublist l (key y :: earlier)) as Hs.
      assert (x ∈ l) as Hin.
      { eapply elem_of_sublist; [|exact Hs]. rewrite Hl. apply elem_of_app. right. by left. }
      apply list_elem_of_split in Hin as (m1 & m2 & ->).
      exists (y :: m1), m2. split; [done|]. rewrite fmap_cons, He. by left.
    + right. exists (y :: l1), l2. split; [done|]. rewrite fmap_cons. by right.
Qed.

End later_occurrences.

Lemma unique_loop_ok env imgDir files :
  forall seen dup tr dup' tr' earlier,
    (forall h, seen_get seen h = true <-> h ∈ earlier) ->
    unique_loop env imgDir files seen dup tr = (Ok dup', tr') ->
    exists (items : list (DirEntry * bytes)) evs,
      fst <$> items = files
      /\ Forall (fun it =>
           io_Copy env (opened env (filepath_Join (lib env) imgDir (Name it.1)))
           = (it.2, None)) items
      /\ tr' = (tr ++ evs)%list
      /\ (let gone := later_occurrences
                        (fun it => Sprintf_x (sha256_Sum (lib env) it.2)) earlier items in
          removes evs = (fun it => filepath_Join (lib env) imgDir (Name it.1)) <$> gone
          /\ dup' = (dup + length gone)%nat).
Proof.
  induction files as [|f files IH]; intros seen dup tr dup' tr' earlier Hseen Hrun.
  - cbn in Hrun. injection Hrun as <- <-. exists [], []. cbn.
    rewrite app_nil_r, Nat.add_0_r. done.
  - cbn [unique_loop] in Hrun. cbv zeta in Hrun. rewrite !act_bind in Hrun.
    fold (opened env (filepath_Join (lib env) imgDir (Name f))) in Hrun.
    set (path := filepath_Join (lib env) imgDir (Name f)) in *.
    destruct (io_Copy env (opened env path)) as [copied [e|]] eqn:Hcopy; [discriminate|].
    destruct (seen_get seen (Sprintf_x (sha256_Sum (lib env) copied))) eqn:Hg;
      cbn [negb] in Hrun.
    + apply Hseen in Hg. rewrite Cmd_bind_eq in Hrun.
      destruct (os_Remove env path) as [e|] eqn:Hrm; cbn [of_error] in Hrun;
        [rewrite attempt_Err in Hrun; discriminate | rewrite attempt_Ok in Hrun].
      destruct (IH _ _ _ _ _ _ Hseen Hrun) as (items & evs & Hit & Hcp & -> & Hrem & ->).
      exists ((f, copied) :: items),
        ([ActOpen path; ActCopy (opened env path); ActClose (opened env path);
          ActRemove path] ++ evs)%list.
      cbn [later_occurrences snd fst]. rewrite bool_decide_eq_true_2 by done.
      split_and!.
      * cbn. by f_equal.
      * by constructor.
      * by rewrite <- !app_assoc.
      * cbn. by f_equal.
      * cbn. lia.
    + assert (Sprintf_x (sha256_Sum (lib env) copied) ∉ earlier) as Hn.
      { intros Hin. apply Hseen in Hin. congruence. }
      assert (Hseen' : forall h,
                seen_get (<[Sprintf_x (sha256_Sum (lib env) copied) := true]> seen) h = true
                <-> h ∈ Sprintf_x (sha256_Sum (lib env) copied) :: earlier).
      { intros h. rewrite seen_get_insert, elem_of_cons, Hseen.
        split; (intros [?|?]; [left|right]); done. }
      destruct (IH _ _ _ _ _ _ Hseen' Hrun) as (items & evs & Hit & Hcp & -> & Hrem & ->).
      exists ((f, copied) :: items),
        ([ActOpen path; ActCopy (opened env path); ActClose (opened env path)] ++ evs)%list.
      cbn [later_occurrences snd fst]. rewrite bool_decide_eq_false_2 by done.
      split_and!.
      * cbn. by f_equal.
      * by constructor.
      * by rewrite <- !app_assoc.
      * done.
      * done.
Qed.

Lemma ExtractImagesUnique_eq env filename imgDir tr :
  ExtractImagesUnique env filename imgDir tr =
  match os_Mkdir (lib env) imgDir with
  | Some e => (Err e, tr ++ [Lib (EvMkdir imgDir)])
  | None =>
    match api_ExtractImagesFile (lib env) filename imgDir with
    | Some e =>
      (Err e, tr ++ [Lib (EvMkdir imgDir); Lib (EvExtractImagesFile filename imgDir)])
    | None =>
      let tr3 := tr ++ [ Lib (EvMkdir imgDir); Lib (EvExtractImagesFile filename imgDir);
                         Lib (EvReadDir imgDir) ] in
      match os_ReadDir (lib env) imgDir with
      | Err e => (Err e, tr3)
      | Ok files =>
        match unique_loop env imgDir files ∅ 0 tr3 with
        | (Ok _, tr') => (Ok tt, tr')
        | (Err e, tr') => (Err e, tr')
        end
      end
    end
  end%list.
Proof.
  unfold ExtractImagesUnique. rewrite Cmd_bind_eq.
  destruct (os_Mkdir (lib env) imgDir); cbn [of_error];
    [by rewrite attempt_Err | rewrite attempt_Ok].
  rewrite Cmd_bind_eq.
  destruct (api_ExtractImagesFile (lib env) filename imgDir); cbn [of_error];
    [rewrite attempt_Err; by rewrite <- app_assoc | rewrite attempt_Ok].
  rewrite Cmd_bind_eq.
  destruct (os_ReadDir (lib env) imgDir);
    [rewrite attempt_Ok | rewrite attempt_Err; by rewrite <- !app_assoc].
  rewrite Cmd_bind_eq. rewrite <- !app_assoc. cbn [app].
  by destruct (unique_loop _ _ _ _ _ _) as [[?|?] ?].
Qed.

Lemma unique_loop_effects env imgDir all files :
  (forall f, f ∈ files -> f ∈ all) ->
  forall seen dup tr,
    exists evs,
      (unique_loop env imgDir files seen dup tr).2 = (tr ++ evs)%list
      /\ Forall (on_listed env imgDir all) evs
      /\ (forall e, (unique_loop env imgDir files seen dup tr).1 = Err e ->
            (exists file, snd (io_Copy env file) = Some e)
            \/ (exists path, os_Remove env path = Some e)).
Proof.
  induction files as [|f files IH]; intros Hsub seen dup tr.
  { exists []. cbn. rewrite app_nil_r. split_and!; [done|done|]. intros e [=]. }
  assert (Hrest : forall g, g ∈ files -> g ∈ all).
  { intros g Hg. apply Hsub. by right. }
  assert (Hf : f ∈ all) by (apply Hsub; by left).
  cbn [unique_loop]. cbv zeta. rewrite !act_bind.
  fold (opened env (filepath_Join (lib env) imgDir (Name f))).
  set (path := filepath_Join (lib env) imgDir (Name f)) in *.
  assert (Hthree : Forall (on_listed env imgDir all)
            [ActOpen path; ActCopy (opened env path); ActClose (opened env path)]).
  { repeat constructor; by exists f. }
  destruct (io_Copy env (opened env path)) as [copied [e|]] eqn:Hcopy.
  { exists [ActOpen path; ActCopy (opened env path); ActClose (opened env path)].
    unfold raise. cbn [fst snd]. rewrite <- !app_assoc. split_and!; [done|done|].
    intros e' [= <-]. left. exists (opened env path). by rewrite Hcopy. }
  destruct (seen_get seen (Sprintf_x (sha256_Sum (lib env) copied))); cbn [negb].
  - rewrite Cmd_bind_eq.
    destruct (os_Remove env path) as [e|] eqn:Hrm; cbn [of_error];
      [rewrite attempt_Err | rewrite attempt_Ok].
    + exists [ActOpen path; ActCopy (opened env path); ActClose (opened env path);
              ActRemove path].
      cbn [fst snd]. rewrite <- !app_assoc. split_and!; [done| |].
      * repeat constructor; by exists f.
      * intros e' [= <-]. right. by exists path.
    + destruct (IH Hrest seen (dup + 1)%nat
                  ((((tr ++ [ActOpen path]) ++ [ActCopy (opened env path)])
                    ++ [ActClose (opened env path)]) ++ [ActRemove path])%list)
        as (evs & Ht & Hevs & He).
      exists ([ActOpen path; ActCopy (opened env path); ActClose (opened env path);
               ActRemove path] ++ evs)%list.
      split_and!; [by rewrite Ht, <- !app_assoc| |exact He].
      apply Forall_app. split; [|done]. repeat constructor; by exists f.
  - destruct (IH Hrest (<[Sprintf_x (sha256_Sum (lib env) copied) := true]> seen) dup
                (((tr ++ [ActOpen path]) ++ [ActCopy (opened env path)])
                 ++ [ActClose (opened env path)])%list)
      as (evs & Ht & Hevs & He).
    exists ([ActOpen path; ActCopy (opened env path); ActClose (opened env path)]
            ++ evs)%list.
    split_and!; [by rewrite Ht, <- !app_assoc| |exact He].
    apply Forall_app. by split.
Qed.

(** X15. When [ExtractImagesUnique] succeeds, the files it removed are, in
    directory order, the listed files whose content hash occurred earlier in
    the listing.  The listing splits into the files kept and the files
    removed; the kept files have pairwise distinct hashes; a removed file has
    an earlier file with its hash; every listed file has its hash among the
    kept ones; and if the paths of the listing are distinct, no kept file is
    removed. *)
Theorem unique_mode_removes_later_duplicates env filename imgDir tr tr' :
  ExtractImagesUnique env filename imgDir tr = (Ok tt, tr') ->
  exists (items : list (DirEntry * bytes)) evs,
    os_ReadDir (lib env) imgDir = Ok (fst <$> items)
    /\ Forall (fun it =>
         io_Copy env (opened env (filepath_Join (lib env) imgDir (Name it.1)))
         = (it.2, None)) items
    /\ tr' = (tr ++ evs)%list
    /\ let key := fun it : DirEntry * bytes => Sprintf_x (sha256_Sum (lib env) it.2) in
       let path := fun it : DirEntry * bytes =>
                     filepath_Join (lib env) imgDir (Name it.1) in
       let kept := first_occurrences key [] items in
       let gone := later_occurrences key [] items in
       removes evs = path <$> gone
       /\ items ≡ₚ (kept ++ gone)%list
       /\ NoDup (key <$> kept)
       /\ (forall it, it ∈ gone ->
             exists l1 l2, items = (l1 ++ it :: l2)%list /\ key it ∈ key <$> l1)
       /\ (forall it, it ∈ items -> key it ∈ key <$> kept)
       /\ (NoDup (path <$> items) -> forall it, it ∈ kept -> path it ∉ removes evs).
Proof.
  rewrite ExtractImagesUnique_eq.
  destruct (os_Mkdir (lib env) imgDir); [discriminate|].
  destruct (api_ExtractImagesFile (lib env) filename imgDir); [discriminate|].
  cbv zeta. destruct (os_ReadDir (lib env) imgDir) as [files|]; [|discriminate].
  destruct (unique_loop env imgDir files ∅ 0 _) as [[dup|e] tr2] eqn:Hloop; [|discriminate].
  intros [= <-].
  assert (Hseen : forall h, seen_get ∅ h = true <-> h ∈ @nil string).
  { intros h. rewrite seen_get_empty. split; [done|]. by intros ?%elem_of_nil. }
  destruct (unique_loop_ok _ _ _ _ _ _ _ _ [] Hseen Hloop)
    as (items & evs & <- & Hcp & -> & Hrem & _).
  exists items, ([ Lib (EvMkdir imgDir); Lib (EvExtractImagesFile filename imgDir);
                   Lib (EvReadDir imgDir) ] ++ evs)%list.
  split; [done|]. split; [done|]. split; [by rewrite <- app_assoc|].
  cbv zeta in *.
  set (key := fun it : DirEntry * bytes => Sprintf_x (sha256_Sum (lib env) it.2)) in *.
  set (path := fun it : DirEntry * bytes =>
                 filepath_Join (lib env) imgDir (Name it.1)) in *.
  set (kept := first_occurrences key [] items).
  set (gone := later_occurrences key [] items) in *.
  assert (Hperm : items ≡ₚ (kept ++ gone)%list) by apply later_first_Permutation.
  split_and!.
  - exact Hrem.
  - exact Hperm.
  - apply first_occurrences_NoDup.
  - intros it Hin. destruct (later_occurrences_earlier key items [] it Hin) as [H|H]; [|done].
    by apply elem_of_nil in H.
  - intros it Hin. destruct (first_occurrences_cover key [] items it Hin) as [H|H]; [|done].
    by apply elem_of_nil in H.
  - intros Hnd it Hin Hrm. change (path it ∈ removes evs) in Hrm. rewrite Hrem in Hrm.
    rewrite Hperm, fmap_app in Hnd. apply NoDup_app in Hnd as (_ & Hdis & _).
    apply (Hdis (path it)); [|done]. apply list_elem_of_fmap. by exists it.
Qed.

(** X15, on a concrete run. *)
Lemma unique_mode_removes_later_duplicates_witness :
  exists (items : list (DirEntry * bytes)) evs,
    os_ReadDir (lib (cmd_env "out" demo_files None)) "out" = Ok (fst <$> items)
    /\ Forall (fun it =>
         io_Copy (cmd_env "out" demo_files None)
           (opened (cmd_env "out" demo_files None)
              (filepath_Join (lib (cmd_env "out" demo_files None)) "out" (Name it.1)))
         = (it.2, None)) items
    /\ (ExtractImagesUnique (cmd_env "out" demo_files None) "doc.pdf" "out" []).2
       = ([] ++ evs)%list
    /\ let key := fun it : DirEntry * bytes =>
                    Sprintf_x (sha256_Sum (lib (cmd_env "out" demo_files None)) it.2) in
       let path := fun it : DirEntry * bytes =>
                     filepath_Join (lib (cmd_env "out" demo_files None)) "out" (Name it.1) in
       let kept := first_occurrences key [] items in
       let gone := later_occurrences key [] items in
       removes evs = path <$> gone
       /\ items ≡ₚ (kept ++ gone)%list
       /\ NoDup (key <$> kept)
       /\ (forall it, it ∈ gone ->
             exists l1 l2, items = (l1 ++ it :: l2)%list /\ key it ∈ key <$> l1)
       /\ (forall it, it ∈ items -> key it ∈ key <$> kept)
       /\ (NoDup (path <$> items) -> forall it, it ∈ kept -> path it ∉ removes evs).
Proof.
  apply (unique_mode_removes_later_duplicates (cmd_env "out" demo_files None)
           "doc.pdf" "out" []).
  vm_compute. reflexivity.
Defined.

Lemma unique_loop_err env imgDir files seen dup tr e :
  (unique_loop env imgDir files seen dup tr).1 = Err e ->
  (exists file, snd (io_Copy env file) = Some e)
  \/ (exists path, os_Remove env path = Some e).
Proof.
  destruct (unique_loop_effects env imgDir files files (fun f H => H) seen dup tr)
    as (evs & _ & _ & He).
  apply He.
Qed.

(** X16. [ExtractImagesUnique] passes errors on as they are, and they are
    those of [os.Mkdir], [api.ExtractImagesFile], [os.ReadDir], [io.Copy] and
    [os.Remove]: the error of [os.Open] is never returned.  Any error of
    [os.Mkdir], an already-exists error as well, ends the run before anything
    is extracted. *)
Theorem unique_mode_passes_errors_on env filename imgDir tr :
  let r := ExtractImagesUnique env filename imgDir tr in
  (forall e, r.1 = Err e -> unique_error env filename imgDir e)
  /\ (forall e, os_Mkdir (lib env) imgDir = Some e ->
        r = (Err e, (tr ++ [Lib (EvMkdir imgDir)])%list)).
Proof.
  intros r. subst r. rewrite ExtractImagesUnique_eq. split.
  - intros e.
    destruct (os_Mkdir (lib env) imgDir) eqn:Hm.
    { intros [= <-]. by apply unique_Mkdir. }
    destruct (api_ExtractImagesFile (lib env) filename imgDir) eqn:Hx.
    { intros [= <-]. by apply unique_ExtractImagesFile. }
    cbv zeta. destruct (os_ReadDir (lib env) imgDir) as [files|e'] eqn:Hrd.
    2:{ intros [= <-]. by apply unique_ReadDir. }
    destruct (unique_loop env imgDir files ∅ 0 _) as [[dup|e'] tr2] eqn:Hloop; [done|].
    intros [= <-].
    destruct (unique_loop_err env imgDir files ∅ 0 _ e' (f_equal fst Hloop))
      as [[file Hc]|[path Hr]].
    + by eapply unique_Copy.
    + by eapply unique_Remove.
  - intros e ->. done.
Qed.

(** X16, on a concrete run. *)
Lemma unique_mode_passes_errors_on_witness :
  ExtractImagesUnique (cmd_env "out" demo_files (Some (PathError "mkdir" "out" EEXIST)))
    "doc.pdf" "out" []
  = (Err (PathError "mkdir" "out" EEXIST), ([] ++ [Lib (EvMkdir "out")])%list).
Proof.
  apply (proj2 (unique_mode_passes_errors_on
                  (cmd_env "out" demo_files (Some (PathError "mkdir" "out" EEXIST)))
                  "doc.pdf" "out" [])).
  reflexivity.
Defined.

Lemma ExtractImagesUnique_effects env filename imgDir tr :
  exists evs,
    (ExtractImagesUnique env filename imgDir tr).2
    = (tr ++ Lib (EvMkdir imgDir) :: evs)%list
    /\ Forall (in_output_dir env filename imgDir) evs.
Proof.
  rewrite ExtractImagesUnique_eq.
  destruct (os_Mkdir (lib env) imgDir) eqn:Hm.
  { by exists []. }
  destruct (api_ExtractImagesFile (lib env) filename imgDir) eqn:Hx.
  { exists [Lib (EvExtractImagesFile filename imgDir)]. split; [done|].
    by repeat constructor. }
  cbv zeta. destruct (os_ReadDir (lib env) imgDir) as [files|e'] eqn:Hrd.
  2:{ exists [Lib (EvExtractImagesFile filename imgDir); Lib (EvReadDir imgDir)].
      split; [done|]. by repeat constructor. }
  destruct (unique_loop_effects env imgDir files files (fun f H => H) ∅ 0
              (tr ++ [ Lib (EvMkdir imgDir); Lib (EvExtractImagesFile filename imgDir);
                       Lib (EvReadDir imgDir) ])%list) as (evs & Ht & Hevs & _).
  exists ([Lib (EvExtractImagesFile filename imgDir); Lib (EvReadDir imgDir)] ++ evs)%list.
  split.
  - destruct (unique_loop env imgDir files ∅ 0 _) as [[dup|e'] tr2]; cbn [fst snd] in *;
      rewrite Ht, <- app_assoc; done.
  - apply Forall_app. split; [by repeat constructor|].
    eapply Forall_impl; [exact Hevs|]. intros a Ha.
    destruct a as [ev| | | | | |]; try done; by exists files.
Qed.

Lemma unique_loop_closes env imgDir files :
  forall seen dup tr,
    exists evs,
      (unique_loop env imgDir files seen dup tr).2 = (tr ++ evs)%list
      /\ handles_closed evs = handles_opened env evs.
Proof.
  induction files as [|f files IH]; intros seen dup tr.
  { exists []. cbn. by rewrite app_nil_r. }
  cbn [unique_loop]. cbv zeta. rewrite !act_bind.
  fold (opened env (filepath_Join (lib env) imgDir (Name f))).
  set (path := filepath_Join (lib env) imgDir (Name f)) in *.
  destruct (io_Copy env (opened env path)) as [copied [e|]] eqn:Hcopy.
  { exists [ActOpen path; ActCopy (opened env path); ActClose (opened env path)].
    unfold raise. cbn [fst snd]. by rewrite <- !app_assoc. }
  destruct (seen_get seen (Sprintf_x (sha256_Sum (lib env) copied))); cbn [negb].
  - rewrite Cmd_bind_eq.
    destruct (os_Remove env path) as [e|] eqn:Hrm; cbn [of_error];
      [rewrite attempt_Err | rewrite attempt_Ok].
    + exists [ActOpen path; ActCopy (opened env path); ActClose (opened env path);
              ActRemove path].
      cbn [fst snd]. by rewrite <- !app_assoc.
    + destruct (IH seen (dup + 1)%nat
                  ((((tr ++ [ActOpen path]) ++ [ActCopy (opened env path)])
                    ++ [ActClose (opened env path)]) ++ [ActRemove path])%list)
        as (evs & Ht & Hevs).
      exists ([ActOpen path; ActCopy (opened env path); ActClose (opened env path);
               ActRemove path] ++ evs)%list.
      split; [by rewrite Ht, <- !app_assoc|].
      unfold handles_closed, handles_opened in *. rewrite !omap_app.
      cbn [omap]. by rewrite Hevs.
  - destruct (IH (<[Sprintf_x (sha256_Sum (lib env) copied) := true]> seen) dup
                (((tr ++ [ActOpen path]) ++ [ActCopy (opened env path)])
                 ++ [ActClose (opened env path)])%list)
      as (evs & Ht & Hevs).
    exists ([ActOpen path; ActCopy (opened env path); ActClose (opened env path)]
            ++ evs)%list.
    split; [by rewrite Ht, <- !app_assoc|].
    unfold handles_closed, handles_opened in *. rewrite !omap_app.
    cbn [omap]. by rewrite Hevs.
Qed.

(** X17. Whatever the outcome, [ExtractImagesUnique] acts on its output
    directory only: after [os.Mkdir] it extracts into it, lists it, and
    opens, copies, closes and removes files listed there.  It prints
    nothing, and it closes what [os.Open] returned, file by file, also when
    it fails. *)
Theorem unique_mode_stays_in_the_output_directory env filename imgDir tr :
  exists evs,
    (ExtractImagesUnique env filename imgDir tr).2
    = (tr ++ Lib (EvMkdir imgDir) :: evs)%list
    /\ Forall (in_output_dir env filename imgDir) evs
    /\ handles_closed evs = handles_opened env evs.
Proof.
  destruct (ExtractImagesUnique_effects env filename imgDir tr) as (evs & Ht & Hevs).
  exists evs. split; [done|]. split; [done|].
  rewrite ExtractImagesUnique_eq in Ht.
  destruct (os_Mkdir (lib env) imgDir).
  { cbn [snd] in Ht. apply app_inv_head in Ht. by injection Ht as <-. }
  destruct (api_ExtractImagesFile (lib env) filename imgDir).
  { cbn [snd] in Ht. apply app_inv_head in Ht. by injection Ht as <-. }
  cbv zeta in Ht. destruct (os_ReadDir (lib env) imgDir) as [files|e'].
  2:{ cbn [snd] in Ht. apply app_inv_head in Ht. by injection Ht as <-. }
  destruct (unique_loop_closes env imgDir files ∅ 0
              (tr ++ [ Lib (EvMkdir imgDir); Lib (EvExtractImagesFile filename imgDir);
                       Lib (EvReadDir imgDir) ])%list) as (evs' & Ht' & Hcl).
  assert (Heq : evs = ([ Lib (EvExtractImagesFile filename imgDir);
                         Lib (EvReadDir imgDir) ] ++ evs')%list).
  { destruct (unique_loop env imgDir files ∅ 0 _) as [[dup|e'] tr2]; cbn [fst snd] in *;
      rewrite Ht', <- app_assoc in Ht; apply app_inv_head in Ht;
      by injection Ht as <-. }
  subst evs. exact Hcl.
Qed.

Lemma substring_0_0 s : substring 0 0 s = "".
Proof. by destruct s. Qed.

Lemma substring_app_l s t : substring 0 (String.length s) (s ++ t) = s.
Proof.
  induction s as [|a s IH]; [apply substring_0_0|].
  rewrite string_app_String. cbn [String.length substring]. by rewrite IH.
Qed.

Lemma TrimSuffix_app stem suffix : TrimSuffix (stem ++ suffix) suffix = stem.
Proof.
  unfold TrimSuffix, HasSuffix. rewrite string_app_length.
  replace (String.length stem + String.length suffix - String.length suffix)%nat
    with (String.length stem) by lia.
  rewrite substring_app_r, String.eqb_refl, substring_app_l.
  by rewrite (proj2 (Nat.leb_le _ _)) by lia.
Qed.

(** X18. [main] prints [Loading PDF] first and ends with status 0 or 1.
    With status 0, an argument was given and none of the three error messages
    was printed; with status 1, printing one of them is the last thing it
    did. *)
Theorem main_reports_every_failure env args :
  let r := main env args in
  head r.2 = Some (ActPrintln [ArgString "Loading PDF"])
  /\ ((r.1 = 0%Z
       /\ (2 <= length args)%nat
       /\ forall a msg, a ∈ r.2 -> message a = Some msg -> msg ∉ error_messages)
      \/ (r.1 = 1%Z
          /\ exists msg, last r.2 ≫= message = Some msg /\ msg ∈ error_messages)).
Proof.
  intros r. subst r. unfold main.
  destruct args as [|prog [|filename rest]].
  - split; [done|]. right. split; [done|]. exists "No PDF file specified".
    split; [done|]. by left.
  - split; [done|]. right. split; [done|]. exists "No PDF file specified".
    split; [done|]. by left.
  - cbv zeta.
    destruct (api_DecryptFile env filename ("unlocked_" ++ filename)) as [err|].
    { split; [done|]. right. split; [done|]. exists "Error decrypting PDF:".
      split; [done|]. right. by left. }
    set (tr0 := (([ActPrintln [ArgString "Loading PDF"]]
                 ++ [ActPrintln [ArgString "Processing file:"; ArgString filename];
                     ActDecryptFile filename ("unlocked_" ++ filename)])
                ++ [ActPrintln [ArgString "PDF successfully unlocked and saved as";
                                ArgString ("unlocked_" ++ filename)]])%list).
    destruct (ExtractImagesUnique_effects env ("unlocked_" ++ filename)
                ("images_" ++ TrimSuffix filename ".pdf") tr0) as (evs & Ht & Hevs).
    destruct (ExtractImagesUnique env ("unlocked_" ++ filename)
                ("images_" ++ TrimSuffix filename ".pdf") tr0) as [[[]|err] tr1];
      cbn [fst snd] in *; subst tr1.
    + split; [done|]. left. split; [done|]. split; [cbn; lia|].
      intros a msg Ha Hmsg. subst tr0.
      rewrite !elem_of_app, !elem_of_cons, elem_of_nil in Ha.
      destruct Ha as [[[[->|[]]|[->|[->|[]]]]|[->|[]]]|[->|Ha]];
        try (injection Hmsg as <-; unfold error_messages;
             rewrite !elem_of_cons, elem_of_nil; intros [?|[?|[?|[]]]]; discriminate);
        try discriminate.
      eapply Forall_forall in Hevs; [|exact Ha].
      by destruct a as [ev| | | | | |args]; [destruct ev| | | | | |].
    + split; [done|]. right. split; [done|]. exists "Error extracting images:".
      split; [by rewrite last_snoc|]. do 2 right. by left.
Qed.

(** X19. For an argument [<stem>.pdf], [main] decrypts into
    [unlocked_<stem>.pdf] and takes [images_<stem>] as the output directory.
    If that directory cannot be created, also when it is there already as on
    a second run, the command ends with status 1 after decrypting, having
    extracted nothing. *)
Theorem main_stops_when_the_output_directory_exists env prog stem rest err :
  let filename := stem ++ ".pdf" in
  api_DecryptFile env filename ("unlocked_" ++ filename) = None ->
  os_Mkdir (lib env) ("images_" ++ stem) = Some err ->
  main env (prog :: filename :: rest)
  = (1%Z,
     [ ActPrintln [ArgString "Loading PDF"];
       ActPrintln [ArgString "Processing file:"; ArgString filename];
       ActDecryptFile filename ("unlocked_" ++ filename);
       ActPrintln [ArgString "PDF successfully unlocked and saved as";
                   ArgString ("unlocked_" ++ filename)];
       Lib (EvMkdir ("images_" ++ stem));
       ActPrintln [ArgString "Error extracting images:"; ArgError err] ]).
Proof.
  intros filename Hdec Hmk. unfold main. cbv zeta. rewrite Hdec.
  subst filename. rewrite TrimSuffix_app, ExtractImagesUnique_eq, Hmk. done.
Qed.

(** X19, on a concrete run. *)
Lemma main_stops_when_the_output_directory_exists_witness :
  main (cmd_env "images_doc" demo_files (Some (PathError "mkdir" "images_doc" EEXIST)))
    ["pixf"; "doc" ++ ".pdf"]
  = (1%Z,
     [ ActPrintln [ArgString "Loading PDF"];
       ActPrintln [ArgString "Processing file:"; ArgString ("doc" ++ ".pdf")];
       ActDecryptFile ("doc" ++ ".pdf") ("unlocked_" ++ "doc" ++ ".pdf");
       ActPrintln [ArgString "PDF successfully unlocked and saved as";
                   ArgString ("unlocked_" ++ "doc" ++ ".pdf")];
       Lib (EvMkdir ("images_" ++ "doc"));
       ActPrintln [ArgString "Error extracting images:";
                   ArgError (PathError "mkdir" "images_doc" EEXIST)] ]).
Proof.
  apply (main_stops_when_the_output_directory_exists
           (cmd_env "images_doc" demo_files (Some (PathError "mkdir" "images_doc" EEXIST)))
           "pixf" "doc" []); reflexivity.
Defined.
